(** * A limit order book with five interchangeable price-level stores

    Shallow embedding of [main.cpp]: the five implementations of the
    [IOrderBook] interface ([OrderBookMap], [OrderBookVector],
    [OrderBookVectorEfficient], [OrderBookVectorBranchless],
    [OrderBookVectorLinear]), the search routines they rely on, the load
    generator [simulateMarket] and [main].

    Modelling conventions.
    - [OrderId] ([uint64_t]) is [N]; [Price] and [Volume] ([int64_t]) are [Z].
      Prices are only compared.  Volumes are added and subtracted; signed
      overflow is undefined behaviour in C++, so every such operation goes
      through [checked] and yields [Undefined SignedOverflow] outside the
      64-bit range.
    - [std::vector<PriceLevel>] is [list PriceLevel]; iterators are indices.
    - [std::unordered_map<OrderId, OrderDetails>] is a [gmap].
    - [std::map<Price, Volume, Compare>] is the in-order sequence of its nodes;
      each node carries an identity so that the iterators cached in
      [OrderDetails] can be told valid from erased: using an erased node is
      [Undefined InvalidIterator].
    - [std::lower_bound] is the bisection loop of the standard library.
    - The pseudo-random numbers and the measured durations of the load
      generator are inputs of the model; what is printed and written to
      files is left out, as are allocation failures.

    Outline: the program; the vocabulary of its specification, with a
    reference book whose levels are finite maps; the properties of the books
    (the searches, sortedness, the invariants of the sorted-vector books, the
    simulation of [OrderBookMap], the refinement of the reference book); the
    properties C1 to C10 of the specification; further properties of the
    books, of the load generator and of [main]. *)

From Stdlib Require Import ZArith Lia.
From stdpp Require Import base option list sorting gmap fin_maps.

Local Open Scope Z_scope.

(** ** Results of operations whose behaviour may be undefined *)

Inductive UB : Set := SignedOverflow | InvalidIterator.

Inductive result (A : Type) : Type :=
| Ok (a : A)
| Undefined (why : UB).
Arguments Ok {A} a.
Arguments Undefined {A} why.

Global Instance result_ret : MRet result := λ A a, Ok a.
Global Instance result_bind : MBind result := λ A B f r,
  match r with
  | Ok a => f a
  | Undefined why => Undefined why
  end.

(** ** Machine integers *)

Definition INT64_MIN : Z := - 2 ^ 63.
Definition INT64_MAX : Z := 2 ^ 63 - 1.

Definition in_int64 (z : Z) : bool := (INT64_MIN <=? z) && (z <=? INT64_MAX).

(** The value of a signed 64-bit [+], [-], [+=] or [-=], whose mathematical
    result is [z]. *)
Definition checked (z : Z) : result Z :=
  if in_int64 z then Ok z else Undefined SignedOverflow.

(** ** Data shared by all books *)

Inductive Side : Set := Ask | Bid.

Global Instance Side_eq_dec : EqDecision Side.
Proof. solve_decision. Defined.

Record PriceLevel : Set := mkLevel { price : Z; volume : Z }.

Global Instance PriceLevel_eq_dec : EqDecision PriceLevel.
Proof. solve_decision. Defined.

(** The three-field [OrderDetails] of the vector-backed books. *)
Record OrderDetails : Set := mkDetails {
  side : Side;
  order_price : Z;
  originalVolume : Z
}.

(** [std::less<Price>] and [std::greater<Price>]. *)
Definition less (a b : Z) : bool := a <? b.
Definition greater (a b : Z) : bool := a >? b.

(** The lambda [[&comp](p1, p2) { return comp(p1.price, p2.price); }]. *)
Definition by_price (comp : Z → Z → bool) (p1 p2 : PriceLevel) : bool :=
  comp (price p1) (price p2).

(** ** Searching a vector *)

Section Search.
Context {A : Type}.

(** [comp( *it, value)] for the iterator at index [i]. *)
Definition comp_at (comp : A → A → bool) (l : list A) (i : nat) (value : A) : bool :=
  match l !! i with
  | Some x => comp x value
  | None => false
  end.

(** [std::lower_bound(first, last, value, comp)]: the bisection loop of the
    standard library.  [len] strictly decreases, so [length l] rounds of
    fuel are never exhausted. *)
Fixpoint lower_bound_loop (fuel : nat) (comp : A → A → bool) (l : list A)
    (value : A) (first len : nat) : nat :=
  match fuel with
  | O => first
  | S fuel' =>
      if (len =? 0)%nat then first
      else
        let half := (len / 2)%nat in
        let middle := (first + half)%nat in
        if comp_at comp l middle value
        then lower_bound_loop fuel' comp l value (middle + 1)%nat (len - half - 1)%nat
        else lower_bound_loop fuel' comp l value first half
  end.

Definition lower_bound (comp : A → A → bool) (l : list A) (value : A) : nat :=
  lower_bound_loop (length l) comp l value 0%nat (length l).

(** [branchless_lower_bound]: [first += comp( *mid, value) * (length - half)]. *)
Fixpoint branchless_loop (fuel : nat) (comp : A → A → bool) (l : list A)
    (value : A) (first len : nat) : nat :=
  match fuel with
  | O => first
  | S fuel' =>
      if (len =? 0)%nat then first
      else
        let half := (len / 2)%nat in
        let mid := (first + half)%nat in
        let first' := (first + Nat.b2n (comp_at comp l mid value) * (len - half))%nat in
        branchless_loop fuel' comp l value first' half
  end.

Definition branchless_lower_bound (comp : A → A → bool) (l : list A) (value : A) : nat :=
  branchless_loop (length l) comp l value 0%nat (length l).

(** [std::find_if(first, last, pred)]: index of the first element that
    satisfies [pred], [length l] (the end iterator) when there is none. *)
Fixpoint find_if (pred : A → bool) (l : list A) : nat :=
  match l with
  | [] => 0%nat
  | x :: l' => if pred x then 0%nat else S (find_if pred l')
  end.

(** [v.insert(it, x)] and [v.erase(it)] for the iterator at index [i]. *)
Definition vector_insert (i : nat) (x : A) (l : list A) : list A :=
  take i l ++ x :: drop i l.

Definition vector_erase (i : nat) (l : list A) : list A := delete i l.
End Search.

(** [v.empty()], [v.front()], [v.back()]; the last two are only read on
    non-empty vectors. *)
Definition vec_empty {A} (l : list A) : bool :=
  match l with
  | [] => true
  | _ :: _ => false
  end.
Definition front {A} (l : list A) : option A := head l.
Definition back {A} (l : list A) : option A := last l.

(** [m.emplace(k, v)] of [std::unordered_map]: inserts only when [k] is absent. *)
Definition emplace {V} (k : N) (v : V) (m : gmap N V) : gmap N V :=
  match m !! k with
  | Some _ => m
  | None => <[k := v]> m
  end.

(** ** The interface [IOrderBook] *)

Class IOrderBook (B : Type) : Type := {
  AddOrder : N → Side → Z → Z → B → result B;
  DeleteOrder : N → B → result B;
  ModifyOrder : N → Z → B → result B;
  GetBestPrices : B → Z * Z
}.

(** ** State of the four vector-backed books *)

Record VecBook : Type := mkVecBook {
  mBidLevels : list PriceLevel;
  mAskLevels : list PriceLevel;
  mOrders : gmap N OrderDetails
}.

(** [(details.side == Side::Bid) ? mBidLevels : mAskLevels], as a reference
    that is read ([levels_of]) and written back ([store]) together with the
    registry. *)
Definition levels_of (s : Side) (b : VecBook) : list PriceLevel :=
  match s with
  | Bid => mBidLevels b
  | Ask => mAskLevels b
  end.

Definition store (s : Side) (levels : list PriceLevel) (orders : gmap N OrderDetails)
    (b : VecBook) : VecBook :=
  match s with
  | Bid => mkVecBook levels (mAskLevels b) orders
  | Ask => mkVecBook (mBidLevels b) levels orders
  end.

(** ** The three books that keep their vectors sorted by binary search

    [OrderBookVector], [OrderBookVectorEfficient] and
    [OrderBookVectorBranchless] have the same text up to the search routine,
    the two comparators and the end of the vector that [GetBestPrices] reads. *)

Section BinarySearchBook.
Variable search : (PriceLevel → PriceLevel → bool) → list PriceLevel → PriceLevel → nat.
Variables bid_comp ask_comp : Z → Z → bool.
Variable best : list PriceLevel → option PriceLevel.

Definition side_comp (s : Side) : Z → Z → bool :=
  match s with
  | Bid => bid_comp
  | Ask => ask_comp
  end.

Definition bs_AddOrderImpl (levels : list PriceLevel) (orders : gmap N OrderDetails)
    (orderId : N) (s : Side) (p vol : Z) (comp : Z → Z → bool)
    : result (list PriceLevel * gmap N OrderDetails) :=
  let it := search (by_price comp) levels (mkLevel p 0) in
  levels' ← match levels !! it with
            | Some lv =>
                if price lv =? p
                then v ← checked (volume lv + vol);
                     Ok (<[it := mkLevel (price lv) v]> levels)
                else Ok (vector_insert it (mkLevel p vol) levels)
            | None => Ok (vector_insert it (mkLevel p vol) levels)
            end;
  Ok (levels', emplace orderId (mkDetails s p vol) orders).

Definition bs_AddOrder (orderId : N) (s : Side) (p vol : Z) (b : VecBook) : result VecBook :=
  match mOrders b !! orderId with
  | Some _ => Ok b
  | None =>
      '(levels, orders) ← bs_AddOrderImpl (levels_of s b) (mOrders b) orderId s p vol (side_comp s);
      Ok (store s levels orders b)
  end.

Definition bs_ModifyOrder (orderId : N) (newVolume : Z) (b : VecBook) : result VecBook :=
  match mOrders b !! orderId with
  | None => Ok b
  | Some details =>
      volumeDiff ← checked (newVolume - originalVolume details);
      let levels := levels_of (side details) b in
      let comp := side_comp (side details) in
      let it := search (by_price comp) levels (mkLevel (order_price details) 0) in
      match levels !! it with
      | Some lv =>
          if price lv =? order_price details
          then v ← checked (volume lv + volumeDiff);
               if v <=? 0
               then Ok (store (side details) (vector_erase it levels)
                          (delete orderId (mOrders b)) b)
               else Ok (store (side details) (<[it := mkLevel (price lv) v]> levels)
                          (<[orderId := mkDetails (side details) (order_price details) newVolume]>
                             (mOrders b)) b)
          else Ok b
      | None => Ok b
      end
  end.

Definition bs_DeleteOrder (orderId : N) (b : VecBook) : result VecBook :=
  match mOrders b !! orderId with
  | None => Ok b
  | Some details =>
      let levels := levels_of (side details) b in
      let comp := side_comp (side details) in
      let it := search (by_price comp) levels (mkLevel (order_price details) 0) in
      levels' ← match levels !! it with
                | Some lv =>
                    if price lv =? order_price details
                    then v ← checked (volume lv - originalVolume details);
                         if v <=? 0
                         then Ok (vector_erase it levels)
                         else Ok (<[it := mkLevel (price lv) v]> levels)
                    else Ok levels
                | None => Ok levels
                end;
      Ok (store (side details) levels' (delete orderId (mOrders b)) b)
  end.

Definition bs_GetBestPrices (b : VecBook) : Z * Z :=
  if vec_empty (mBidLevels b) || vec_empty (mAskLevels b)
  then (0, 0)
  else (from_option price 0 (best (mBidLevels b)),
        from_option price 0 (best (mAskLevels b))).

Definition bs_book : IOrderBook VecBook :=
  {| AddOrder := bs_AddOrder;
     DeleteOrder := bs_DeleteOrder;
     ModifyOrder := bs_ModifyOrder;
     GetBestPrices := bs_GetBestPrices |}.
End BinarySearchBook.

(** [OrderBookVector]: bids under [std::greater], asks under [std::less],
    best price at the front. *)
Module OrderBookVector.
Definition book : IOrderBook VecBook := bs_book lower_bound greater less front.
End OrderBookVector.

(** [OrderBookVectorEfficient]: bids under [std::less], asks under
    [std::greater], best price at the back. *)
Module OrderBookVectorEfficient.
Definition book : IOrderBook VecBook := bs_book lower_bound less greater back.
End OrderBookVectorEfficient.

(** [OrderBookVectorBranchless]: as [OrderBookVectorEfficient], searching with
    [branchless_lower_bound]. *)
Module OrderBookVectorBranchless.
Definition book : IOrderBook VecBook := bs_book branchless_lower_bound less greater back.
End OrderBookVectorBranchless.

(** ** [OrderBookVectorLinear] *)

Module OrderBookVectorLinear.
Definition AddOrderImpl (levels : list PriceLevel) (orders : gmap N OrderDetails)
    (orderId : N) (s : Side) (p vol : Z) (comp : Z → Z → bool)
    : result (list PriceLevel * gmap N OrderDetails) :=
  let it := find_if (λ pl, negb (comp (price pl) p)) levels in
  levels' ← match levels !! it with
            | Some lv =>
                if price lv =? p
                then v ← checked (volume lv + vol);
                     Ok (<[it := mkLevel (price lv) v]> levels)
                else Ok (vector_insert it (mkLevel p vol) levels)
            | None => Ok (vector_insert it (mkLevel p vol) levels)
            end;
  Ok (levels', emplace orderId (mkDetails s p vol) orders).

Definition AddOrder (orderId : N) (s : Side) (p vol : Z) (b : VecBook) : result VecBook :=
  match mOrders b !! orderId with
  | Some _ => Ok b
  | None =>
      '(levels, orders) ←
        AddOrderImpl (levels_of s b) (mOrders b) orderId s p vol
          (match s with Bid => less | Ask => greater end);
      Ok (store s levels orders b)
  end.

Definition ModifyOrder (orderId : N) (newVolume : Z) (b : VecBook) : result VecBook :=
  match mOrders b !! orderId with
  | None => Ok b
  | Some details =>
      volumeDiff ← checked (newVolume - originalVolume details);
      let levels := levels_of (side details) b in
      let it := find_if (λ pl, price pl =? order_price details) levels in
      match levels !! it with
      | Some lv =>
          v ← checked (volume lv + volumeDiff);
          if v <=? 0
          then Ok (store (side details) (vector_erase it levels)
                     (delete orderId (mOrders b)) b)
          else Ok (store (side details) (<[it := mkLevel (price lv) v]> levels)
                     (<[orderId := mkDetails (side details) (order_price details) newVolume]>
                        (mOrders b)) b)
      | None => Ok b
      end
  end.

Definition DeleteOrder (orderId : N) (b : VecBook) : result VecBook :=
  match mOrders b !! orderId with
  | None => Ok b
  | Some details =>
      let levels := levels_of (side details) b in
      let it := find_if (λ pl, price pl =? order_price details) levels in
      levels' ← match levels !! it with
                | Some lv =>
                    v ← checked (volume lv - originalVolume details);
                    if v <=? 0
                    then Ok (vector_erase it levels)
                    else Ok (<[it := mkLevel (price lv) v]> levels)
                | None => Ok levels
                end;
      Ok (store (side details) levels' (delete orderId (mOrders b)) b)
  end.

Definition GetBestPrices (b : VecBook) : Z * Z :=
  if vec_empty (mBidLevels b) || vec_empty (mAskLevels b)
  then (0, 0)
  else (from_option price 0 (back (mBidLevels b)),
        from_option price 0 (back (mAskLevels b))).

Definition book : IOrderBook VecBook :=
  Build_IOrderBook _ AddOrder DeleteOrder ModifyOrder GetBestPrices.
End OrderBookVectorLinear.

(** ** [OrderBookMap] *)

Module OrderBookMap.
(** A node of a [std::map<Price, Volume, Compare>]: the pair
    [(first, second)] and the identity [addr] that iterators refer to. *)
Record Node : Set := mkNode { first : Z; second : Z; addr : nat }.

(** An iterator is the identity of the node it points to; [None] is the
    default-constructed iterator of the side the order is not on. *)
Record Details : Set := mkMapDetails {
  side : Side;
  price : Z;
  originalVolume : Z;
  bidIt : option nat;
  askIt : option nat
}.

(** [next_addr] is the identity the next allocated node receives. *)
Record t : Type := mk {
  mBidLevels : list Node;
  mAskLevels : list Node;
  mOrders : gmap N Details;
  next_addr : nat
}.

(** [m.try_emplace(key, val)]: position of [key] in iteration order, the
    sequence after the call, and whether a node was inserted. *)
Definition try_emplace (comp : Z → Z → bool) (key val : Z) (fresh : nat)
    (nodes : list Node) : list Node * nat * bool :=
  let i := find_if (λ n, negb (comp (first n) key)) nodes in
  match nodes !! i with
  | Some n =>
      if first n =? key
      then (nodes, i, false)
      else (vector_insert i (mkNode key val fresh) nodes, i, true)
  | None => (vector_insert i (mkNode key val fresh) nodes, i, true)
  end.

(** Dereferencing an iterator: position and contents of the node it points
    to, undefined once that node has been erased. *)
Definition deref (it : option nat) (nodes : list Node) : result (nat * Node) :=
  match it with
  | None => Undefined InvalidIterator
  | Some a =>
      let i := find_if (λ n, (addr n =? a)%nat) nodes in
      match nodes !! i with
      | Some n => Ok (i, n)
      | None => Undefined InvalidIterator
      end
  end.

(** The [if (side == Side::Bid) { ... } else { ... }] body of [AddOrder] on
    the map of one side; returns the new sequence and the iterator [it]. *)
Definition add_level (comp : Z → Z → bool) (p vol : Z) (fresh : nat)
    (nodes : list Node) : result (list Node * nat * nat) :=
  let '(nodes1, i, inserted) := try_emplace comp p vol fresh nodes in
  match nodes1 !! i with
  | None => Undefined InvalidIterator
  | Some n =>
      if inserted
      then Ok (nodes1, addr n, S fresh)
      else v ← checked (second n + vol);
           Ok (<[i := mkNode (first n) v (addr n)]> nodes1, addr n, fresh)
  end.

Definition AddOrder (orderId : N) (s : Side) (p vol : Z) (b : t) : result t :=
  match mOrders b !! orderId with
  | Some _ => Ok b
  | None =>
      match s with
      | Bid =>
          '(nodes, it, fresh) ← add_level greater p vol (next_addr b) (mBidLevels b);
          Ok (mk nodes (mAskLevels b)
                (emplace orderId (mkMapDetails s p vol (Some it) None) (mOrders b)) fresh)
      | Ask =>
          '(nodes, it, fresh) ← add_level less p vol (next_addr b) (mAskLevels b);
          Ok (mk (mBidLevels b) nodes
                (emplace orderId (mkMapDetails s p vol None (Some it)) (mOrders b)) fresh)
      end
  end.

Definition set_volume (newVolume : Z) (d : Details) : Details :=
  mkMapDetails (side d) (price d) newVolume (bidIt d) (askIt d).

Definition ModifyOrder (orderId : N) (newVolume : Z) (b : t) : result t :=
  match mOrders b !! orderId with
  | None => Ok b
  | Some details =>
      volumeDiff ← checked (newVolume - originalVolume details);
      match side details with
      | Bid =>
          '(i, n) ← deref (bidIt details) (mBidLevels b);
          v ← checked (second n + volumeDiff);
          if v <=? 0
          then Ok (mk (vector_erase i (mBidLevels b)) (mAskLevels b)
                     (delete orderId (mOrders b)) (next_addr b))
          else Ok (mk (<[i := mkNode (first n) v (addr n)]> (mBidLevels b)) (mAskLevels b)
                     (<[orderId := set_volume newVolume details]> (mOrders b)) (next_addr b))
      | Ask =>
          '(i, n) ← deref (askIt details) (mAskLevels b);
          v ← checked (second n + volumeDiff);
          if v <=? 0
          then Ok (mk (mBidLevels b) (vector_erase i (mAskLevels b))
                     (delete orderId (mOrders b)) (next_addr b))
          else Ok (mk (mBidLevels b) (<[i := mkNode (first n) v (addr n)]> (mAskLevels b))
                     (<[orderId := set_volume newVolume details]> (mOrders b)) (next_addr b))
      end
  end.

Definition DeleteOrder (orderId : N) (b : t) : result t :=
  match mOrders b !! orderId with
  | None => Ok b
  | Some details =>
      match side details with
      | Bid =>
          '(i, n) ← deref (bidIt details) (mBidLevels b);
          v ← checked (second n - originalVolume details);
          Ok (mk (if v <=? 0 then vector_erase i (mBidLevels b)
                  else <[i := mkNode (first n) v (addr n)]> (mBidLevels b))
                (mAskLevels b) (delete orderId (mOrders b)) (next_addr b))
      | Ask =>
          '(i, n) ← deref (askIt details) (mAskLevels b);
          v ← checked (second n - originalVolume details);
          Ok (mk (mBidLevels b)
                (if v <=? 0 then vector_erase i (mAskLevels b)
                 else <[i := mkNode (first n) v (addr n)]> (mAskLevels b))
                (delete orderId (mOrders b)) (next_addr b))
      end
  end.

(** [begin()->first] is the key of the first node in iteration order. *)
Definition GetBestPrices (b : t) : Z * Z :=
  if vec_empty (mBidLevels b) || vec_empty (mAskLevels b)
  then (0, 0)
  else (from_option first 0 (head (mBidLevels b)),
        from_option first 0 (head (mAskLevels b))).

Definition book : IOrderBook t :=
  Build_IOrderBook _ AddOrder DeleteOrder ModifyOrder GetBestPrices.

Definition empty : t := mk [] [] ∅ 0.

(** What a map-backed book stores, in the vocabulary of the vector-backed ones. *)
Definition level_of_node (n : Node) : PriceLevel := mkLevel (first n) (second n).
Definition details_of (d : Details) : OrderDetails :=
  mkDetails (side d) (price d) (originalVolume d).
End OrderBookMap.

(** ** Running operation sequences *)

Inductive Op : Set :=
| Add (orderId : N) (s : Side) (p vol : Z)
| Modify (orderId : N) (newVolume : Z)
| Delete (orderId : N).

Definition apply_op {B} (I : IOrderBook B) (op : Op) (b : B) : result B :=
  match op with
  | Add orderId s p vol => AddOrder orderId s p vol b
  | Modify orderId newVolume => ModifyOrder orderId newVolume b
  | Delete orderId => DeleteOrder orderId b
  end.

Fixpoint run {B} (I : IOrderBook B) (ops : list Op) (b : B) : result B :=
  match ops with
  | [] => Ok b
  | op :: ops' => b' ← apply_op I op b; run I ops' b'
  end.

Definition empty_book : VecBook := mkVecBook [] [] ∅.

(** ** The five strategies behind one name *)

Inductive Strategy : Set :=
| StdMap | Vector | VectorEfficient | VectorBranchless | VectorLinear.

Global Instance Strategy_eq_dec : EqDecision Strategy.
Proof. solve_decision. Defined.

Definition book_state (s : Strategy) : Type :=
  match s with
  | StdMap => OrderBookMap.t
  | _ => VecBook
  end.

Definition strategy_book (s : Strategy) : IOrderBook (book_state s) :=
  match s with
  | StdMap => OrderBookMap.book
  | Vector => OrderBookVector.book
  | VectorEfficient => OrderBookVectorEfficient.book
  | VectorBranchless => OrderBookVectorBranchless.book
  | VectorLinear => OrderBookVectorLinear.book
  end.

Definition new_book (s : Strategy) : book_state s :=
  match s with
  | StdMap => OrderBookMap.empty
  | _ => empty_book
  end.

(** The observable content of a book: the price levels of a side and the
    registry of live orders. *)
Definition levels (s : Strategy) : Side → book_state s → list PriceLevel :=
  match s with
  | StdMap => λ sd b,
      OrderBookMap.level_of_node <$>
        match sd with
        | Bid => OrderBookMap.mBidLevels b
        | Ask => OrderBookMap.mAskLevels b
        end
  | _ => levels_of
  end.

Definition registry (s : Strategy) : book_state s → gmap N OrderDetails :=
  match s with
  | StdMap => λ b, OrderBookMap.details_of <$> OrderBookMap.mOrders b
  | _ => mOrders
  end.

(** The book of strategy [s] after the operations [ops], and the best prices
    it reports. *)
Definition after (s : Strategy) (ops : list Op) : result (book_state s) :=
  run (strategy_book s) ops (new_book s).

Definition best_prices (s : Strategy) (b : book_state s) : Z * Z :=
  @GetBestPrices _ (strategy_book s) b.

(** ** The load generator and [main]

    [LatencyMeasurement] is the vector [durations_ns]; [record] appends to it.
    The pseudo-random numbers that an iteration of [simulateMarket] takes from
    [gen] are an input, one [Draw] per iteration: [op_draw] and [side_draw]
    from [op_dist], [price_draw] from [price_dist], [volume_draw] from
    [volume_dist], [idx_draw n] from the distribution over [[0, n - 1]], and
    [elapsed_ns], the duration that the [ScopedTimer] of the iteration
    measures. *)

Definition record (duration_ns : Z) (durations_ns : list Z) : list Z :=
  durations_ns ++ [duration_ns].

Record Draw : Type := mkDraw {
  op_draw : Z;
  side_draw : Z;
  price_draw : Z;
  volume_draw : Z;
  idx_draw : nat → nat;
  elapsed_ns : Z
}.

(** The locals of [simulateMarket] and its two reference arguments. *)
Record Sim (B : Type) : Type := mkSim {
  orderBook : B;
  latency : list Z;
  activeOrders : list N;
  next_id : N
}.
Arguments mkSim {B} _ _ _ _.
Arguments orderBook {B} _.
Arguments latency {B} _.
Arguments activeOrders {B} _.
Arguments next_id {B} _.

(** [next_id++] on a [uint64_t]. *)
Definition uint64_incr (n : N) : N := ((n + 1) mod 2 ^ 64)%N.

(** One iteration of the loop; [activeOrders[idx]] and
    [activeOrders.begin() + idx] are undefined beyond the end of the vector.
    The calls of the book throw nothing for the [catch] to catch.  The timer
    records when the iteration ends. *)
Definition simulate_iteration {B} (I : IOrderBook B) (d : Draw) (st : Sim B)
    : result (Sim B) :=
  let op := op_draw d in
  let sd := if Z.rem (side_draw d) 2 =? 0 then Bid else Ask in
  st' ←
    (if (op =? 0) || vec_empty (activeOrders st)
     then
       let id := next_id st in
       book ← AddOrder id sd (price_draw d) (volume_draw d) (orderBook st);
       Ok (mkSim book (latency st) (activeOrders st ++ [id]) (uint64_incr (next_id st)))
     else if op =? 1
     then
       let idx := idx_draw d (length (activeOrders st)) in
       match activeOrders st !! idx with
       | Some id =>
           book ← ModifyOrder id (volume_draw d) (orderBook st);
           Ok (mkSim book (latency st) (activeOrders st) (next_id st))
       | None => Undefined InvalidIterator
       end
     else
       let idx := idx_draw d (length (activeOrders st)) in
       match activeOrders st !! idx with
       | Some id =>
           book ← DeleteOrder id (orderBook st);
           Ok (mkSim book (latency st) (vector_erase idx (activeOrders st)) (next_id st))
       | None => Undefined InvalidIterator
       end);
  Ok (mkSim (orderBook st') (record (elapsed_ns d) (latency st')) (activeOrders st')
        (next_id st')).

(** The iterations [i, i + n) of the loop. *)
Fixpoint simulate_loop {B} (I : IOrderBook B) (gen : nat → Draw) (n i : nat) (st : Sim B)
    : result (Sim B) :=
  match n with
  | O => Ok st
  | S n' => st' ← simulate_iteration I (gen i) st; simulate_loop I gen n' (S i) st'
  end.

Definition simulateMarket {B} (I : IOrderBook B) (gen : nat → Draw)
    (orderBook : B) (latency : list Z) (updates : N) : result (Sim B) :=
  simulate_loop I gen (N.to_nat updates) 0 (mkSim orderBook latency [] 1%N).

(** [simulateMarketRandomizedHeap] first allocates a vector of
    [1024 + i % 512] bytes, which nothing reads. *)
Definition simulateMarketRandomizedHeap {B} (I : IOrderBook B) (gen : nat → Draw)
    (orderBook : B) (latency : list Z) (updates : N) : result (Sim B) :=
  simulate_loop I gen (N.to_nat updates) 0 (mkSim orderBook latency [] 1%N).

Definition NUM_OPERATIONS : N := 100000.

(** [main]: the six measurements, each on a new book and a new
    [LatencyMeasurement], with a generator of its own; the result is the
    [durations_ns] that each measurement prints and saves. *)
Definition main (gen1 gen2 gen3 gen4 gen5 gen6 : nat → Draw) : result (list (list Z)) :=
  r1 ← simulateMarket OrderBookMap.book gen1 OrderBookMap.empty [] NUM_OPERATIONS;
  r2 ← simulateMarketRandomizedHeap OrderBookMap.book gen2 OrderBookMap.empty [] NUM_OPERATIONS;
  r3 ← simulateMarket OrderBookVector.book gen3 empty_book [] NUM_OPERATIONS;
  r4 ← simulateMarket OrderBookVectorEfficient.book gen4 empty_book [] NUM_OPERATIONS;
  r5 ← simulateMarket OrderBookVectorBranchless.book gen5 empty_book [] NUM_OPERATIONS;
  r6 ← simulateMarket OrderBookVectorLinear.book gen6 empty_book [] NUM_OPERATIONS;
  Ok [latency r1; latency r2; latency r3; latency r4; latency r5; latency r6].

(** * Specification vocabulary

    The predicates, invariants and reference model in which the properties of
    the books are stated. *)

(** ** Sorted vectors and their searches *)

(** [l] is partitioned by [p]: a run of elements satisfying [p] followed by
    a run of elements that do not. *)
Definition partitioned {A} (p : A → bool) (l : list A) : Prop :=
  ∀ (i j : nat) x y, (i ≤ j)%nat → l !! i = Some x → l !! j = Some y → p y = true → p x = true.

(** What the code needs from [std::less] and [std::greater]: a strict total
    order on prices. *)
Class Comparator (comp : Z → Z → bool) : Prop := {
  comp_irrefl : ∀ x, comp x x = false;
  comp_trans : ∀ x y z, comp x y = true → comp y z = true → comp x z = true;
  comp_total : ∀ x y, comp x y = false → comp y x = false → x = y
}.

(** A sequence of prices in strictly increasing order with respect to [comp]. *)
Definition sorted_prices (comp : Z → Z → bool) (ps : list Z) : Prop :=
  StronglySorted (λ a b, comp a b = true) ps.

(** A vector of levels sorted by price. *)
Definition sorted (comp : Z → Z → bool) (l : list PriceLevel) : Prop :=
  sorted_prices comp (price <$> l).

(** The partition point of [value] in [l]: the first position whose element
    does not compare before [value]. *)
Definition partition_point {A} (cmp : A → A → bool) (l : list A) (value : A) : nat :=
  find_if (λ y, negb (cmp y value)) l.

(** The partition point of price [p] among the levels [l]. *)
Definition position (comp : Z → Z → bool) (p : Z) (l : list PriceLevel) : nat :=
  find_if (λ pl, negb (comp (price pl) p)) l.

(** A search routine that agrees with [partition_point] on partitioned input. *)
Definition SearchSpec
    (search : (PriceLevel → PriceLevel → bool) → list PriceLevel → PriceLevel → nat) : Prop :=
  ∀ cmp l v, partitioned (λ y, cmp y v) l → search cmp l v = partition_point cmp l v.

(** Both vectors of a book are sorted under their side's comparator. *)
Definition wf (bid_comp ask_comp : Z → Z → bool) (b : VecBook) : Prop :=
  ∀ s, sorted (side_comp bid_comp ask_comp s) (levels_of s b).

(** [p] is the highest (lowest) price among the levels [l]. *)
Definition highest (l : list PriceLevel) (p : Z) : Prop :=
  p ∈ price <$> l ∧ ∀ q, q ∈ price <$> l → q ≤ p.

Definition lowest (l : list PriceLevel) (p : Z) : Prop :=
  p ∈ price <$> l ∧ ∀ q, q ∈ price <$> l → p ≤ q.

(** ** Levels against the registry *)

(** What order [d] adds to the level at price [p] on side [s]. *)
Definition contribution (s : Side) (p : Z) (d : OrderDetails) : Z :=
  if decide (side d = s ∧ order_price d = p) then originalVolume d else 0.

(** The sum of [originalVolume] over the registered orders at [(p, s)]. *)
Definition level_sum (orders : gmap N OrderDetails) (s : Side) (p : Z) : Z :=
  map_fold (λ _ d acc, acc + contribution s p d) 0 orders.

(** Every registered order has a strictly positive volume. *)
Definition orders_positive (orders : gmap N OrderDetails) : Prop :=
  ∀ orderId d, orders !! orderId = Some d → 0 < originalVolume d.

(** Every level has a strictly positive volume. *)
Definition levels_positive (b : VecBook) : Prop :=
  ∀ s lv, lv ∈ levels_of s b → 0 < volume lv.

(** Every level holds the volume of the registered orders at its price. *)
Definition aggregates_exact (b : VecBook) : Prop :=
  ∀ s lv, lv ∈ levels_of s b → volume lv = level_sum (mOrders b) s (price lv).

(** Every registered order has a level at its price on its side. *)
Definition orders_have_level (b : VecBook) : Prop :=
  ∀ orderId d, mOrders b !! orderId = Some d →
    order_price d ∈ price <$> levels_of (side d) b.

Definition consistent (b : VecBook) : Prop :=
  aggregates_exact b ∧ orders_have_level b ∧ orders_positive (mOrders b).

(** Operations whose [AddOrder] volumes are strictly positive, and operations
    whose [AddOrder] and [ModifyOrder] volumes both are. *)
Definition add_positive (op : Op) : Prop :=
  match op with
  | Add _ _ _ vol => 0 < vol
  | _ => True
  end.

Definition volumes_positive (op : Op) : Prop :=
  match op with
  | Add _ _ _ vol => 0 < vol
  | Modify _ newVolume => 0 < newVolume
  | Delete _ => True
  end.

(** ** [OrderBookMap] side by side *)

(** The comparator, the node sequence and the cached iterator of a side, and
    the book with the node sequence of one side, the registry and
    [next_addr] replaced: the two branches of the [OrderBookMap] methods
    differ only in these. *)
Definition map_comp : Side → Z → Z → bool := side_comp greater less.

Definition nodes_of (s : Side) (m : OrderBookMap.t) : list OrderBookMap.Node :=
  match s with
  | Bid => OrderBookMap.mBidLevels m
  | Ask => OrderBookMap.mAskLevels m
  end.

Definition iterator_of (s : Side) (d : OrderBookMap.Details) : option nat :=
  match s with
  | Bid => OrderBookMap.bidIt d
  | Ask => OrderBookMap.askIt d
  end.

Definition map_store (s : Side) (nodes : list OrderBookMap.Node)
    (orders : gmap N OrderBookMap.Details) (fresh : nat) (m : OrderBookMap.t)
    : OrderBookMap.t :=
  match s with
  | Bid => OrderBookMap.mk nodes (OrderBookMap.mAskLevels m) orders fresh
  | Ask => OrderBookMap.mk (OrderBookMap.mBidLevels m) nodes orders fresh
  end.

(** The [OrderDetails] that [AddOrder] registers on side [s]. *)
Definition new_details (s : Side) (p vol : Z) (it : nat) : OrderBookMap.Details :=
  match s with
  | Bid => OrderBookMap.mkMapDetails s p vol (Some it) None
  | Ask => OrderBookMap.mkMapDetails s p vol None (Some it)
  end.

(** The vector-backed book with the same levels and the same registry. *)
Definition forget (m : OrderBookMap.t) : VecBook :=
  mkVecBook (OrderBookMap.level_of_node <$> OrderBookMap.mBidLevels m)
            (OrderBookMap.level_of_node <$> OrderBookMap.mAskLevels m)
            (OrderBookMap.details_of <$> OrderBookMap.mOrders m).

(** Node identities are unique and below [next_addr]; a cached iterator that
    is still valid points to the node of its order's price. *)
Definition map_wf (m : OrderBookMap.t) : Prop :=
  (∀ s, NoDup (OrderBookMap.addr <$> nodes_of s m)) ∧
  (∀ s n, n ∈ nodes_of s m → (OrderBookMap.addr n < OrderBookMap.next_addr m)%nat) ∧
  (∀ orderId d a,
     OrderBookMap.mOrders m !! orderId = Some d →
     iterator_of (OrderBookMap.side d) d = Some a →
     (a < OrderBookMap.next_addr m)%nat ∧
     ∀ n, n ∈ nodes_of (OrderBookMap.side d) m → OrderBookMap.addr n = a →
          OrderBookMap.first n = OrderBookMap.price d).

(** The invariant of a reachable [OrderBookMap]. *)
Definition map_inv (m : OrderBookMap.t) : Prop := map_wf m ∧ wf greater less (forget m).

(** ** The strategies as sorted-vector books *)

(** The comparators and the read end of a strategy. *)
Definition bid_comp_of (s : Strategy) : Z → Z → bool :=
  match s with
  | StdMap | Vector => greater
  | _ => less
  end.

Definition ask_comp_of (s : Strategy) : Z → Z → bool :=
  match s with
  | StdMap | Vector => less
  | _ => greater
  end.

Definition best_of (s : Strategy) : list PriceLevel → option PriceLevel :=
  match s with
  | StdMap | Vector => front
  | _ => back
  end.

(** The sorted-vector book with the comparators and the read end of [s],
    searched by partition point. *)
Definition canonical_of (s : Strategy) : IOrderBook VecBook :=
  bs_book partition_point (bid_comp_of s) (ask_comp_of s) (best_of s).

(** The levels and the registry of a book, as a vector-backed book. *)
Definition view (s : Strategy) : book_state s → VecBook :=
  match s with
  | StdMap => forget
  | _ => λ b, b
  end.

(** The best prices reported after a run. *)
Definition prices_after (s : Strategy) (ops : list Op) : result (Z * Z) :=
  b ← after s ops; Ok (best_prices s b).

(** ** A reference book: levels as finite maps

    The content of a book, forgetting the order in which a strategy stores its
    levels: price ↦ aggregated volume for each side, and the registry.  Every
    strategy refines the operations below. *)

Record AbsBook : Type := mkAbsBook {
  abs_bids : gmap Z Z;
  abs_asks : gmap Z Z;
  abs_orders : gmap N OrderDetails
}.

Definition abs_levels (s : Side) (a : AbsBook) : gmap Z Z :=
  match s with
  | Bid => abs_bids a
  | Ask => abs_asks a
  end.

Definition abs_store (s : Side) (lm : gmap Z Z) (orders : gmap N OrderDetails)
    (a : AbsBook) : AbsBook :=
  match s with
  | Bid => mkAbsBook lm (abs_asks a) orders
  | Ask => mkAbsBook (abs_bids a) lm orders
  end.

Definition abs_AddOrder (orderId : N) (s : Side) (p vol : Z) (a : AbsBook) : result AbsBook :=
  match abs_orders a !! orderId with
  | Some _ => Ok a
  | None =>
      lm ← match abs_levels s a !! p with
           | Some v0 => v ← checked (v0 + vol); Ok (<[p := v]> (abs_levels s a))
           | None => Ok (<[p := vol]> (abs_levels s a))
           end;
      Ok (abs_store s lm (<[orderId := mkDetails s p vol]> (abs_orders a)) a)
  end.

Definition abs_ModifyOrder (orderId : N) (newVolume : Z) (a : AbsBook) : result AbsBook :=
  match abs_orders a !! orderId with
  | None => Ok a
  | Some d =>
      volumeDiff ← checked (newVolume - originalVolume d);
      match abs_levels (side d) a !! order_price d with
      | Some v0 =>
          v ← checked (v0 + volumeDiff);
          if v <=? 0
          then Ok (abs_store (side d) (delete (order_price d) (abs_levels (side d) a))
                     (delete orderId (abs_orders a)) a)
          else Ok (abs_store (side d) (<[order_price d := v]> (abs_levels (side d) a))
                     (<[orderId := mkDetails (side d) (order_price d) newVolume]>
                        (abs_orders a)) a)
      | None => Ok a
      end
  end.

Definition abs_DeleteOrder (orderId : N) (a : AbsBook) : result AbsBook :=
  match abs_orders a !! orderId with
  | None => Ok a
  | Some d =>
      lm ← match abs_levels (side d) a !! order_price d with
           | Some v0 =>
               v ← checked (v0 - originalVolume d);
               if v <=? 0
               then Ok (delete (order_price d) (abs_levels (side d) a))
               else Ok (<[order_price d := v]> (abs_levels (side d) a))
           | None => Ok (abs_levels (side d) a)
           end;
      Ok (abs_store (side d) lm (delete orderId (abs_orders a)) a)
  end.

Definition abs_apply_op (op : Op) (a : AbsBook) : result AbsBook :=
  match op with
  | Add orderId s p vol => abs_AddOrder orderId s p vol a
  | Modify orderId newVolume => abs_ModifyOrder orderId newVolume a
  | Delete orderId => abs_DeleteOrder orderId a
  end.

Fixpoint abs_run (ops : list Op) (a : AbsBook) : result AbsBook :=
  match ops with
  | [] => Ok a
  | op :: ops' => a' ← abs_apply_op op a; abs_run ops' a'
  end.

Definition abs_empty : AbsBook := mkAbsBook ∅ ∅ ∅.

(** The finite map of a vector of levels, and the reference book of a
    vector-backed book. *)
Definition to_map (l : list PriceLevel) : gmap Z Z :=
  list_to_map ((λ z, (price z, volume z)) <$> l).

Definition abs (b : VecBook) : AbsBook :=
  mkAbsBook (to_map (mBidLevels b)) (to_map (mAskLevels b)) (mOrders b).

Definition result_map {A B} (f : A → B) (r : result A) : result B :=
  match r with
  | Ok a => Ok (f a)
  | Undefined why => Undefined why
  end.

(** The reference book a strategy reaches. *)
Definition abs_after (s : Strategy) (ops : list Op) : result AbsBook :=
  result_map (λ b, abs (view s b)) (after s ops).

(** ** The properties stated of the books *)

(** No level at zero or negative volume. *)
Definition no_empty_level (s : Strategy) (b : book_state s) : Prop :=
  ∀ sd lv, lv ∈ levels s sd b → 0 < volume lv.

(** Every registered order has a strictly positive volume. *)
Definition live_orders_positive (s : Strategy) (b : book_state s) : Prop :=
  ∀ orderId d, registry s b !! orderId = Some d → 0 < originalVolume d.

(** Each level holds the sum of the volumes of the registered orders at its
    price and side, and the price of each registered order is held at exactly
    one position of its side. *)
Definition levels_match_orders (s : Strategy) (b : book_state s) : Prop :=
  (∀ sd lv, lv ∈ levels s sd b → volume lv = level_sum (registry s b) sd (price lv)) ∧
  (∀ orderId d, registry s b !! orderId = Some d →
     ∃ i lv, levels s (side d) b !! i = Some lv ∧ price lv = order_price d ∧
       ∀ j lv', levels s (side d) b !! j = Some lv' → price lv' = order_price d → j = i).

(** The book [b'] that [ModifyOrder] leaves when it moves the level of order
    [d] to the volume [agg]: the other side is untouched; if [agg ≤ 0] the
    order and its level are gone, otherwise the order holds [newVolume] and
    its level holds [agg]. *)
Definition vec_modify_outcome (orderId : N) (d : OrderDetails) (agg newVolume : Z)
    (b b' : VecBook) : Prop :=
  (∀ sd, sd ≠ side d → levels_of sd b' = levels_of sd b) ∧
  if decide (agg ≤ 0)
  then mOrders b' = delete orderId (mOrders b) ∧
       ∀ z, z ∈ levels_of (side d) b' ↔
            z ∈ levels_of (side d) b ∧ price z ≠ order_price d
  else mOrders b' = <[orderId := mkDetails (side d) (order_price d) newVolume]> (mOrders b) ∧
       ∀ z, z ∈ levels_of (side d) b' ↔
            z = mkLevel (order_price d) agg ∨
            (z ∈ levels_of (side d) b ∧ price z ≠ order_price d).

Definition modify_outcome (s : Strategy) (orderId : N) (d : OrderDetails)
    (agg newVolume : Z) (b b' : book_state s) : Prop :=
  (∀ sd, sd ≠ side d → levels s sd b' = levels s sd b) ∧
  if decide (agg ≤ 0)
  then registry s b' = delete orderId (registry s b) ∧
       ∀ z, z ∈ levels s (side d) b' ↔
            z ∈ levels s (side d) b ∧ price z ≠ order_price d
  else registry s b' = <[orderId := mkDetails (side d) (order_price d) newVolume]> (registry s b) ∧
       ∀ z, z ∈ levels s (side d) b' ↔
            z = mkLevel (order_price d) agg ∨
            (z ∈ levels s (side d) b ∧ price z ≠ order_price d).

(** ** Further vocabulary *)

(** Whether the prices of side [sd] decrease along the container of strategy
    [s]: [std::greater] orders a container downward, [std::less] upward. *)
Definition runs_downward (s : Strategy) (sd : Side) : bool :=
  match s, sd with
  | (StdMap | Vector), Bid => true
  | (StdMap | Vector), Ask => false
  | _, Bid => false
  | _, Ask => true
  end.

(** Every registered order of an [OrderBookMap] caches the iterator of a node
    that is still in the map of its side. *)
Definition iterators_valid (m : OrderBookMap.t) : Prop :=
  ∀ orderId d, OrderBookMap.mOrders m !! orderId = Some d →
    ∃ n, n ∈ nodes_of (OrderBookMap.side d) m ∧
         iterator_of (OrderBookMap.side d) d = Some (OrderBookMap.addr n).

(** The book [b'] that [AddOrder] leaves when it registers the order
    [orderId] and brings the level at price [p] on side [sd] to the volume
    [agg]: the other side and the other levels are untouched. *)
Definition vec_add_outcome (orderId : N) (sd : Side) (p vol agg : Z) (b b' : VecBook) : Prop :=
  mOrders b' = <[orderId := mkDetails sd p vol]> (mOrders b) ∧
  (∀ sd', sd' ≠ sd → levels_of sd' b' = levels_of sd' b) ∧
  ∀ z, z ∈ levels_of sd b' ↔ z = mkLevel p agg ∨ (z ∈ levels_of sd b ∧ price z ≠ p).

Definition add_outcome (s : Strategy) (orderId : N) (sd : Side) (p vol agg : Z)
    (b b' : book_state s) : Prop :=
  registry s b' = <[orderId := mkDetails sd p vol]> (registry s b) ∧
  (∀ sd', sd' ≠ sd → levels s sd' b' = levels s sd' b) ∧
  ∀ z, z ∈ levels s sd b' ↔ z = mkLevel p agg ∨ (z ∈ levels s sd b ∧ price z ≠ p).

(** The book [b'] that [DeleteOrder] leaves when it removes the order [d] and
    moves its level to the volume [agg]: the order is gone, the other side
    and the other levels are untouched, and the level is gone if [agg ≤ 0]
    and holds [agg] otherwise. *)
Definition vec_delete_outcome (orderId : N) (d : OrderDetails) (agg : Z)
    (b b' : VecBook) : Prop :=
  mOrders b' = delete orderId (mOrders b) ∧
  (∀ sd, sd ≠ side d → levels_of sd b' = levels_of sd b) ∧
  if decide (agg ≤ 0)
  then ∀ z, z ∈ levels_of (side d) b' ↔ z ∈ levels_of (side d) b ∧ price z ≠ order_price d
  else ∀ z, z ∈ levels_of (side d) b' ↔
            z = mkLevel (order_price d) agg ∨
            (z ∈ levels_of (side d) b ∧ price z ≠ order_price d).

Definition delete_outcome (s : Strategy) (orderId : N) (d : OrderDetails) (agg : Z)
    (b b' : book_state s) : Prop :=
  registry s b' = delete orderId (registry s b) ∧
  (∀ sd, sd ≠ side d → levels s sd b' = levels s sd b) ∧
  if decide (agg ≤ 0)
  then ∀ z, z ∈ levels s (side d) b' ↔ z ∈ levels s (side d) b ∧ price z ≠ order_price d
  else ∀ z, z ∈ levels s (side d) b' ↔
            z = mkLevel (order_price d) agg ∨
            (z ∈ levels s (side d) b ∧ price z ≠ order_price d).

(** What every reachable book satisfies: its levels are sorted and, for
    [OrderBookMap], node identities are consistent with the cached iterators. *)
Definition reachable_inv (s : Strategy) : book_state s → Prop :=
  match s with
  | StdMap => map_inv
  | _ => wf (bid_comp_of s) (ask_comp_of s)
  end.

(** What a book reached by operations with positive volumes satisfies. *)
Definition positive_inv (s : Strategy) (b : book_state s) : Prop :=
  reachable_inv s b ∧ consistent (view s b) ∧ levels_positive (view s b) ∧
  match s return book_state s → Prop with
  | StdMap => iterators_valid
  | _ => λ _, True
  end b.

(** ** The load generator *)

(** The numbers of a [Draw] lie in the ranges of their distributions. *)
Definition draw_in_range (d : Draw) : Prop :=
  0 ≤ op_draw d ≤ 2 ∧ 0 ≤ side_draw d ≤ 2 ∧
  10 ≤ price_draw d ≤ 200 ∧ 10 ≤ volume_draw d ≤ 100 ∧
  ∀ n, (0 < n)%nat → (idx_draw d n < n)%nat.

(** The registry that an operation leaves when it goes through. *)
Definition registry_after (op : Op) (orders : gmap N OrderDetails) : gmap N OrderDetails :=
  match op with
  | Add orderId s p vol => <[orderId := mkDetails s p vol]> orders
  | Modify orderId newVolume =>
      match orders !! orderId with
      | Some d => <[orderId := mkDetails (side d) (order_price d) newVolume]> orders
      | None => orders
      end
  | Delete orderId => delete orderId orders
  end.

(** An operation as [simulateMarket] issues them: [AddOrder] with an
    unregistered id, [ModifyOrder] and [DeleteOrder] with a registered one,
    prices and volumes within the ranges of [price_dist] and [volume_dist]. *)
Definition generated (op : Op) (orders : gmap N OrderDetails) : Prop :=
  match op with
  | Add orderId _ p vol => orders !! orderId = None ∧ 10 ≤ p ≤ 200 ∧ 10 ≤ vol ≤ 100
  | Modify orderId newVolume => is_Some (orders !! orderId) ∧ 10 ≤ newVolume ≤ 100
  | Delete orderId => is_Some (orders !! orderId)
  end.

(** Every registered order has a price and a volume that the generator draws. *)
Definition orders_in_range (orders : gmap N OrderDetails) : Prop :=
  ∀ orderId d, orders !! orderId = Some d →
    10 ≤ order_price d ≤ 200 ∧ 10 ≤ originalVolume d ≤ 100.

(** The state of [simulateMarket] after [k] iterations on strategy [s], the
    measurement having held [n0] durations at the start. *)
Definition sim_inv (s : Strategy) (n0 k : nat) (st : Sim (book_state s)) : Prop :=
  positive_inv s (orderBook st) ∧
  orders_in_range (registry s (orderBook st)) ∧
  (size (registry s (orderBook st)) ≤ k)%nat ∧
  NoDup (activeOrders st) ∧
  (∀ orderId, orderId ∈ activeOrders st ↔ is_Some (registry s (orderBook st) !! orderId)) ∧
  (∀ orderId, orderId ∈ activeOrders st → (orderId < next_id st)%N) ∧
  (1 ≤ next_id st ≤ 1 + N.of_nat k)%N ∧
  length (latency st) = (n0 + k)%nat.

(** ** Operation sequences and books used as examples *)

(** Two orders share the bid level at 100; order 1 is modified to volume 0
    (the level keeps the 30 of order 2), order 2 is deleted (the level reaches
    0 and is erased, order 1 stays registered), then order 1 is deleted. *)
Definition c1_ops : list Op :=
  [Add 1 Bid 100 50; Add 2 Bid 100 30; Modify 1 0; Delete 2; Delete 1].

(** Order 1 (volume 50) shares the bid level at 100 (volume 80) with order 2. *)
Definition c6_ops : list Op := [Add 1 Bid 100 50; Add 2 Bid 100 30].

(** A book holding order 7 at the bid level 100. *)
Definition c10_book : VecBook :=
  mkVecBook [mkLevel 100 50] [] {[ 7%N := mkDetails Bid 100 50 ]}.

(** A sorted vector of prices. *)
Definition sample_prices : list Z := [10; 20; 30; 40; 50].

(** The [OrderBookMap] that [c6_ops] leaves. *)
Definition c6_map_book : OrderBookMap.t :=
  OrderBookMap.mk [OrderBookMap.mkNode 100 80 0] []
    {[ 1%N := OrderBookMap.mkMapDetails Bid 100 50 (Some 0%nat) None;
       2%N := OrderBookMap.mkMapDetails Bid 100 30 (Some 0%nat) None ]} 1.

(** A generator that always adds an order at price 10 with volume 10. *)
Definition gen_adds : nat → Draw := λ _, mkDraw 0 0 10 10 (λ _, 0%nat) 0.

(** A generator that goes through the three operations, both sides, several
    prices and volumes, and all positions of [activeOrders]. *)
Definition gen_mixed : nat → Draw := λ j,
  mkDraw (Z.of_nat (j mod 3)) (Z.of_nat (j mod 2)) (10 + Z.of_nat (j mod 5))
    (10 + Z.of_nat (j mod 7)) (λ n, (j mod n)%nat) (Z.of_nat j).

(** The vector-backed book that [c6_ops] leaves in the three books that read
    their best price at the back. *)
Definition c6_vector_book : VecBook :=
  mkVecBook [mkLevel 100 80] []
    {[ 1%N := mkDetails Bid 100 50; 2%N := mkDetails Bid 100 30 ]}.

(** * Properties of the books *)

(** ** Correctness of the two binary searches *)

Section SearchCorrect.
Context {A : Type}.
Implicit Types (l : list A) (p : A → bool).

Lemma find_if_le (q : A → bool) l : (find_if q l ≤ length l)%nat.
Proof. induction l as [|x l IH]; simpl; [lia|]. destruct (q x); lia. Qed.

Lemma find_if_before (q : A → bool) l i x :
  (i < find_if q l)%nat → l !! i = Some x → q x = false.
Proof.
  revert i. induction l as [|y l IH]; intros i Hi Hx; simpl in *; [lia|].
  destruct (q y) eqn:Hq; [lia|].
  destruct i as [|i]; simpl in Hx; [by simplify_eq|].
  apply (IH i); [lia|done].
Qed.

Lemma find_if_at (q : A → bool) l x :
  l !! find_if q l = Some x → q x = true.
Proof.
  induction l as [|y l IH]; simpl; [done|].
  destruct (q y) eqn:Hq; simpl; [by intros [= <-]|done].
Qed.

(** Past the partition point nothing satisfies [p]. *)
Lemma partitioned_after p l i x :
  partitioned p l → (find_if (λ y, negb (p y)) l ≤ i)%nat → l !! i = Some x → p x = false.
Proof.
  intros Hpart Hi Hx.
  destruct (p x) eqn:Hp; [|done].
  assert (is_Some (l !! find_if (λ y, negb (p y)) l)) as [z Hz].
  { apply lookup_lt_is_Some. apply lookup_lt_Some in Hx. lia. }
  pose proof (find_if_at _ _ _ Hz) as Hnz. simpl in Hnz.
  rewrite (Hpart _ _ _ _ Hi Hz Hx Hp) in Hnz. done.
Qed.

Lemma partitioned_before p l i x :
  (i < find_if (λ y, negb (p y)) l)%nat → l !! i = Some x → p x = true.
Proof.
  intros Hi Hx. pose proof (find_if_before _ _ _ _ Hi Hx) as H. simpl in H.
  by destruct (p x).
Qed.

Lemma comp_at_before (comp : A → A → bool) l v i :
  (i < find_if (λ y, negb (comp y v)) l)%nat → comp_at comp l i v = true.
Proof.
  intros Hi. unfold comp_at.
  destruct (l !! i) as [x|] eqn:Hx.
  - by apply (partitioned_before (λ y, comp y v) l i x).
  - apply lookup_ge_None in Hx. pose proof (find_if_le (λ y, negb (comp y v)) l). lia.
Qed.

Lemma comp_at_after (comp : A → A → bool) l v i :
  partitioned (λ y, comp y v) l →
  (find_if (λ y, negb (comp y v)) l ≤ i)%nat → comp_at comp l i v = false.
Proof.
  intros Hpart Hi. unfold comp_at.
  destruct (l !! i) as [x|] eqn:Hx; [|done].
  by apply (partitioned_after (λ y, comp y v) l i x).
Qed.

Lemma lower_bound_loop_spec (comp : A → A → bool) l v fuel first len :
  partitioned (λ y, comp y v) l →
  (len ≤ fuel)%nat →
  (first ≤ find_if (λ y, negb (comp y v)) l ≤ first + len)%nat →
  lower_bound_loop fuel comp l v first len = find_if (λ y, negb (comp y v)) l.
Proof.
  intros Hpart. revert first len.
  induction fuel as [|fuel IH]; intros first len Hfuel Hk; cbn [lower_bound_loop].
  - lia.
  - destruct (Nat.eqb_spec len 0) as [->|Hlen]; [lia|].
    pose proof (Nat.Div0.div_lt_upper_bound len 2 len ltac:(lia)) as Hhalf.
    destruct (comp_at comp l (first + len / 2) v) eqn:Hc.
    + apply IH; [lia|].
      destruct (decide (find_if (λ y, negb (comp y v)) l ≤ first + len / 2)%nat) as [Hle|Hgt].
      * rewrite comp_at_after in Hc; done.
      * lia.
    + apply IH; [lia|].
      destruct (decide (first + len / 2 < find_if (λ y, negb (comp y v)) l)%nat) as [Hlt|Hge].
      * rewrite comp_at_before in Hc; done.
      * lia.
Qed.

Lemma lower_bound_spec (comp : A → A → bool) l v :
  partitioned (λ y, comp y v) l →
  lower_bound comp l v = find_if (λ y, negb (comp y v)) l.
Proof.
  intros Hpart. apply lower_bound_loop_spec; [done|lia|].
  pose proof (find_if_le (λ y, negb (comp y v)) l). lia.
Qed.

Lemma branchless_loop_spec (comp : A → A → bool) l v fuel first len :
  partitioned (λ y, comp y v) l →
  (len ≤ fuel)%nat →
  (first ≤ find_if (λ y, negb (comp y v)) l ≤ first + len)%nat →
  branchless_loop fuel comp l v first len = find_if (λ y, negb (comp y v)) l.
Proof.
  intros Hpart. revert first len.
  induction fuel as [|fuel IH]; intros first len Hfuel Hk; cbn [branchless_loop].
  - lia.
  - destruct (Nat.eqb_spec len 0) as [->|Hlen]; [lia|].
    pose proof (Nat.Div0.div_lt_upper_bound len 2 len ltac:(lia)) as Hhalf.
    pose proof (Nat.div_mod_eq len 2) as Hdm.
    pose proof (Nat.mod_upper_bound len 2 ltac:(lia)) as Hmod.
    destruct (comp_at comp l (first + len / 2) v) eqn:Hc; cbn [Nat.b2n].
    + apply IH; [lia|].
      destruct (decide (find_if (λ y, negb (comp y v)) l ≤ first + len / 2)%nat) as [Hle|Hgt].
      * rewrite comp_at_after in Hc; done.
      * lia.
    + apply IH; [lia|].
      destruct (decide (first + len / 2 < find_if (λ y, negb (comp y v)) l)%nat) as [Hlt|Hge].
      * rewrite comp_at_before in Hc; done.
      * lia.
Qed.

Lemma branchless_lower_bound_spec (comp : A → A → bool) l v :
  partitioned (λ y, comp y v) l →
  branchless_lower_bound comp l v = find_if (λ y, negb (comp y v)) l.
Proof.
  intros Hpart. apply branchless_loop_spec; [done|lia|].
  pose proof (find_if_le (λ y, negb (comp y v)) l). lia.
Qed.
End SearchCorrect.

Section VectorFacts.
Context {A : Type}.
Implicit Types (l : list A) (x y z : A).

Lemma elem_of_vector_insert l i x z :
  z ∈ vector_insert i x l ↔ z = x ∨ z ∈ l.
Proof.
  unfold vector_insert. rewrite elem_of_app, elem_of_cons.
  assert (z ∈ l ↔ z ∈ take i l ∨ z ∈ drop i l) as ->; [|tauto].
  by rewrite <- elem_of_app, take_drop.
Qed.

Lemma fmap_vector_insert {B} (f : A → B) l i x :
  f <$> vector_insert i x l = vector_insert i (f x) (f <$> l).
Proof. unfold vector_insert. by rewrite fmap_app, fmap_cons, fmap_take, fmap_drop. Qed.

Lemma lookup_middle_split l i y :
  l !! i = Some y → ∃ l1 l2, l = l1 ++ y :: l2 ∧ i = length l1.
Proof. apply list_elem_of_split_length. Qed.

(** [find_if] sees through a projection. *)
Lemma find_if_fmap {B} (f : A → B) (q : B → bool) l :
  find_if q (f <$> l) = find_if (λ x, q (f x)) l.
Proof. induction l as [|x l IH]; csimpl; [done|]. by rewrite IH. Qed.

Lemma find_if_ext (q1 q2 : A → bool) l :
  (∀ x, q1 x = q2 x) → find_if q1 l = find_if q2 l.
Proof. intros H. induction l as [|x l IH]; simpl; [done|]. by rewrite H, IH. Qed.

(** The first element with a given key sits where its key is unique. *)
Lemma find_if_unique (q : A → bool) l i y :
  l !! i = Some y → q y = true → (∀ z, z ∈ l → q z = true → z = y) →
  NoDup l → find_if q l = i.
Proof.
  revert i. induction l as [|x l IH]; intros i Hi Hq Huniq Hnd; [done|].
  apply NoDup_cons in Hnd as [Hx Hnd]. simpl.
  destruct i as [|i]; simpl in Hi.
  - simplify_eq. by rewrite Hq.
  - destruct (q x) eqn:Hqx.
    + exfalso. apply Hx. rewrite (Huniq x); [|left|done].
      by eapply list_elem_of_lookup_2.
    + f_equal. apply IH; [done|done| |done].
      intros z Hz. apply Huniq. by right.
Qed.

Lemma find_if_none (q : A → bool) l :
  (∀ z, z ∈ l → q z = false) → l !! find_if q l = None.
Proof.
  induction l as [|x l IH]; intros H; simpl; [done|].
  rewrite (H x) by left. simpl. apply IH. intros z Hz. apply H. by right.
Qed.
End VectorFacts.

(** ** Vectors whose elements have pairwise distinct keys *)

Section Keyed.
Context {A K : Type} (key : A → K).
Implicit Types (l : list A) (x y z : A).

Lemma NoDup_keys_middle l1 l2 y z :
  NoDup (key <$> (l1 ++ y :: l2)) → z ∈ l1 ++ l2 → key z ≠ key y.
Proof.
  rewrite fmap_app, fmap_cons. intros Hnd Hz Heq.
  apply NoDup_app in Hnd as (_ & Hdisj & Hnd2).
  apply NoDup_cons in Hnd2 as [Hy _].
  apply elem_of_app in Hz as [Hz|Hz].
  - apply (Hdisj (key y)); [rewrite <- Heq; by apply list_elem_of_fmap_2|left].
  - apply Hy. rewrite <- Heq. by apply list_elem_of_fmap_2.
Qed.

Lemma elem_of_insert_keyed l i y x z :
  l !! i = Some y → NoDup (key <$> l) → key x = key y →
  z ∈ <[i := x]> l ↔ z = x ∨ (z ∈ l ∧ key z ≠ key y).
Proof.
  intros Hi Hnd Hk.
  destruct (lookup_middle_split _ _ _ Hi) as (l1 & l2 & -> & ->).
  replace (length l1) with (length l1 + 0)%nat by lia.
  rewrite insert_app_r. simpl.
  rewrite !elem_of_app, !elem_of_cons. split.
  - intros [Hz|[->|Hz]]; [right|by left|right].
    + split; [tauto|]. eapply NoDup_keys_middle; [done|]. apply elem_of_app; tauto.
    + split; [tauto|]. eapply NoDup_keys_middle; [done|]. apply elem_of_app; tauto.
  - intros [->|[[Hz|[->|Hz]] Hne]]; tauto.
Qed.

Lemma elem_of_erase_keyed l i y z :
  l !! i = Some y → NoDup (key <$> l) →
  z ∈ vector_erase i l ↔ z ∈ l ∧ key z ≠ key y.
Proof.
  intros Hi Hnd. unfold vector_erase.
  destruct (lookup_middle_split _ _ _ Hi) as (l1 & l2 & -> & ->).
  rewrite delete_middle. split.
  - intros Hz. split; [|by eapply NoDup_keys_middle].
    apply elem_of_app in Hz. rewrite elem_of_app, elem_of_cons. tauto.
  - intros [Hz Hne]. rewrite elem_of_app, elem_of_cons in Hz.
    apply elem_of_app. destruct Hz as [Hz|[->|Hz]]; tauto.
Qed.

Lemma keys_insert_same l i y x :
  l !! i = Some y → key x = key y → key <$> <[i := x]> l = key <$> l.
Proof.
  intros Hi Hk. rewrite list_fmap_insert, Hk.
  apply list_insert_id. by rewrite list_lookup_fmap, Hi.
Qed.

Lemma NoDup_keys_erase l i :
  NoDup (key <$> l) → NoDup (key <$> vector_erase i l).
Proof.
  unfold vector_erase. rewrite list_fmap_delete. intros Hnd.
  eapply sublist_NoDup; [done|]. apply sublist_delete.
Qed.

Lemma NoDup_keys_vector_insert l i x :
  NoDup (key <$> l) → (∀ z, z ∈ l → key z ≠ key x) →
  NoDup (key <$> vector_insert i x l).
Proof.
  intros Hnd Hx. rewrite fmap_vector_insert. unfold vector_insert.
  rewrite <- (take_drop i (key <$> l)) in Hnd.
  apply NoDup_app in Hnd as (Hnd1 & Hdisj & Hnd2).
  apply NoDup_app. split_and!; [done| |].
  - intros k Hk1 Hk2. apply elem_of_cons in Hk2 as [->|Hk2]; [|by eapply Hdisj].
    apply elem_of_take in Hk1 as (j & Hj & _).
    apply list_lookup_fmap_Some in Hj as (z & Hz & ?).
    apply (Hx z); [by eapply list_elem_of_lookup_2|done].
  - apply NoDup_cons. split; [|done].
    intros Hk. apply list_elem_of_lookup in Hk as (j & Hj).
    rewrite lookup_drop in Hj.
    apply list_lookup_fmap_Some in Hj as (z & Hz & ?).
    apply (Hx z); [by eapply list_elem_of_lookup_2|done].
Qed.
End Keyed.

(** ** Comparators and sorted vectors *)

Global Instance less_comparator : Comparator less.
Proof. split; unfold less; intros; lia. Qed.

Global Instance greater_comparator : Comparator greater.
Proof. split; unfold greater; intros; lia. Qed.

Section SortedPrices.
Context (comp : Z → Z → bool) `{!Comparator comp}.
Implicit Types (ps : list Z) (p q : Z).

Lemma sorted_prices_lookup ps i j p q :
  sorted_prices comp ps → (i < j)%nat → ps !! i = Some p → ps !! j = Some q →
  comp p q = true.
Proof.
  intros Hs. revert i j. induction Hs as [|a ps Hs IH Ha]; intros i j Hij Hi Hj; [done|].
  destruct j as [|j]; [lia|]. simpl in Hj.
  destruct i as [|i]; simpl in Hi.
  - simplify_eq. rewrite Forall_forall in Ha. apply Ha. by eapply list_elem_of_lookup_2.
  - apply (IH i j); [lia|done|done].
Qed.

Lemma sorted_prices_NoDup ps : sorted_prices comp ps → NoDup ps.
Proof.
  induction 1 as [|a ps Hs IH Ha]; [constructor|].
  apply NoDup_cons. split; [|done].
  intros Hin. rewrite Forall_forall in Ha. specialize (Ha a Hin).
  by rewrite comp_irrefl in Ha.
Qed.

Lemma sorted_prices_erase ps i :
  sorted_prices comp ps → sorted_prices comp (vector_erase i ps).
Proof.
  intros Hs. revert i. induction Hs as [|a ps Hs IH Ha]; intros i;
    [destruct i; constructor|].
  destruct i as [|i]; simpl; [done|].
  constructor; [apply IH|]. by apply Forall_delete.
Qed.

(** A price already present is found by the partition-point search. *)
Lemma locate_index ps i p :
  sorted_prices comp ps → ps !! i = Some p →
  find_if (λ q, negb (comp q p)) ps = i.
Proof.
  intros Hs. revert i. induction Hs as [|a ps Hs IH Ha]; intros i Hi; [done|].
  simpl. destruct i as [|i]; simpl in Hi.
  - simplify_eq. by rewrite comp_irrefl.
  - rewrite Forall_forall in Ha. rewrite Ha by (by eapply list_elem_of_lookup_2).
    simpl. f_equal. by apply IH.
Qed.

(** Inserting an absent price at the partition point keeps the order. *)
Lemma locate_insert_sorted ps p :
  sorted_prices comp ps → p ∉ ps →
  sorted_prices comp (vector_insert (find_if (λ q, negb (comp q p)) ps) p ps).
Proof.
  intros Hs. induction Hs as [|a ps Hs IH Ha]; intros Hp.
  - unfold vector_insert. simpl. repeat constructor.
  - apply not_elem_of_cons in Hp as [Hne Hp]. simpl.
    destruct (comp a p) eqn:Hc; simpl.
    + unfold vector_insert. simpl. constructor; [by apply IH|].
      apply Forall_app. split; [by apply Forall_take|].
      constructor; [done|by apply Forall_drop].
    + unfold vector_insert. simpl.
      assert (comp p a = true) as Hpa.
      { destruct (comp p a) eqn:Hpa; [done|]. destruct Hne. by apply comp_total. }
      constructor; [by constructor|].
      constructor; [done|].
      eapply Forall_impl; [exact Ha|]. simpl. intros q Hq. by eapply comp_trans.
Qed.

Lemma sorted_prices_partitioned ps p :
  sorted_prices comp ps → partitioned (λ q, comp q p) ps.
Proof.
  intros Hs i j x y Hij Hi Hj Hy.
  destruct (decide (i = j)) as [->|Hne]; [by simplify_eq|].
  eapply comp_trans; [|exact Hy].
  eapply (sorted_prices_lookup ps i j); [done|lia|done|done].
Qed.
End SortedPrices.

Section SortedLevels.
Context (comp : Z → Z → bool) `{!Comparator comp}.
Implicit Types (l : list PriceLevel) (lv : PriceLevel) (p : Z).

Local Abbreviation position := (position comp).

Lemma position_prices p l :
  position p l = find_if (λ q, negb (comp q p)) (price <$> l).
Proof. unfold position. by rewrite find_if_fmap. Qed.

Lemma sorted_NoDup_prices l : sorted comp l → NoDup (price <$> l).
Proof. apply sorted_prices_NoDup, _. Qed.

Lemma sorted_NoDup l : sorted comp l → NoDup l.
Proof. intros Hs. eapply NoDup_fmap_1. by apply sorted_NoDup_prices. Qed.

Lemma sorted_erase l i : sorted comp l → sorted comp (vector_erase i l).
Proof.
  unfold sorted, vector_erase. rewrite list_fmap_delete. by apply sorted_prices_erase.
Qed.

Lemma sorted_update l i lv v :
  sorted comp l → l !! i = Some lv → sorted comp (<[i := mkLevel (price lv) v]> l).
Proof. unfold sorted. intros Hs Hi. by rewrite (keys_insert_same price l i lv). Qed.

Lemma position_found l i lv :
  sorted comp l → l !! i = Some lv → position (price lv) l = i.
Proof.
  intros Hs Hi. rewrite position_prices. apply locate_index; [done..|].
  by rewrite list_lookup_fmap, Hi.
Qed.

(** When the search does not land on price [p], no level has price [p]. *)
Lemma position_absent l p :
  sorted comp l →
  (∀ lv, l !! position p l = Some lv → price lv ≠ p) →
  ∀ lv, lv ∈ l → price lv ≠ p.
Proof.
  intros Hs Hpos lv Hlv Heq.
  apply list_elem_of_lookup in Hlv as (i & Hi).
  pose proof (position_found l i lv Hs Hi) as Hp. rewrite Heq in Hp.
  apply (Hpos lv); [by rewrite Hp|done].
Qed.

Lemma sorted_vector_insert l p v :
  sorted comp l → (∀ lv, lv ∈ l → price lv ≠ p) →
  sorted comp (vector_insert (position p l) (mkLevel p v) l).
Proof.
  intros Hs Hp. unfold sorted. rewrite fmap_vector_insert, position_prices. simpl.
  apply locate_insert_sorted; [done..|].
  intros Hin. apply list_elem_of_fmap in Hin as (lv & -> & Hlv). by apply (Hp lv).
Qed.

Lemma sorted_partitioned l v :
  sorted comp l → partitioned (λ y, by_price comp y v) l.
Proof.
  intros Hs i j x y Hij Hi Hj Hy. unfold by_price in *.
  eapply (sorted_prices_partitioned comp (price <$> l) (price v) Hs i j);
    [done|by rewrite list_lookup_fmap, Hi|by rewrite list_lookup_fmap, Hj|done].
Qed.

(** Best price at the front: every other level compares after it. *)
Lemma sorted_front l lv x :
  sorted comp l → front l = Some lv → x ∈ l → x = lv ∨ comp (price lv) (price x) = true.
Proof.
  unfold front. destruct l as [|y l]; [done|]. simpl. intros Hs [= ->] Hx.
  apply elem_of_cons in Hx as [->|Hx]; [by left|right].
  apply StronglySorted_inv in Hs as [_ Ha]. rewrite Forall_forall in Ha.
  apply Ha. by apply list_elem_of_fmap_2.
Qed.

(** Best price at the back: every other level compares before it. *)
Lemma sorted_back l lv x :
  sorted comp l → back l = Some lv → x ∈ l → x = lv ∨ comp (price x) (price lv) = true.
Proof.
  unfold back. intros Hs Hlast Hx.
  apply last_Some in Hlast as [l' ->].
  apply elem_of_app in Hx as [Hx|Hx]; [right|left; by apply list_elem_of_singleton in Hx].
  unfold sorted, sorted_prices in Hs. rewrite fmap_app in Hs.
  eapply (StronglySorted_app_1_elem_of _ _ _ _ _ Hs).
  - by apply list_elem_of_fmap_2.
  - simpl. left.
Qed.
End SortedLevels.

(** ** The sorted-vector books, searched by partition point

    On a sorted vector both binary searches return the partition point, which
    is also what the linear scan of [OrderBookVectorLinear::AddOrderImpl]
    computes.  The properties of the vector-backed books are established once,
    for the book that searches by [partition_point]. *)

Lemma lower_bound_SearchSpec : SearchSpec lower_bound.
Proof. intros cmp l v Hp. by apply lower_bound_spec. Qed.

Lemma branchless_SearchSpec : SearchSpec branchless_lower_bound.
Proof. intros cmp l v Hp. by apply branchless_lower_bound_spec. Qed.

Lemma levels_of_store s' s l o b :
  levels_of s' (store s l o b) = if decide (s' = s) then l else levels_of s' b.
Proof. by destruct s, s'. Qed.

Lemma mOrders_store s l o b : mOrders (store s l o b) = o.
Proof. by destruct s. Qed.

Lemma checked_Ok z v : checked z = Ok v → v = z ∧ INT64_MIN ≤ z ≤ INT64_MAX.
Proof.
  unfold checked, in_int64. destruct (Z.leb_spec INT64_MIN z), (Z.leb_spec z INT64_MAX);
    simpl; intros [= <-]; lia.
Qed.

Lemma checked_in_range z : INT64_MIN ≤ z ≤ INT64_MAX → checked z = Ok z.
Proof.
  intros [H1 H2]. unfold checked, in_int64.
  apply Z.leb_le in H1, H2. by rewrite H1, H2.
Qed.

Lemma run_cons {B} (I : IOrderBook B) op ops b :
  run I (op :: ops) b = apply_op I op b ≫= run I ops.
Proof. done. Qed.

(** Inversion of a bind that succeeded. *)
Lemma bind_Ok {A B} (f : A → result B) (r : result A) (b : B) :
  r ≫= f = Ok b → ∃ a, r = Ok a ∧ f a = Ok b.
Proof. destruct r as [a|w]; simpl; [eauto|done]. Qed.

Section SortedBook.
Context (bid_comp ask_comp : Z → Z → bool) (best : list PriceLevel → option PriceLevel).
Context `{!Comparator bid_comp, !Comparator ask_comp}.

Local Abbreviation comp_of := (side_comp bid_comp ask_comp).
Local Abbreviation addOrder := (bs_AddOrder partition_point bid_comp ask_comp).
Local Abbreviation modifyOrder := (bs_ModifyOrder partition_point bid_comp ask_comp).
Local Abbreviation deleteOrder := (bs_DeleteOrder partition_point bid_comp ask_comp).

Global Instance comp_of_comparator s : Comparator (comp_of s).
Proof. destruct s; apply _. Qed.

Local Abbreviation wf := (wf bid_comp ask_comp).

Lemma wf_store s l o b : wf b → sorted (comp_of s) l → wf (store s l o b).
Proof.
  intros Hwf Hl s'. rewrite levels_of_store. case_decide; [by subst|apply Hwf].
Qed.

Lemma wf_empty : wf empty_book.
Proof. intros []; constructor. Qed.

(** The search of [AddOrderImpl], and what it found. *)
Lemma position_not_found s p l :
  sorted (comp_of s) l →
  match l !! position (comp_of s) p l with
  | Some lv => price lv ≠ p
  | None => True
  end →
  ∀ lv, lv ∈ l → price lv ≠ p.
Proof.
  intros Hs Hfound. apply (position_absent (comp_of s)); [done|].
  intros lv Hlv. by rewrite Hlv in Hfound.
Qed.

Lemma addOrder_Ok orderId s p vol b b' :
  wf b → addOrder orderId s p vol b = Ok b' →
  b' = b ∧ is_Some (mOrders b !! orderId) ∨
  mOrders b !! orderId = None ∧
  ∃ l', b' = store s l' (<[orderId := mkDetails s p vol]> (mOrders b)) b ∧
    ((∃ i lv, levels_of s b !! i = Some lv ∧ price lv = p ∧
              INT64_MIN ≤ volume lv + vol ≤ INT64_MAX ∧
              l' = <[i := mkLevel p (volume lv + vol)]> (levels_of s b)) ∨
     ((∀ lv, lv ∈ levels_of s b → price lv ≠ p) ∧
      l' = vector_insert (position (comp_of s) p (levels_of s b)) (mkLevel p vol)
             (levels_of s b))).
Proof.
  intros Hwf. unfold bs_AddOrder, bs_AddOrderImpl, emplace.
  destruct (mOrders b !! orderId) as [d|] eqn:Hid; [intros [= <-]; eauto|].
  intros Hok. right. split; [done|].
  change (partition_point (by_price (comp_of s)) (levels_of s b) (mkLevel p 0))
    with (position (comp_of s) p (levels_of s b)) in Hok.
  pose proof (position_not_found s p (levels_of s b) (Hwf s)) as Habsent.
  destruct (levels_of s b !! position (comp_of s) p (levels_of s b)) as [lv|] eqn:Hi.
  - destruct (Z.eqb_spec (price lv) p) as [Hp|Hp].
    + simpl in Hok. destruct (checked (volume lv + vol)) as [v|] eqn:Hv; [|done].
      simpl in Hok. injection Hok as <-. apply checked_Ok in Hv as [-> Hv].
      eexists. split; [done|]. left. exists (position (comp_of s) p (levels_of s b)), lv.
      by rewrite Hp.
    + simpl in Hok. injection Hok as <-. eexists. split; [done|]. right. auto.
  - simpl in Hok. injection Hok as <-. eexists. split; [done|]. right. auto.
Qed.

Lemma modifyOrder_Ok orderId newVolume b b' :
  wf b → modifyOrder orderId newVolume b = Ok b' →
  b' = b ∧ mOrders b !! orderId = None ∨
  ∃ d, mOrders b !! orderId = Some d ∧
    INT64_MIN ≤ newVolume - originalVolume d ≤ INT64_MAX ∧
    (b' = b ∧ (∀ lv, lv ∈ levels_of (side d) b → price lv ≠ order_price d) ∨
     ∃ i lv, levels_of (side d) b !! i = Some lv ∧ price lv = order_price d ∧
       let v := volume lv + (newVolume - originalVolume d) in
       INT64_MIN ≤ v ≤ INT64_MAX ∧
       (v ≤ 0 ∧
        b' = store (side d) (vector_erase i (levels_of (side d) b))
               (delete orderId (mOrders b)) b ∨
        0 < v ∧
        b' = store (side d) (<[i := mkLevel (order_price d) v]> (levels_of (side d) b))
               (<[orderId := mkDetails (side d) (order_price d) newVolume]> (mOrders b)) b)).
Proof.
  intros Hwf. unfold bs_ModifyOrder.
  destruct (mOrders b !! orderId) as [d|] eqn:Hid; [|intros [= <-]; eauto].
  intros Hok. right. exists d. split; [done|].
  apply bind_Ok in Hok as (diff & Hdiff & Hok).
  apply checked_Ok in Hdiff as [-> Hdiff]. split; [done|].
  change (partition_point (by_price (comp_of (side d))) (levels_of (side d) b)
            (mkLevel (order_price d) 0))
    with (position (comp_of (side d)) (order_price d) (levels_of (side d) b)) in Hok.
  pose proof (position_not_found (side d) (order_price d) _ (Hwf (side d))) as Habsent.
  destruct (levels_of (side d) b !! position _ _ _) as [lv|] eqn:Hi;
    [|injection Hok as <-; auto].
  destruct (Z.eqb_spec (price lv) (order_price d)) as [Hp|Hp];
    [|injection Hok as <-; auto].
  right. eexists _, lv. split; [done|]. split; [done|]. simpl.
  apply bind_Ok in Hok as (v & Hv & Hok). apply checked_Ok in Hv as [-> Hv].
  split; [done|]. rewrite Hp in Hok.
  destruct (Z.leb_spec (volume lv + (newVolume - originalVolume d)) 0);
    injection Hok as <-; auto.
Qed.

Lemma deleteOrder_Ok orderId b b' :
  wf b → deleteOrder orderId b = Ok b' →
  b' = b ∧ mOrders b !! orderId = None ∨
  ∃ d, mOrders b !! orderId = Some d ∧
    (b' = store (side d) (levels_of (side d) b) (delete orderId (mOrders b)) b ∧
     (∀ lv, lv ∈ levels_of (side d) b → price lv ≠ order_price d) ∨
     ∃ i lv, levels_of (side d) b !! i = Some lv ∧ price lv = order_price d ∧
       let v := volume lv - originalVolume d in
       INT64_MIN ≤ v ≤ INT64_MAX ∧
       (v ≤ 0 ∧
        b' = store (side d) (vector_erase i (levels_of (side d) b))
               (delete orderId (mOrders b)) b ∨
        0 < v ∧
        b' = store (side d) (<[i := mkLevel (order_price d) v]> (levels_of (side d) b))
               (delete orderId (mOrders b)) b)).
Proof.
  intros Hwf. unfold bs_DeleteOrder.
  destruct (mOrders b !! orderId) as [d|] eqn:Hid; [|intros [= <-]; eauto].
  intros Hok. right. exists d. split; [done|].
  change (partition_point (by_price (comp_of (side d))) (levels_of (side d) b)
            (mkLevel (order_price d) 0))
    with (position (comp_of (side d)) (order_price d) (levels_of (side d) b)) in Hok.
  pose proof (position_not_found (side d) (order_price d) _ (Hwf (side d))) as Habsent.
  destruct (levels_of (side d) b !! position _ _ _) as [lv|] eqn:Hi;
    [|injection Hok as <-; auto].
  destruct (Z.eqb_spec (price lv) (order_price d)) as [Hp|Hp];
    [|injection Hok as <-; auto].
  right. eexists _, lv. split; [done|]. split; [done|]. simpl.
  apply bind_Ok in Hok as (l' & Hl' & Hok). injection Hok as <-.
  apply bind_Ok in Hl' as (v & Hv & Hl'). apply checked_Ok in Hv as [-> Hv].
  split; [done|]. rewrite Hp in Hl'.
  destruct (Z.leb_spec (volume lv - originalVolume d) 0);
    injection Hl' as <-; auto.
Qed.

(** Sortedness is an invariant of the three operations. *)
Lemma addOrder_wf orderId s p vol b b' :
  wf b → addOrder orderId s p vol b = Ok b' → wf b'.
Proof.
  intros Hwf Hok.
  destruct (addOrder_Ok _ _ _ _ _ _ Hwf Hok)
    as [[-> _]|(_ & l' & -> & [(i & lv & Hi & Hp & _ & ->)|(Habs & ->)])]; [done|..].
  - apply wf_store; [done|]. rewrite <- Hp. by apply sorted_update.
  - apply wf_store; [done|]. apply sorted_vector_insert; [apply _|done..].
Qed.

Lemma modifyOrder_wf orderId newVolume b b' :
  wf b → modifyOrder orderId newVolume b = Ok b' → wf b'.
Proof.
  intros Hwf Hok.
  destruct (modifyOrder_Ok _ _ _ _ Hwf Hok)
    as [[-> _]|(d & _ & _ & [[-> _]|(i & lv & Hi & Hp & _ & [[_ ->]|[_ ->]])])]; [done..| |].
  - apply wf_store; [done|]. by apply sorted_erase.
  - apply wf_store; [done|]. rewrite <- Hp. by apply sorted_update.
Qed.

Lemma deleteOrder_wf orderId b b' :
  wf b → deleteOrder orderId b = Ok b' → wf b'.
Proof.
  intros Hwf Hok.
  destruct (deleteOrder_Ok _ _ _ Hwf Hok)
    as [[-> _]|(d & _ & [[-> _]|(i & lv & Hi & Hp & _ & [[_ ->]|[_ ->]])])]; [done|..].
  - by apply wf_store.
  - apply wf_store; [done|]. by apply sorted_erase.
  - apply wf_store; [done|]. rewrite <- Hp. by apply sorted_update.
Qed.

Local Abbreviation canonical := (bs_book partition_point bid_comp ask_comp best).

Lemma apply_op_wf op b b' : wf b → apply_op canonical op b = Ok b' → wf b'.
Proof.
  destruct op; simpl; eauto using addOrder_wf, modifyOrder_wf, deleteOrder_wf.
Qed.

(** Invariants of single operations are invariants of runs. *)
Lemma run_invariant (P : VecBook → Prop) (Q : Op → Prop) ops b b' :
  (∀ op b b', Q op → wf b → P b → apply_op canonical op b = Ok b' → P b') →
  Forall Q ops → wf b → P b → run canonical ops b = Ok b' → wf b' ∧ P b'.
Proof.
  intros Hstep Hops. revert b. induction Hops as [|op ops Hop Hops IH]; intros b Hwf HP.
  - by intros [= <-].
  - simpl. intros Hrun. apply bind_Ok in Hrun as (b1 & Hb1 & Hrun).
    apply (IH b1); [by eapply apply_op_wf|by eapply Hstep|done].
Qed.

Lemma run_wf ops b b' : wf b → run canonical ops b = Ok b' → wf b'.
Proof.
  intros Hwf Hrun.
  apply (run_invariant (λ _, True) (λ _, True) ops b b'); auto.
  apply Forall_true. done.
Qed.

(** *** Any correct search gives the same book *)

Section AnySearch.
Context (search : (PriceLevel → PriceLevel → bool) → list PriceLevel → PriceLevel → nat).
Context (Hsearch : SearchSpec search).

Lemma search_position s p l :
  sorted (comp_of s) l →
  search (by_price (comp_of s)) l (mkLevel p 0) = partition_point (by_price (comp_of s)) l (mkLevel p 0).
Proof. intros Hs. apply Hsearch. by apply sorted_partitioned; [apply _|]. Qed.

Lemma apply_op_any_search op b :
  wf b →
  apply_op (bs_book search bid_comp ask_comp best) op b = apply_op canonical op b.
Proof.
  intros Hwf. destruct op as [orderId s p vol|orderId newVolume|orderId]; simpl.
  - unfold bs_AddOrder, bs_AddOrderImpl.
    destruct (mOrders b !! orderId); [done|]. by rewrite search_position.
  - unfold bs_ModifyOrder.
    destruct (mOrders b !! orderId) as [d|]; [|done]. by rewrite search_position.
  - unfold bs_DeleteOrder.
    destruct (mOrders b !! orderId) as [d|]; [|done]. by rewrite search_position.
Qed.

Lemma run_any_search ops b :
  wf b →
  run (bs_book search bid_comp ask_comp best) ops b = run canonical ops b.
Proof.
  revert b. induction ops as [|op ops IH]; intros b Hwf; [done|].
  simpl. rewrite apply_op_any_search by done.
  destruct (apply_op canonical op b) as [b1|w] eqn:Hb1; [|done].
  simpl. apply IH. by eapply apply_op_wf.
Qed.
End AnySearch.
End SortedBook.

(** ** The volume of the live orders at one price *)

Lemma contribution_same d : contribution (side d) (order_price d) d = originalVolume d.
Proof. unfold contribution. by rewrite decide_True. Qed.

Lemma contribution_other s p d :
  side d ≠ s ∨ order_price d ≠ p → contribution s p d = 0.
Proof. intros H. unfold contribution. rewrite decide_False; [done|tauto]. Qed.

Lemma level_sum_empty s p : level_sum ∅ s p = 0.
Proof. unfold level_sum. by rewrite map_fold_empty. Qed.

Lemma level_sum_insert orders orderId d s p :
  orders !! orderId = None →
  level_sum (<[orderId := d]> orders) s p = level_sum orders s p + contribution s p d.
Proof.
  intros Hfresh. unfold level_sum.
  rewrite map_fold_insert_L; [done| |done]. intros. lia.
Qed.

Lemma level_sum_delete orders orderId d s p :
  orders !! orderId = Some d →
  level_sum orders s p = level_sum (delete orderId orders) s p + contribution s p d.
Proof.
  intros Hd. rewrite <- (insert_delete_id orders orderId d Hd) at 1.
  apply level_sum_insert. apply lookup_delete_eq.
Qed.

Lemma level_sum_replace orders orderId d d' s p :
  orders !! orderId = Some d →
  level_sum (<[orderId := d']> orders) s p =
  level_sum orders s p - contribution s p d + contribution s p d'.
Proof.
  intros Hd. rewrite <- insert_delete_eq.
  rewrite level_sum_insert by apply lookup_delete_eq.
  rewrite (level_sum_delete orders orderId d s p Hd). lia.
Qed.

Lemma orders_positive_delete orders orderId :
  orders_positive orders → orders_positive (delete orderId orders).
Proof.
  intros H id d Hd. apply lookup_delete_Some in Hd as [_ Hd]. by eapply H.
Qed.

Lemma orders_positive_insert orders orderId d :
  orders_positive orders → 0 < originalVolume d →
  orders_positive (<[orderId := d]> orders).
Proof.
  intros H Hpos id d' Hd'. apply lookup_insert_Some in Hd' as [[_ <-]|[_ Hd']]; [done|].
  by eapply H.
Qed.

Lemma level_sum_nonneg orders s p : orders_positive orders → 0 ≤ level_sum orders s p.
Proof.
  unfold level_sum.
  apply (map_fold_weak_ind (λ r m, orders_positive m → 0 ≤ r)); [done|].
  intros id d m r Hfresh IH Hpos.
  assert (0 ≤ r) as Hr.
  { apply IH. intros id' d' Hd'. apply (Hpos id' d').
    rewrite lookup_insert_ne; [done|]. intros ->. congruence. }
  assert (0 < originalVolume d) as Hd by (apply (Hpos id); apply lookup_insert_eq).
  unfold contribution. case_decide; lia.
Qed.

(** A registered order with positive volume makes its level's sum positive. *)
Lemma level_sum_ge orders orderId d :
  orders_positive orders → orders !! orderId = Some d →
  originalVolume d ≤ level_sum orders (side d) (order_price d).
Proof.
  intros Hpos Hd.
  rewrite (level_sum_delete orders orderId d _ _ Hd), contribution_same.
  pose proof (level_sum_nonneg (delete orderId orders) (side d) (order_price d)
                (orders_positive_delete _ _ Hpos)). lia.
Qed.

Lemma level_sum_absent orders s p :
  (∀ orderId d, orders !! orderId = Some d → side d ≠ s ∨ order_price d ≠ p) →
  level_sum orders s p = 0.
Proof.
  unfold level_sum.
  apply (map_fold_weak_ind
           (λ r m, (∀ id d, m !! id = Some d → side d ≠ s ∨ order_price d ≠ p) → r = 0));
    [done|].
  intros id d m r Hfresh IH Habs.
  rewrite IH.
  - rewrite contribution_other; [done|]. apply (Habs id). apply lookup_insert_eq.
  - intros id' d' Hd'. apply (Habs id'). rewrite lookup_insert_ne; [done|].
    intros ->. congruence.
Qed.

(** ** Invariants of the sorted-vector books *)

Section Invariants.
Context (bid_comp ask_comp : Z → Z → bool) (best : list PriceLevel → option PriceLevel).
Context `{!Comparator bid_comp, !Comparator ask_comp}.

Local Abbreviation comp_of := (side_comp bid_comp ask_comp).
Local Abbreviation wf := (wf bid_comp ask_comp).
Local Abbreviation canonical := (bs_book partition_point bid_comp ask_comp best).

Lemma elem_of_update s l i lv v z :
  sorted (comp_of s) l → l !! i = Some lv →
  z ∈ <[i := mkLevel (price lv) v]> l ↔ z = mkLevel (price lv) v ∨ (z ∈ l ∧ price z ≠ price lv).
Proof.
  intros Hs Hi. apply (elem_of_insert_keyed price); [done| |done].
  by apply (sorted_NoDup_prices (comp_of s)).
Qed.

Lemma elem_of_erase s l i lv z :
  sorted (comp_of s) l → l !! i = Some lv →
  z ∈ vector_erase i l ↔ z ∈ l ∧ price z ≠ price lv.
Proof.
  intros Hs Hi. apply (elem_of_erase_keyed price); [done|].
  by apply (sorted_NoDup_prices (comp_of s)).
Qed.

(** Membership in the vectors of a book after [store]. *)
Lemma elem_of_levels_store s' s l o b z :
  z ∈ levels_of s' (store s l o b) ↔ (s' = s ∧ z ∈ l) ∨ (s' ≠ s ∧ z ∈ levels_of s' b).
Proof. rewrite levels_of_store. destruct (decide (s' = s)); intuition congruence. Qed.

Lemma apply_op_levels_positive op b b' :
  add_positive op → wf b → levels_positive b →
  apply_op canonical op b = Ok b' → levels_positive b'.
Proof.
  intros Hop Hwf Hpos Hok. destruct op as [orderId s p vol|orderId newVolume|orderId]; simpl in *.
  - destruct (addOrder_Ok bid_comp ask_comp _ _ _ _ _ _ Hwf Hok)
      as [[-> _]|(_ & l' & -> & [(i & lv & Hi & Hp & _ & ->)|(Habs & ->)])]; [done|..];
      intros s' z Hz; apply elem_of_levels_store in Hz as [[-> Hz]|[_ Hz]]; eauto.
    + rewrite <- Hp in Hz. apply (elem_of_update s) in Hz as [->|[Hz _]]; eauto. simpl.
      assert (0 < volume lv) by (eapply Hpos, list_elem_of_lookup_2, Hi). lia.
    + apply elem_of_vector_insert in Hz as [->|Hz]; eauto.
  - destruct (modifyOrder_Ok bid_comp ask_comp _ _ _ _ Hwf Hok)
      as [[-> _]|(d & _ & _ & [[-> _]|(i & lv & Hi & Hp & _ & [[_ ->]|[Hv ->]])])]; [done..| |];
      intros s' z Hz; apply elem_of_levels_store in Hz as [[-> Hz]|[_ Hz]]; eauto.
    + apply (elem_of_erase (side d) _ _ lv) in Hz as [Hz _]; eauto.
    + rewrite <- Hp in Hz. apply (elem_of_update (side d)) in Hz as [->|[Hz _]]; eauto.
  - destruct (deleteOrder_Ok bid_comp ask_comp _ _ _ Hwf Hok)
      as [[-> _]|(d & _ & [[-> _]|(i & lv & Hi & Hp & _ & [[_ ->]|[Hv ->]])])]; [done|..];
      intros s' z Hz; apply elem_of_levels_store in Hz as [[-> Hz]|[_ Hz]]; eauto.
    + apply (elem_of_erase (side d) _ _ lv) in Hz as [Hz _]; eauto.
    + rewrite <- Hp in Hz. apply (elem_of_update (side d)) in Hz as [->|[Hz _]]; eauto.
Qed.

Lemma apply_op_orders_positive op b b' :
  volumes_positive op → wf b → orders_positive (mOrders b) →
  apply_op canonical op b = Ok b' → orders_positive (mOrders b').
Proof.
  intros Hop Hwf Hpos Hok. destruct op as [orderId s p vol|orderId newVolume|orderId]; simpl in *.
  - destruct (addOrder_Ok bid_comp ask_comp _ _ _ _ _ _ Hwf Hok) as [[-> _]|(_ & l' & -> & _)]; [done|].
    rewrite mOrders_store. by apply orders_positive_insert.
  - destruct (modifyOrder_Ok bid_comp ask_comp _ _ _ _ Hwf Hok)
      as [[-> _]|(d & _ & _ & [[-> _]|(i & lv & Hi & Hp & _ & [[_ ->]|[Hv ->]])])]; [done..| |];
      rewrite mOrders_store.
    + by apply orders_positive_delete.
    + by apply orders_positive_insert.
  - destruct (deleteOrder_Ok bid_comp ask_comp _ _ _ Hwf Hok)
      as [[-> _]|(d & _ & [[-> _]|(i & lv & Hi & Hp & _ & [[_ ->]|[Hv ->]])])]; [done|..];
      rewrite mOrders_store; by apply orders_positive_delete.
Qed.

Lemma contribution_at d s p :
  side d = s → order_price d = p → contribution s p d = originalVolume d.
Proof. intros <- <-. apply contribution_same. Qed.

Lemma addOrder_consistent orderId s p vol b b' :
  0 < vol → wf b → consistent b →
  bs_AddOrder partition_point bid_comp ask_comp orderId s p vol b = Ok b' → consistent b'.
Proof.
  intros Hvol Hwf (Hagg & Hlvl & Hpos) Hok.
  destruct (addOrder_Ok bid_comp ask_comp _ _ _ _ _ _ Hwf Hok)
    as [[-> _]|(Hfresh & l' & -> & [(i & lv & Hi & <- & _ & ->)|(Habs & ->)])]; [done|..].
  - split_and!.
    + intros s' z Hz. rewrite mOrders_store, level_sum_insert by done.
      apply elem_of_levels_store in Hz as [[-> Hz]|[Hne Hz]].
      * apply (elem_of_update s _ _ lv _ _ (Hwf s) Hi) in Hz as [->|[Hz Hpz]].
        -- simpl. rewrite (Hagg s lv) by (by eapply list_elem_of_lookup_2).
           by rewrite contribution_at.
        -- rewrite contribution_other by (right; simpl; congruence).
           rewrite (Hagg s z Hz). lia.
      * rewrite contribution_other by (left; simpl; congruence).
        rewrite (Hagg s' z Hz). lia.
    + intros id' d' Hd'. rewrite mOrders_store in Hd'.
      rewrite levels_of_store.
      apply lookup_insert_Some in Hd' as [[_ <-]|[_ Hd']]; simpl.
      * rewrite decide_True by done. rewrite (keys_insert_same price _ _ lv) by done.
        apply list_elem_of_fmap_2. by eapply list_elem_of_lookup_2.
      * case_decide as Hs; [|by eapply Hlvl].
        rewrite (keys_insert_same price _ _ lv) by done. rewrite <- Hs. by eapply Hlvl.
    + rewrite mOrders_store. by apply orders_positive_insert.
  - split_and!.
    + intros s' z Hz. rewrite mOrders_store, level_sum_insert by done.
      apply elem_of_levels_store in Hz as [[-> Hz]|[Hne Hz]].
      * apply elem_of_vector_insert in Hz as [->|Hz].
        -- simpl. rewrite contribution_at by done.
           rewrite level_sum_absent; [simpl; lia|].
           intros id' d' Hd'. destruct (decide (side d' = s)) as [<-|]; [right|by left].
           intros Hp. pose proof (Hlvl id' d' Hd') as Hin.
           apply list_elem_of_fmap in Hin as (lv & Hlv & Hin).
           apply (Habs lv Hin). congruence.
        -- rewrite contribution_other by (right; simpl; intros ->; by apply (Habs z)).
           rewrite (Hagg s z Hz). lia.
      * rewrite contribution_other by (left; simpl; congruence).
        rewrite (Hagg s' z Hz). lia.
    + intros id' d' Hd'. rewrite mOrders_store in Hd'.
      rewrite levels_of_store.
      apply lookup_insert_Some in Hd' as [[_ <-]|[_ Hd']]; simpl.
      * rewrite decide_True by done. rewrite fmap_vector_insert.
        apply elem_of_vector_insert. by left.
      * case_decide as Hs; [|by eapply Hlvl].
        rewrite fmap_vector_insert. apply elem_of_vector_insert. right.
        rewrite <- Hs. by eapply Hlvl.
    + rewrite mOrders_store. by apply orders_positive_insert.
Qed.

Lemma elem_of_prices_erase s l i lv q :
  sorted (comp_of s) l → l !! i = Some lv →
  q ∈ price <$> l → q ≠ price lv → q ∈ price <$> vector_erase i l.
Proof.
  intros Hs Hi Hq Hne. apply list_elem_of_fmap in Hq as (z & -> & Hz).
  apply list_elem_of_fmap_2. apply (elem_of_erase s _ _ lv); auto.
Qed.

Lemma modifyOrder_consistent orderId newVolume b b' :
  0 < newVolume → wf b → consistent b →
  bs_ModifyOrder partition_point bid_comp ask_comp orderId newVolume b = Ok b' →
  consistent b'.
Proof.
  intros Hvol Hwf (Hagg & Hlvl & Hpos) Hok.
  destruct (modifyOrder_Ok bid_comp ask_comp _ _ _ _ Hwf Hok)
    as [[-> _]|(d & Hd & _ & [[-> _]|(i & lv & Hi & Hp & _ & Hcase)])]; [done..|].
  assert (lv ∈ levels_of (side d) b) as Hlv by (by eapply list_elem_of_lookup_2).
  pose proof (Hagg _ _ Hlv) as Hsum. rewrite Hp in Hsum.
  pose proof (level_sum_ge _ _ _ Hpos Hd) as Hge.
  destruct Hcase as [[Hv ->]|[Hv ->]]; [lia|].
  set (d1 := mkDetails (side d) (order_price d) newVolume).
  split_and!.
  - intros s' z Hz. rewrite mOrders_store, (level_sum_replace _ _ d) by done.
    apply elem_of_levels_store in Hz as [[-> Hz]|[Hne Hz]].
    + rewrite <- Hp in Hz.
      apply (elem_of_update (side d) _ _ lv _ _ (Hwf (side d)) Hi) in Hz as [->|[Hz Hpz]].
      * simpl. rewrite Hp, contribution_same, (contribution_at d1) by done. simpl. lia.
      * rewrite !contribution_other by (right; simpl; congruence).
        rewrite (Hagg _ z Hz). lia.
    + rewrite !contribution_other by (left; simpl; congruence).
      rewrite (Hagg s' z Hz). lia.
  - intros id' d' Hd'. rewrite mOrders_store in Hd'. rewrite levels_of_store.
    assert (side d' = side d → order_price d' ∈ price <$> levels_of (side d) b) as Hin.
    { apply lookup_insert_Some in Hd' as [[_ <-]|[_ Hd']]; simpl.
      - intros _. by eapply Hlvl.
      - intros <-. by eapply Hlvl. }
    case_decide as Hs.
    + rewrite <- Hp, (keys_insert_same price _ _ lv) by done. auto.
    + apply lookup_insert_Some in Hd' as [[_ <-]|[_ Hd']]; [done|by eapply Hlvl].
  - rewrite mOrders_store. by apply orders_positive_insert.
Qed.

Lemma deleteOrder_consistent orderId b b' :
  wf b → consistent b →
  bs_DeleteOrder partition_point bid_comp ask_comp orderId b = Ok b' → consistent b'.
Proof.
  intros Hwf (Hagg & Hlvl & Hpos) Hok.
  destruct (deleteOrder_Ok bid_comp ask_comp _ _ _ Hwf Hok)
    as [[-> _]|(d & Hd & [[-> Habs]|(i & lv & Hi & Hp & _ & Hcase)])]; [done| |].
  { pose proof (Hlvl _ _ Hd) as Hin.
    apply list_elem_of_fmap in Hin as (lv & Hlv & Hin). by destruct (Habs lv Hin). }
  assert (lv ∈ levels_of (side d) b) as Hlv by (by eapply list_elem_of_lookup_2).
  pose proof (Hagg _ _ Hlv) as Hsum. rewrite Hp in Hsum.
  rewrite (level_sum_delete _ _ _ _ _ Hd), contribution_same in Hsum.
  pose proof (orders_positive_delete _ orderId Hpos) as Hpos'.
  assert (∀ s' z, z ∈ levels_of s' b → (s' = side d → price z ≠ order_price d) →
            volume z = level_sum (delete orderId (mOrders b)) s' (price z)) as Hframe.
  { intros s' z Hz Hne. rewrite (Hagg s' z Hz), (level_sum_delete _ _ _ _ _ Hd).
    rewrite contribution_other; [lia|].
    destruct (decide (side d = s')) as [<-|]; [right|by left]. intros Heq. by apply Hne. }
  destruct Hcase as [[Hv ->]|[Hv ->]].
  - split_and!.
    + intros s' z Hz. rewrite mOrders_store.
      apply elem_of_levels_store in Hz as [[-> Hz]|[Hne Hz]].
      * apply (elem_of_erase (side d) _ _ lv _ (Hwf (side d)) Hi) in Hz as [Hz Hpz].
        apply Hframe; [done|]. intros _. congruence.
      * apply Hframe; [done|]. intros ->. done.
    + intros id' d' Hd'. rewrite mOrders_store in Hd'. rewrite levels_of_store.
      apply lookup_delete_Some in Hd' as [Hne Hd'].
      case_decide as Hs; [|by eapply Hlvl].
      apply (elem_of_prices_erase (side d) _ _ lv); [apply Hwf|done| |].
      * rewrite <- Hs. by eapply Hlvl.
      * intros Heq. rewrite Hp in Heq.
        assert (delete orderId (mOrders b) !! id' = Some d') as Hd''
          by (by apply lookup_delete_Some).
        pose proof (level_sum_ge _ _ _ Hpos' Hd'') as Hge.
        pose proof (Hpos' _ _ Hd''). rewrite Hs, Heq in Hge. lia.
    + by rewrite mOrders_store.
  - split_and!.
    + intros s' z Hz. rewrite mOrders_store.
      apply elem_of_levels_store in Hz as [[-> Hz]|[Hne Hz]].
      * rewrite <- Hp in Hz.
        apply (elem_of_update (side d) _ _ lv _ _ (Hwf (side d)) Hi) in Hz as [->|[Hz Hpz]].
        -- simpl. rewrite Hp. lia.
        -- apply Hframe; [done|]. intros _. congruence.
      * apply Hframe; [done|]. intros ->. done.
    + intros id' d' Hd'. rewrite mOrders_store in Hd'. rewrite levels_of_store.
      apply lookup_delete_Some in Hd' as [Hne Hd'].
      case_decide as Hs; [|by eapply Hlvl].
      rewrite <- Hp, (keys_insert_same price _ _ lv) by done.
      rewrite <- Hs. by eapply Hlvl.
    + by rewrite mOrders_store.
Qed.

Lemma apply_op_consistent op b b' :
  volumes_positive op → wf b → consistent b →
  apply_op canonical op b = Ok b' → consistent b'.
Proof.
  destruct op; simpl;
    eauto using addOrder_consistent, modifyOrder_consistent, deleteOrder_consistent.
Qed.

Lemma consistent_empty : consistent empty_book.
Proof.
  split_and!.
  - intros [] lv Hlv; by apply elem_of_nil in Hlv.
  - intros id d Hd. simpl in Hd. by rewrite lookup_empty in Hd.
  - intros id d Hd. simpl in Hd. by rewrite lookup_empty in Hd.
Qed.

Lemma levels_positive_empty : levels_positive empty_book.
Proof. intros [] lv Hlv; by apply elem_of_nil in Hlv. Qed.
End Invariants.

(** ** [OrderBookVectorLinear] is a sorted-vector book *)

Lemma find_if_None_all {A} (q : A → bool) (l : list A) :
  l !! find_if q l = None → ∀ z, z ∈ l → q z = false.
Proof.
  induction l as [|x l IH]; intros Hnone z Hz; [by apply elem_of_nil in Hz|].
  simpl in Hnone. destruct (q x) eqn:Hq; [done|]. simpl in Hnone.
  apply elem_of_cons in Hz as [->|Hz]; [done|by apply IH].
Qed.

Section Linear.
Local Abbreviation canonical := (bs_book partition_point less greater back).
Local Abbreviation wf := (wf less greater).

(** On a sorted vector the scan for an equal price stops where the partition
    point is, or finds nothing when the partition point holds another price. *)
Lemma find_price_position s p l :
  sorted (side_comp less greater s) l →
  match l !! find_if (λ pl, price pl =? p) l with
  | Some lv =>
      price lv = p ∧
      position (side_comp less greater s) p l = find_if (λ pl, price pl =? p) l
  | None =>
      match l !! position (side_comp less greater s) p l with
      | Some lv => price lv ≠ p
      | None => True
      end
  end.
Proof.
  intros Hs. destruct (l !! find_if _ l) as [lv|] eqn:Hfind.
  - pose proof (find_if_at _ _ _ Hfind) as Hp. apply Z.eqb_eq in Hp.
    split; [done|]. subst p.
    by apply (position_found (side_comp less greater s)).
  - destruct (l !! position _ p l) as [lv|] eqn:Hpos; [|done].
    pose proof (find_if_None_all _ _ Hfind lv (list_elem_of_lookup_2 _ _ _ Hpos)) as Hne.
    by apply Z.eqb_neq in Hne.
Qed.

Lemma linear_apply_op op b :
  wf b → apply_op OrderBookVectorLinear.book op b = apply_op canonical op b.
Proof.
  intros Hwf. destruct op as [orderId s p vol|orderId newVolume|orderId]; simpl.
  - unfold OrderBookVectorLinear.AddOrder, bs_AddOrder.
    destruct (mOrders b !! orderId); [done|]. by destruct s.
  - unfold OrderBookVectorLinear.ModifyOrder, bs_ModifyOrder.
    destruct (mOrders b !! orderId) as [d|]; [|done].
    destruct (checked (newVolume - originalVolume d)) as [diff|]; [simpl|done].
    change (partition_point (by_price (side_comp less greater (side d)))
              (levels_of (side d) b) (mkLevel (order_price d) 0))
      with (position (side_comp less greater (side d)) (order_price d) (levels_of (side d) b)).
    pose proof (find_price_position (side d) (order_price d) _ (Hwf (side d))) as Hfind.
    destruct (levels_of (side d) b !! find_if _ _) as [lv|] eqn:Hlv.
    + destruct Hfind as [Hp ->]. rewrite Hlv. by rewrite (proj2 (Z.eqb_eq _ _) Hp).
    + destruct (levels_of (side d) b !! position _ _ _) as [lv|]; [|done].
      by rewrite (proj2 (Z.eqb_neq _ _) Hfind).
  - unfold OrderBookVectorLinear.DeleteOrder, bs_DeleteOrder.
    destruct (mOrders b !! orderId) as [d|]; [|done].
    change (partition_point (by_price (side_comp less greater (side d)))
              (levels_of (side d) b) (mkLevel (order_price d) 0))
      with (position (side_comp less greater (side d)) (order_price d) (levels_of (side d) b)).
    pose proof (find_price_position (side d) (order_price d) _ (Hwf (side d))) as Hfind.
    destruct (levels_of (side d) b !! find_if _ _) as [lv|] eqn:Hlv.
    + destruct Hfind as [Hp ->]. rewrite Hlv. by rewrite (proj2 (Z.eqb_eq _ _) Hp).
    + destruct (levels_of (side d) b !! position _ _ _) as [lv|]; [|done].
      by rewrite (proj2 (Z.eqb_neq _ _) Hfind).
Qed.

Lemma linear_run ops b :
  wf b → run OrderBookVectorLinear.book ops b = run canonical ops b.
Proof.
  revert b. induction ops as [|op ops IH]; intros b Hwf; [done|].
  rewrite !run_cons, linear_apply_op by done.
  destruct (apply_op canonical op b) as [b1|w] eqn:Hb1; [|done].
  simpl. apply IH. exact (apply_op_wf less greater back op b b1 Hwf Hb1).
Qed.
End Linear.

(** ** [OrderBookMap] is simulated by [OrderBookVector]

    As long as [OrderBookMap] does not use an erased iterator, each of its
    operations does to the in-order node sequences what [OrderBookVector]
    does to its vectors. *)

Section MapSimulation.
Local Abbreviation canonical := (bs_book partition_point greater less front).
Local Abbreviation wf := (wf greater less).

Lemma map_AddOrder_eq orderId s p vol m :
  OrderBookMap.AddOrder orderId s p vol m =
  match OrderBookMap.mOrders m !! orderId with
  | Some _ => Ok m
  | None =>
      '(nodes, it, fresh) ←
        OrderBookMap.add_level (map_comp s) p vol (OrderBookMap.next_addr m) (nodes_of s m);
      Ok (map_store s nodes
            (emplace orderId (new_details s p vol it) (OrderBookMap.mOrders m)) fresh m)
  end.
Proof.
  unfold OrderBookMap.AddOrder. destruct (OrderBookMap.mOrders m !! orderId); [done|].
  by destruct s.
Qed.

Lemma map_ModifyOrder_eq orderId newVolume m :
  OrderBookMap.ModifyOrder orderId newVolume m =
  match OrderBookMap.mOrders m !! orderId with
  | None => Ok m
  | Some d =>
      let s := OrderBookMap.side d in
      volumeDiff ← checked (newVolume - OrderBookMap.originalVolume d);
      '(i, n) ← OrderBookMap.deref (iterator_of s d) (nodes_of s m);
      v ← checked (OrderBookMap.second n + volumeDiff);
      if v <=? 0
      then Ok (map_store s (vector_erase i (nodes_of s m))
                 (delete orderId (OrderBookMap.mOrders m)) (OrderBookMap.next_addr m) m)
      else Ok (map_store s
                 (<[i := OrderBookMap.mkNode (OrderBookMap.first n) v (OrderBookMap.addr n)]>
                    (nodes_of s m))
                 (<[orderId := OrderBookMap.set_volume newVolume d]> (OrderBookMap.mOrders m))
                 (OrderBookMap.next_addr m) m)
  end.
Proof.
  unfold OrderBookMap.ModifyOrder. destruct (OrderBookMap.mOrders m !! orderId) as [d|]; [|done].
  by destruct (OrderBookMap.side d).
Qed.

Lemma map_DeleteOrder_eq orderId m :
  OrderBookMap.DeleteOrder orderId m =
  match OrderBookMap.mOrders m !! orderId with
  | None => Ok m
  | Some d =>
      let s := OrderBookMap.side d in
      '(i, n) ← OrderBookMap.deref (iterator_of s d) (nodes_of s m);
      v ← checked (OrderBookMap.second n - OrderBookMap.originalVolume d);
      Ok (map_store s
            (if v <=? 0 then vector_erase i (nodes_of s m)
             else <[i := OrderBookMap.mkNode (OrderBookMap.first n) v (OrderBookMap.addr n)]>
                    (nodes_of s m))
            (delete orderId (OrderBookMap.mOrders m)) (OrderBookMap.next_addr m) m)
  end.
Proof.
  unfold OrderBookMap.DeleteOrder. destruct (OrderBookMap.mOrders m !! orderId) as [d|]; [|done].
  by destruct (OrderBookMap.side d).
Qed.

Lemma levels_of_forget s m :
  levels_of s (forget m) = OrderBookMap.level_of_node <$> nodes_of s m.
Proof. by destruct s. Qed.

Lemma forget_map_store s nodes orders fresh m :
  forget (map_store s nodes orders fresh m) =
  store s (OrderBookMap.level_of_node <$> nodes) (OrderBookMap.details_of <$> orders) (forget m).
Proof. by destruct s. Qed.

Lemma nodes_of_map_store s' s nodes orders fresh m :
  nodes_of s' (map_store s nodes orders fresh m) =
  if decide (s' = s) then nodes else nodes_of s' m.
Proof. by destruct s, s'. Qed.

Lemma mOrders_map_store s nodes orders fresh m :
  OrderBookMap.mOrders (map_store s nodes orders fresh m) = orders.
Proof. by destruct s. Qed.

Lemma next_addr_map_store s nodes orders fresh m :
  OrderBookMap.next_addr (map_store s nodes orders fresh m) = fresh.
Proof. by destruct s. Qed.

Lemma deref_Ok it nodes i n :
  OrderBookMap.deref it nodes = Ok (i, n) →
  nodes !! i = Some n ∧ it = Some (OrderBookMap.addr n).
Proof.
  unfold OrderBookMap.deref. destruct it as [a|]; [|done].
  destruct (nodes !! find_if _ nodes) as [n'|] eqn:Hn; [|done].
  intros [= <- <-]. split; [done|].
  apply find_if_at in Hn. apply Nat.eqb_eq in Hn. by rewrite Hn.
Qed.

(** How a node sequence and a registry may change without breaking [map_wf]. *)
Lemma map_wf_store s nodes orders fresh m :
  map_wf m →
  NoDup (OrderBookMap.addr <$> nodes) →
  (OrderBookMap.next_addr m ≤ fresh)%nat →
  (∀ n, n ∈ nodes →
     (OrderBookMap.addr n < fresh)%nat ∧
     ((OrderBookMap.addr n < OrderBookMap.next_addr m)%nat →
      ∃ n0, n0 ∈ nodes_of s m ∧ OrderBookMap.addr n0 = OrderBookMap.addr n ∧
            OrderBookMap.first n0 = OrderBookMap.first n)) →
  (∀ orderId d, orders !! orderId = Some d →
     (∃ orderId0 d0, OrderBookMap.mOrders m !! orderId0 = Some d0 ∧
        OrderBookMap.side d0 = OrderBookMap.side d ∧
        OrderBookMap.price d0 = OrderBookMap.price d ∧
        iterator_of (OrderBookMap.side d) d0 = iterator_of (OrderBookMap.side d) d) ∨
     (OrderBookMap.side d = s ∧
      ∃ a, iterator_of s d = Some a ∧ (a < fresh)%nat ∧
        ∀ n, n ∈ nodes → OrderBookMap.addr n = a →
             OrderBookMap.first n = OrderBookMap.price d)) →
  map_wf (map_store s nodes orders fresh m).
Proof.
  intros (Hnd & Hlt & Hit) Hnd' Hfresh Hnodes Horders. split_and!.
  - intros s'. rewrite nodes_of_map_store. case_decide; [done|apply Hnd].
  - intros s' n. rewrite nodes_of_map_store, next_addr_map_store.
    case_decide; [intros Hn; by destruct (Hnodes n Hn)|]. intros ?%Hlt. lia.
  - intros orderId d a. rewrite mOrders_map_store, nodes_of_map_store, next_addr_map_store.
    intros Hd Ha.
    destruct (Horders _ _ Hd) as [(id0 & d0 & Hd0 & Hs0 & Hp0 & Hit0)|(Hs & a' & Ha' & Hlt' & Hn')].
    + rewrite <- Hit0, <- Hs0 in Ha. destruct (Hit _ _ _ Hd0 Ha) as [Hlta Hna].
      split; [lia|]. intros n Hn Han. rewrite <- Hp0.
      case_decide as Hs.
      * destruct (Hnodes n Hn) as [_ Hold].
        destruct Hold as (n0 & Hn0 & Haddr & Hfirst); [lia|].
        rewrite <- Hfirst. apply Hna; [by rewrite Hs0, Hs|congruence].
      * apply Hna; [by rewrite Hs0|done].
    + rewrite Hs in Ha. assert (a' = a) as -> by congruence.
      split; [done|]. rewrite decide_True by done. done.
Qed.

Lemma elem_of_insert_inv {A} (l : list A) i x z : z ∈ <[i := x]> l → z = x ∨ z ∈ l.
Proof.
  intros Hz. apply list_elem_of_lookup in Hz as (j & Hj).
  apply list_lookup_insert_Some in Hj as [(_ & -> & _)|[_ Hj]]; [by left|right].
  by eapply list_elem_of_lookup_2.
Qed.

Lemma lookup_vector_insert {A} (l : list A) i x :
  (i ≤ length l)%nat → vector_insert i x l !! i = Some x.
Proof.
  intros Hi. unfold vector_insert.
  rewrite lookup_app_r by (rewrite length_take; lia).
  rewrite length_take. by replace (i - i `min` length l)%nat with 0%nat by lia.
Qed.

(** Nodes of an updated or shortened sequence are nodes of the old one, up to
    their volume. *)
Lemma nodes_update_old (nodes : list OrderBookMap.Node) i n v z :
  nodes !! i = Some n →
  z ∈ <[i := OrderBookMap.mkNode (OrderBookMap.first n) v (OrderBookMap.addr n)]> nodes →
  ∃ n0, n0 ∈ nodes ∧ OrderBookMap.addr n0 = OrderBookMap.addr z ∧
        OrderBookMap.first n0 = OrderBookMap.first z.
Proof.
  intros Hi Hz. apply elem_of_insert_inv in Hz as [->|Hz]; [|by exists z].
  exists n. split; [by eapply list_elem_of_lookup_2|done].
Qed.

Lemma nodes_erase_old (nodes : list OrderBookMap.Node) i z :
  z ∈ vector_erase i nodes →
  ∃ n0, n0 ∈ nodes ∧ OrderBookMap.addr n0 = OrderBookMap.addr z ∧
        OrderBookMap.first n0 = OrderBookMap.first z.
Proof. intros Hz. exists z. split; [by eapply list_elem_of_delete_inv|done]. Qed.

(** The position at which [OrderBookVector] finds the level of a node. *)
Lemma position_of_node s m i n :
  wf (forget m) → nodes_of s m !! i = Some n →
  position (map_comp s) (OrderBookMap.first n) (levels_of s (forget m)) = i.
Proof.
  intros Hwf Hi.
  apply (position_found (map_comp s) _ i (OrderBookMap.level_of_node n)).
  - apply Hwf.
  - by rewrite levels_of_forget, list_lookup_fmap, Hi.
Qed.

Lemma map_wf_modified s nodes orders m :
  map_wf m →
  NoDup (OrderBookMap.addr <$> nodes) →
  (∀ z, z ∈ nodes →
     ∃ n0, n0 ∈ nodes_of s m ∧ OrderBookMap.addr n0 = OrderBookMap.addr z ∧
           OrderBookMap.first n0 = OrderBookMap.first z) →
  (∀ orderId d, orders !! orderId = Some d →
     ∃ orderId0 d0, OrderBookMap.mOrders m !! orderId0 = Some d0 ∧
        OrderBookMap.side d0 = OrderBookMap.side d ∧
        OrderBookMap.price d0 = OrderBookMap.price d ∧
        iterator_of (OrderBookMap.side d) d0 = iterator_of (OrderBookMap.side d) d) →
  map_wf (map_store s nodes orders (OrderBookMap.next_addr m) m).
Proof.
  intros Hm Hnd Hnodes Horders. apply map_wf_store; [done|done|lia| |].
  - intros z Hz. destruct (Hnodes z Hz) as (n0 & Hn0 & Haddr & Hfirst).
    split; [|by eauto]. rewrite <- Haddr. by eapply (proj1 (proj2 Hm)).
  - intros orderId d Hd. left. by apply (Horders orderId).
Qed.

Lemma map_ModifyOrder_sim orderId newVolume m m' :
  map_wf m → wf (forget m) →
  OrderBookMap.ModifyOrder orderId newVolume m = Ok m' →
  bs_ModifyOrder partition_point greater less orderId newVolume (forget m) = Ok (forget m') ∧
  map_wf m'.
Proof.
  intros Hm Hwf. rewrite map_ModifyOrder_eq. unfold bs_ModifyOrder.
  change (mOrders (forget m)) with (OrderBookMap.details_of <$> OrderBookMap.mOrders m).
  rewrite lookup_fmap.
  destruct (OrderBookMap.mOrders m !! orderId) as [d|] eqn:Hd; simpl; [|by intros [= <-]].
  intros Hok. apply bind_Ok in Hok as (diff & Hdiff & Hok). rewrite Hdiff. simpl.
  apply bind_Ok in Hok as ([i n] & Hderef & Hok).
  apply deref_Ok in Hderef as [Hi Hit].
  assert (n ∈ nodes_of (OrderBookMap.side d) m) as Hn by (by eapply list_elem_of_lookup_2).
  destruct Hm as (Hnd & Hlt & Hiter).
  destruct (Hiter _ _ _ Hd Hit) as [_ Hfirst]. specialize (Hfirst n Hn eq_refl).
  change (partition_point (by_price (side_comp greater less (OrderBookMap.side d)))
            (levels_of (OrderBookMap.side d) (forget m)) (mkLevel (OrderBookMap.price d) 0))
    with (position (map_comp (OrderBookMap.side d)) (OrderBookMap.price d)
            (levels_of (OrderBookMap.side d) (forget m))).
  rewrite <- Hfirst, (position_of_node _ _ _ _ Hwf Hi).
  rewrite levels_of_forget, list_lookup_fmap, Hi. simpl. rewrite Z.eqb_refl.
  apply bind_Ok in Hok as (v & Hv & Hok). rewrite Hv. simpl.
  assert (∀ orderId' d', delete orderId (OrderBookMap.mOrders m) !! orderId' = Some d' →
            ∃ orderId0 d0, OrderBookMap.mOrders m !! orderId0 = Some d0 ∧
              OrderBookMap.side d0 = OrderBookMap.side d' ∧
              OrderBookMap.price d0 = OrderBookMap.price d' ∧
              iterator_of (OrderBookMap.side d') d0 = iterator_of (OrderBookMap.side d') d')
    as Hdel.
  { intros id' d' Hd'. apply lookup_delete_Some in Hd' as [_ Hd']. by exists id', d'. }
  destruct (v <=? 0); injection Hok as <-.
  - split.
    + rewrite forget_map_store. unfold vector_erase.
      by rewrite list_fmap_delete, fmap_delete.
    + apply map_wf_modified; [done| | |done].
      * by apply NoDup_keys_erase.
      * intros z. apply nodes_erase_old.
  - split.
    + rewrite forget_map_store, list_fmap_insert, fmap_insert. by rewrite Hfirst.
    + apply map_wf_modified; [done| | |].
      * by rewrite (keys_insert_same OrderBookMap.addr _ _ n).
      * intros z. by apply nodes_update_old.
      * intros id' d' Hd'. apply lookup_insert_Some in Hd' as [[_ <-]|[_ Hd']].
        -- exists orderId, d. split; [done|]. by destruct d, side0.
        -- by exists id', d'.
Qed.

Lemma map_DeleteOrder_sim orderId m m' :
  map_wf m → wf (forget m) →
  OrderBookMap.DeleteOrder orderId m = Ok m' →
  bs_DeleteOrder partition_point greater less orderId (forget m) = Ok (forget m') ∧
  map_wf m'.
Proof.
  intros Hm Hwf. rewrite map_DeleteOrder_eq. unfold bs_DeleteOrder.
  change (mOrders (forget m)) with (OrderBookMap.details_of <$> OrderBookMap.mOrders m).
  rewrite lookup_fmap.
  destruct (OrderBookMap.mOrders m !! orderId) as [d|] eqn:Hd; simpl; [|by intros [= <-]].
  intros Hok. apply bind_Ok in Hok as ([i n] & Hderef & Hok).
  apply deref_Ok in Hderef as [Hi Hit].
  assert (n ∈ nodes_of (OrderBookMap.side d) m) as Hn by (by eapply list_elem_of_lookup_2).
  destruct Hm as (Hnd & Hlt & Hiter).
  destruct (Hiter _ _ _ Hd Hit) as [_ Hfirst]. specialize (Hfirst n Hn eq_refl).
  change (partition_point (by_price (side_comp greater less (OrderBookMap.side d)))
            (levels_of (OrderBookMap.side d) (forget m)) (mkLevel (OrderBookMap.price d) 0))
    with (position (map_comp (OrderBookMap.side d)) (OrderBookMap.price d)
            (levels_of (OrderBookMap.side d) (forget m))).
  rewrite <- Hfirst, (position_of_node _ _ _ _ Hwf Hi).
  rewrite levels_of_forget, list_lookup_fmap, Hi. simpl. rewrite Z.eqb_refl.
  apply bind_Ok in Hok as (v & Hv & Hok). rewrite Hv. simpl. injection Hok as <-.
  assert (∀ orderId' d', delete orderId (OrderBookMap.mOrders m) !! orderId' = Some d' →
            ∃ orderId0 d0, OrderBookMap.mOrders m !! orderId0 = Some d0 ∧
              OrderBookMap.side d0 = OrderBookMap.side d' ∧
              OrderBookMap.price d0 = OrderBookMap.price d' ∧
              iterator_of (OrderBookMap.side d') d0 = iterator_of (OrderBookMap.side d') d')
    as Hdel.
  { intros id' d' Hd'. apply lookup_delete_Some in Hd' as [_ Hd']. by exists id', d'. }
  destruct (v <=? 0); simpl.
  - split.
    + rewrite forget_map_store. unfold vector_erase.
      by rewrite list_fmap_delete, fmap_delete.
    + apply map_wf_modified; [done| | |done].
      * by apply NoDup_keys_erase.
      * intros z. apply nodes_erase_old.
  - split.
    + by rewrite forget_map_store, list_fmap_insert, fmap_delete.
    + apply map_wf_modified; [done| | |done].
      * by rewrite (keys_insert_same OrderBookMap.addr _ _ n).
      * intros z. by apply nodes_update_old.
Qed.

Lemma position_forget s p m :
  position (map_comp s) p (levels_of s (forget m)) =
  find_if (λ n, negb (map_comp s (OrderBookMap.first n) p)) (nodes_of s m).
Proof. rewrite levels_of_forget. unfold position. by rewrite find_if_fmap. Qed.

Lemma details_of_new_details s p vol it :
  OrderBookMap.details_of (new_details s p vol it) = mkDetails s p vol.
Proof. by destruct s. Qed.

Lemma new_details_facts s p vol it :
  OrderBookMap.side (new_details s p vol it) = s ∧
  OrderBookMap.price (new_details s p vol it) = p ∧
  iterator_of s (new_details s p vol it) = Some it.
Proof. by destruct s. Qed.

Lemma NoDup_addr_inj (nodes : list OrderBookMap.Node) x y :
  NoDup (OrderBookMap.addr <$> nodes) → x ∈ nodes → y ∈ nodes →
  OrderBookMap.addr x = OrderBookMap.addr y → x = y.
Proof.
  intros Hnd Hx Hy Heq.
  apply list_elem_of_lookup in Hx as (i & Hi). apply list_elem_of_lookup in Hy as (j & Hj).
  assert (i = j) as ->; [|congruence].
  eapply NoDup_lookup; [exact Hnd|..].
  - by rewrite list_lookup_fmap, Hi.
  - by rewrite list_lookup_fmap, Hj, Heq.
Qed.

Lemma map_wf_updated orderId s p vol m i n v :
  map_wf m → nodes_of s m !! i = Some n → OrderBookMap.first n = p →
  map_wf (map_store s
            (<[i := OrderBookMap.mkNode (OrderBookMap.first n) v (OrderBookMap.addr n)]>
               (nodes_of s m))
            (<[orderId := new_details s p vol (OrderBookMap.addr n)]> (OrderBookMap.mOrders m))
            (OrderBookMap.next_addr m) m).
Proof.
  intros Hm Hi Hp. pose proof Hm as (Hnd & Hlt & Hiter).
  assert (n ∈ nodes_of s m) as Hn by (by eapply list_elem_of_lookup_2).
  apply map_wf_store; [done| |lia| |].
  - by rewrite (keys_insert_same OrderBookMap.addr _ _ n).
  - intros z Hz. destruct (nodes_update_old _ _ _ _ _ Hi Hz) as (n0 & Hn0 & Haddr & Hfirst).
    split; [|by eauto]. rewrite <- Haddr. by eapply Hlt.
  - intros id' d' Hd'. apply lookup_insert_Some in Hd' as [[_ <-]|[_ Hd']]; [right|left; by exists id', d'].
    destruct (new_details_facts s p vol (OrderBookMap.addr n)) as (Hs & Hpr & Hit).
    split; [done|]. exists (OrderBookMap.addr n). split; [done|]. split; [by eapply Hlt|].
    intros z Hz Haddr. rewrite Hpr.
    apply elem_of_insert_inv in Hz as [->|Hz]; [done|].
    by rewrite (NoDup_addr_inj _ z n (Hnd s) Hz Hn Haddr).
Qed.

Lemma map_wf_inserted orderId s p vol m i :
  map_wf m →
  map_wf (map_store s
            (vector_insert i (OrderBookMap.mkNode p vol (OrderBookMap.next_addr m))
               (nodes_of s m))
            (<[orderId := new_details s p vol (OrderBookMap.next_addr m)]>
               (OrderBookMap.mOrders m))
            (S (OrderBookMap.next_addr m)) m).
Proof.
  intros Hm. pose proof Hm as (Hnd & Hlt & Hiter).
  apply map_wf_store; [done| |lia| |].
  - apply NoDup_keys_vector_insert; [done|].
    intros z Hz. apply Hlt in Hz. simpl. lia.
  - intros z Hz. apply elem_of_vector_insert in Hz as [->|Hz]; simpl.
    + split; lia.
    + split; [apply Hlt in Hz; lia|]. intros _. by exists z.
  - intros id' d' Hd'. apply lookup_insert_Some in Hd' as [[_ <-]|[_ Hd']]; [right|left; by exists id', d'].
    destruct (new_details_facts s p vol (OrderBookMap.next_addr m)) as (Hs & Hpr & Hit).
    split; [done|]. exists (OrderBookMap.next_addr m). split; [done|]. split; [lia|].
    intros z Hz Haddr. rewrite Hpr.
    apply elem_of_vector_insert in Hz as [->|Hz]; [done|].
    apply Hlt in Hz. lia.
Qed.

Lemma map_AddOrder_sim orderId s p vol m m' :
  map_wf m → wf (forget m) →
  OrderBookMap.AddOrder orderId s p vol m = Ok m' →
  bs_AddOrder partition_point greater less orderId s p vol (forget m) = Ok (forget m') ∧
  map_wf m'.
Proof.
  intros Hm Hwf. rewrite map_AddOrder_eq. unfold bs_AddOrder, bs_AddOrderImpl.
  change (mOrders (forget m)) with (OrderBookMap.details_of <$> OrderBookMap.mOrders m).
  rewrite lookup_fmap.
  destruct (OrderBookMap.mOrders m !! orderId) as [d|] eqn:Hd; simpl; [by intros [= <-]|].
  change (partition_point (by_price (side_comp greater less s)) (levels_of s (forget m))
            (mkLevel p 0))
    with (position (map_comp s) p (levels_of s (forget m))).
  rewrite position_forget, levels_of_forget, list_lookup_fmap.
  unfold OrderBookMap.add_level, OrderBookMap.try_emplace, emplace.
  rewrite lookup_fmap, Hd. simpl.
  set (i := find_if _ (nodes_of s m)).
  assert (i ≤ length (nodes_of s m))%nat as Hle by apply find_if_le.
  assert (∀ m1,
    (match vector_insert i (OrderBookMap.mkNode p vol (OrderBookMap.next_addr m))
             (nodes_of s m) !! i with
     | Some n =>
         Ok (vector_insert i (OrderBookMap.mkNode p vol (OrderBookMap.next_addr m))
               (nodes_of s m), OrderBookMap.addr n, S (OrderBookMap.next_addr m))
     | None => Undefined InvalidIterator
     end ≫= λ '(nodes, it, fresh),
       Ok (map_store s nodes
             (<[orderId := new_details s p vol it]> (OrderBookMap.mOrders m)) fresh m))
    = Ok m1 →
    Ok (store s
          (vector_insert i (mkLevel p vol) (OrderBookMap.level_of_node <$> nodes_of s m))
          (<[orderId := mkDetails s p vol]>
             (OrderBookMap.details_of <$> OrderBookMap.mOrders m)) (forget m))
    = Ok (forget m1) ∧ map_wf m1) as Hins.
  { intros m1. rewrite lookup_vector_insert by done. simpl. intros [= <-].
    split; [|by apply map_wf_inserted].
    by rewrite forget_map_store, fmap_vector_insert, fmap_insert, details_of_new_details. }
  destruct (nodes_of s m !! i) as [n|] eqn:Hi; simpl; [|by apply Hins].
  destruct (Z.eqb_spec (OrderBookMap.first n) p) as [Hp|Hp]; simpl; [|by apply Hins].
  rewrite Hi. intros Hok.
  apply bind_Ok in Hok as ([[nodes it] fresh] & Hok & Hm').
  apply bind_Ok in Hok as (v & Hv & Hok). rewrite Hv. simpl.
  injection Hok as <- <- <-. injection Hm' as <-.
  split; [|by apply map_wf_updated].
  by rewrite forget_map_store, list_fmap_insert, fmap_insert, details_of_new_details.
Qed.

Lemma map_inv_empty : map_inv OrderBookMap.empty.
Proof.
  split.
  - split_and!.
    + intros []; constructor.
    + intros [] n Hn; by apply elem_of_nil in Hn.
    + intros id d a Hd. simpl in Hd. by rewrite lookup_empty in Hd.
  - intros []; constructor.
Qed.

Lemma map_apply_op_sim op m m' :
  map_inv m → apply_op OrderBookMap.book op m = Ok m' →
  apply_op canonical op (forget m) = Ok (forget m') ∧ map_inv m'.
Proof.
  intros [Hm Hwf] Hok.
  assert (apply_op canonical op (forget m) = Ok (forget m') ∧ map_wf m') as [Hsim Hm'].
  { destruct op; simpl in *;
      eauto using map_AddOrder_sim, map_ModifyOrder_sim, map_DeleteOrder_sim. }
  split; [done|]. split; [done|].
  exact (apply_op_wf greater less front op _ _ Hwf Hsim).
Qed.

Lemma map_run_sim ops m m' :
  map_inv m → run OrderBookMap.book ops m = Ok m' →
  run canonical ops (forget m) = Ok (forget m') ∧ map_inv m'.
Proof.
  revert m. induction ops as [|op ops IH]; intros m Hm; [by intros [= <-]|].
  rewrite !run_cons. intros Hok. apply bind_Ok in Hok as (m1 & Hm1 & Hok).
  destruct (map_apply_op_sim _ _ _ Hm Hm1) as [-> Hm1']. simpl. by apply IH.
Qed.
End MapSimulation.

(** ** Every strategy is a sorted-vector book searched by partition point *)

Global Instance bid_comp_of_comparator s : Comparator (bid_comp_of s).
Proof. destruct s; apply _. Qed.

Global Instance ask_comp_of_comparator s : Comparator (ask_comp_of s).
Proof. destruct s; apply _. Qed.

Lemma levels_view s sd b : levels s sd b = levels_of sd (view s b).
Proof. destruct s; try done. by destruct sd. Qed.

Lemma registry_view s b : registry s b = mOrders (view s b).
Proof. by destruct s. Qed.

Lemma vec_empty_fmap {A B} (f : A → B) (l : list A) : vec_empty (f <$> l) = vec_empty l.
Proof. by destruct l. Qed.

Lemma best_prices_view s b :
  best_prices s b = @GetBestPrices _ (canonical_of s) (view s b).
Proof.
  destruct s; try done.
  unfold best_prices; simpl. unfold OrderBookMap.GetBestPrices, bs_GetBestPrices. simpl.
  rewrite !vec_empty_fmap.
  destruct (OrderBookMap.mBidLevels b) as [|nb bids], (OrderBookMap.mAskLevels b) as [|na asks];
    done.
Qed.

Lemma forget_empty : forget OrderBookMap.empty = empty_book.
Proof. unfold forget, empty_book. simpl. by rewrite fmap_empty. Qed.

(** A run of any strategy is a run of its canonical book. *)
Lemma after_view s ops b :
  after s ops = Ok b → run (canonical_of s) ops empty_book = Ok (view s b).
Proof.
  unfold after. destruct s; simpl.
  - intros Hrun. destruct (map_run_sim _ _ _ map_inv_empty Hrun) as [Hsim _].
    by rewrite forget_empty in Hsim.
  - rewrite (run_any_search greater less front lower_bound lower_bound_SearchSpec);
      [done|apply wf_empty].
  - rewrite (run_any_search less greater back lower_bound lower_bound_SearchSpec);
      [done|apply wf_empty].
  - rewrite (run_any_search less greater back branchless_lower_bound branchless_SearchSpec);
      [done|apply wf_empty].
  - rewrite linear_run; [done|apply wf_empty].
Qed.

Lemma after_wf s ops b :
  after s ops = Ok b → wf (bid_comp_of s) (ask_comp_of s) (view s b).
Proof.
  intros Hrun%after_view.
  eapply (run_wf (bid_comp_of s) (ask_comp_of s) (best_of s)); [|exact Hrun].
  apply wf_empty.
Qed.

Lemma after_invariant (P : VecBook → Prop) (Q : Op → Prop) s ops b :
  (∀ op b b', Q op → wf (bid_comp_of s) (ask_comp_of s) b → P b →
              apply_op (canonical_of s) op b = Ok b' → P b') →
  P empty_book → Forall Q ops → after s ops = Ok b → P (view s b).
Proof.
  intros Hstep Hempty Hops Hrun%after_view.
  eapply (run_invariant (bid_comp_of s) (ask_comp_of s) (best_of s) P Q); eauto.
  apply wf_empty.
Qed.

(** The end of the vector that a strategy reads holds its best price. *)
Lemma best_of_is_Some s (l : list PriceLevel) : l ≠ [] → is_Some (best_of s l).
Proof.
  intros Hl. destruct s; simpl; unfold front, back.
  1,2: destruct l; [done|by eexists].
  all: destruct (last l) eqn:Hlast; [by eexists|]; by apply last_None in Hlast.
Qed.

Lemma best_of_elem s (l : list PriceLevel) x : best_of s l = Some x → x ∈ l.
Proof.
  destruct s; simpl; unfold front, back; intros H.
  1,2: destruct l; simplify_eq/=; left.
  all: apply last_Some in H as [l' ->]; apply elem_of_app; right; left.
Qed.

Lemma best_of_bid s l bb x :
  sorted (bid_comp_of s) l → best_of s l = Some bb → x ∈ l → price x ≤ price bb.
Proof.
  intros Hs Hbb Hx. destruct s; simpl in Hs, Hbb.
  1,2: destruct (sorted_front greater _ bb x Hs Hbb Hx) as [->|Hc]; unfold greater in *; lia.
  all: destruct (sorted_back less _ bb x Hs Hbb Hx) as [->|Hc]; unfold less in *; lia.
Qed.

Lemma best_of_ask s l ba x :
  sorted (ask_comp_of s) l → best_of s l = Some ba → x ∈ l → price ba ≤ price x.
Proof.
  intros Hs Hba Hx. destruct s; simpl in Hs, Hba.
  1,2: destruct (sorted_front less _ ba x Hs Hba Hx) as [->|Hc]; unfold less in *; lia.
  all: destruct (sorted_back greater _ ba x Hs Hba Hx) as [->|Hc]; unfold greater in *; lia.
Qed.

(** ** The sorted-vector books refine the reference book *)

Section ToMap.
Implicit Types (l : list PriceLevel) (lv z : PriceLevel) (p v : Z).

Lemma to_map_keys l : ((λ z, (price z, volume z)) <$> l).*1 = price <$> l.
Proof. rewrite <- list_fmap_compose. by apply list_fmap_ext. Qed.

Lemma to_map_lookup_Some l p v :
  NoDup (price <$> l) → to_map l !! p = Some v ↔ mkLevel p v ∈ l.
Proof.
  intros Hnd. unfold to_map.
  rewrite <- elem_of_list_to_map by (by rewrite to_map_keys).
  rewrite list_elem_of_fmap. split.
  - intros (z & [= -> ->] & Hz). by destruct z.
  - intros Hz. by exists (mkLevel p v).
Qed.

Lemma to_map_lookup_None l p :
  to_map l !! p = None ↔ ∀ z, z ∈ l → price z ≠ p.
Proof.
  unfold to_map. rewrite <- not_elem_of_list_to_map, to_map_keys. split.
  - intros Hp z Hz Heq. apply Hp. rewrite <- Heq. by apply list_elem_of_fmap_2.
  - intros Hp Hin. apply list_elem_of_fmap in Hin as (z & -> & Hz). by apply (Hp z).
Qed.

Lemma to_map_found l i lv :
  NoDup (price <$> l) → l !! i = Some lv → to_map l !! price lv = Some (volume lv).
Proof.
  intros Hnd Hi. apply to_map_lookup_Some; [done|].
  destruct lv. by eapply list_elem_of_lookup_2.
Qed.

Lemma to_map_update l i lv v :
  NoDup (price <$> l) → l !! i = Some lv →
  to_map (<[i := mkLevel (price lv) v]> l) = <[price lv := v]> (to_map l).
Proof.
  intros Hnd Hi. apply map_eq. intros q. apply option_eq. intros w.
  rewrite to_map_lookup_Some by (by rewrite (keys_insert_same price l i lv)).
  rewrite (elem_of_insert_keyed price l i lv) by done.
  rewrite lookup_insert_Some, to_map_lookup_Some by done. simpl.
  split.
  - intros [[= -> ->]|[Hz Hne]]; [by left|right; done].
  - intros [[-> ->]|[Hne Hz]]; [by left|right; done].
Qed.

Lemma to_map_erase l i lv :
  NoDup (price <$> l) → l !! i = Some lv →
  to_map (vector_erase i l) = delete (price lv) (to_map l).
Proof.
  intros Hnd Hi. apply map_eq. intros q. apply option_eq. intros w.
  rewrite to_map_lookup_Some by (by apply NoDup_keys_erase).
  rewrite (elem_of_erase_keyed price l i lv) by done.
  rewrite lookup_delete_Some, to_map_lookup_Some by done. simpl.
  intuition congruence.
Qed.

Lemma to_map_vector_insert l i p v :
  NoDup (price <$> l) → (∀ z, z ∈ l → price z ≠ p) →
  to_map (vector_insert i (mkLevel p v) l) = <[p := v]> (to_map l).
Proof.
  intros Hnd Hp. apply map_eq. intros q. apply option_eq. intros w.
  rewrite to_map_lookup_Some by (by apply NoDup_keys_vector_insert).
  rewrite elem_of_vector_insert, lookup_insert_Some, to_map_lookup_Some by done.
  split.
  - intros [[= -> ->]|Hz]; [by left|right]. split; [|done].
    intros ->. by apply (Hp _ Hz).
  - intros [[-> ->]|[Hne Hz]]; [by left|by right].
Qed.

Lemma elem_of_prices_to_map l p :
  NoDup (price <$> l) → p ∈ price <$> l ↔ is_Some (to_map l !! p).
Proof.
  intros Hnd. split.
  - intros Hin. apply list_elem_of_fmap in Hin as (z & -> & Hz).
    apply list_elem_of_lookup in Hz as (i & Hi). rewrite (to_map_found l i z) by done.
    by eexists.
  - intros [v Hv]. apply to_map_lookup_Some in Hv; [|done].
    by apply (list_elem_of_fmap_2 price) in Hv.
Qed.
End ToMap.

Lemma abs_store_store s l o b :
  abs (store s l o b) = abs_store s (to_map l) o (abs b).
Proof. by destruct s. Qed.

Lemma abs_levels_abs s b : abs_levels s (abs b) = to_map (levels_of s b).
Proof. by destruct s. Qed.

Section Refinement.
Context (bid_comp ask_comp : Z → Z → bool) (best : list PriceLevel → option PriceLevel).
Context `{!Comparator bid_comp, !Comparator ask_comp}.

Local Abbreviation comp_of := (side_comp bid_comp ask_comp).
Local Abbreviation wf := (wf bid_comp ask_comp).
Local Abbreviation canonical := (bs_book partition_point bid_comp ask_comp best).

(** What the search of the vector-backed books finds, read on the map. *)
Lemma position_lookup s p (b : VecBook) :
  wf b →
  match levels_of s b !! position (comp_of s) p (levels_of s b) with
  | Some lv =>
      if price lv =? p
      then to_map (levels_of s b) !! p = Some (volume lv) ∧ price lv = p
      else to_map (levels_of s b) !! p = None
  | None => to_map (levels_of s b) !! p = None
  end.
Proof.
  intros Hwf.
  pose proof (sorted_NoDup_prices (comp_of s) _ (Hwf s)) as Hnd.
  pose proof (position_not_found bid_comp ask_comp s p _ (Hwf s)) as Habs.
  destruct (levels_of s b !! position _ _ _) as [lv|] eqn:Hi.
  - destruct (Z.eqb_spec (price lv) p) as [<-|Hne].
    + split; [by eapply to_map_found|done].
    + apply to_map_lookup_None. by apply Habs.
  - apply to_map_lookup_None. by apply Habs.
Qed.

Lemma refine_apply_op op b :
  wf b → result_map abs (apply_op canonical op b) = abs_apply_op op (abs b).
Proof.
  intros Hwf. destruct op as [orderId s p vol|orderId newVolume|orderId]; simpl.
  - unfold bs_AddOrder, bs_AddOrderImpl, abs_AddOrder, emplace. simpl.
    destruct (mOrders b !! orderId) as [d|] eqn:Hd; [done|].
    change (partition_point (by_price (comp_of s)) (levels_of s b) (mkLevel p 0))
      with (position (comp_of s) p (levels_of s b)).
    rewrite abs_levels_abs.
    pose proof (sorted_NoDup_prices (comp_of s) _ (Hwf s)) as Hnd.
    pose proof (position_not_found bid_comp ask_comp s p _ (Hwf s)) as Habs.
    pose proof (position_lookup s p b Hwf) as Hfind.
    destruct (levels_of s b !! position _ _ _) as [lv|] eqn:Hi.
    + destruct (Z.eqb_spec (price lv) p) as [Hp|Hne].
      * destruct Hfind as [-> _].
        destruct (checked (volume lv + vol)) as [v|] eqn:Hv; simpl; [|done].
        by rewrite abs_store_store, (to_map_update _ _ lv), Hp.
      * rewrite Hfind. simpl. rewrite abs_store_store, to_map_vector_insert; auto.
    + rewrite Hfind. simpl. rewrite abs_store_store, to_map_vector_insert; auto.
  - unfold bs_ModifyOrder, abs_ModifyOrder. simpl.
    destruct (mOrders b !! orderId) as [d|] eqn:Hd; [|done].
    destruct (checked (newVolume - originalVolume d)) as [diff|]; simpl; [|done].
    change (partition_point (by_price (comp_of (side d))) (levels_of (side d) b)
              (mkLevel (order_price d) 0))
      with (position (comp_of (side d)) (order_price d) (levels_of (side d) b)).
    rewrite abs_levels_abs.
    pose proof (sorted_NoDup_prices (comp_of (side d)) _ (Hwf (side d))) as Hnd.
    pose proof (position_lookup (side d) (order_price d) b Hwf) as Hfind.
    destruct (levels_of (side d) b !! position _ _ _) as [lv|] eqn:Hi;
      [|by rewrite Hfind].
    destruct (Z.eqb_spec (price lv) (order_price d)) as [Hp|Hne]; [|by rewrite Hfind].
    destruct Hfind as [-> _].
    destruct (checked (volume lv + diff)) as [v|] eqn:Hv; simpl; [|done].
    destruct (v <=? 0); simpl.
    + by rewrite abs_store_store, (to_map_erase _ _ lv), Hp.
    + by rewrite abs_store_store, (to_map_update _ _ lv), Hp.
  - unfold bs_DeleteOrder, abs_DeleteOrder. simpl.
    destruct (mOrders b !! orderId) as [d|] eqn:Hd; [|done].
    change (partition_point (by_price (comp_of (side d))) (levels_of (side d) b)
              (mkLevel (order_price d) 0))
      with (position (comp_of (side d)) (order_price d) (levels_of (side d) b)).
    rewrite abs_levels_abs.
    pose proof (sorted_NoDup_prices (comp_of (side d)) _ (Hwf (side d))) as Hnd.
    pose proof (position_lookup (side d) (order_price d) b Hwf) as Hfind.
    destruct (levels_of (side d) b !! position _ _ _) as [lv|] eqn:Hi;
      [|rewrite Hfind; simpl; by rewrite abs_store_store].
    destruct (Z.eqb_spec (price lv) (order_price d)) as [Hp|Hne];
      [|rewrite Hfind; simpl; by rewrite abs_store_store].
    destruct Hfind as [-> _].
    destruct (checked (volume lv - originalVolume d)) as [v|] eqn:Hv; simpl; [|done].
    destruct (v <=? 0); simpl.
    + by rewrite abs_store_store, (to_map_erase _ _ lv), Hp.
    + by rewrite abs_store_store, (to_map_update _ _ lv), Hp.
Qed.

Lemma refine_run ops b :
  wf b → result_map abs (run canonical ops b) = abs_run ops (abs b).
Proof.
  revert b. induction ops as [|op ops IH]; intros b Hwf; [done|].
  rewrite run_cons. simpl. rewrite <- refine_apply_op by done.
  destruct (apply_op canonical op b) as [b1|why] eqn:Hb1; simpl; [|done].
  apply IH. exact (apply_op_wf bid_comp ask_comp best op b b1 Hwf Hb1).
Qed.
End Refinement.

(** ** All strategies refine the reference book *)

Lemma abs_empty_book : abs empty_book = abs_empty.
Proof. done. Qed.

Lemma abs_after_vector s ops : s ≠ StdMap → abs_after s ops = abs_run ops abs_empty.
Proof.
  intros Hs. unfold abs_after, after. rewrite <- abs_empty_book.
  destruct s; [done|..]; simpl.
  - rewrite (run_any_search greater less front lower_bound lower_bound_SearchSpec)
      by apply wf_empty.
    apply (refine_run greater less front), wf_empty.
  - rewrite (run_any_search less greater back lower_bound lower_bound_SearchSpec)
      by apply wf_empty.
    apply (refine_run less greater back), wf_empty.
  - rewrite (run_any_search less greater back branchless_lower_bound branchless_SearchSpec)
      by apply wf_empty.
    apply (refine_run less greater back), wf_empty.
  - rewrite linear_run by apply wf_empty.
    apply (refine_run less greater back), wf_empty.
Qed.

Lemma abs_after_map ops m :
  after StdMap ops = Ok m → abs_run ops abs_empty = Ok (abs (forget m)).
Proof.
  intros Hrun. apply (after_view StdMap) in Hrun.
  rewrite <- abs_empty_book, <- (refine_run greater less front) by apply wf_empty.
  simpl in Hrun. unfold canonical_of in Hrun. simpl in Hrun. by rewrite Hrun.
Qed.

(** The best price of a side depends only on the set of prices present. *)
Lemma vec_empty_to_map (l1 l2 : list PriceLevel) :
  NoDup (price <$> l1) → NoDup (price <$> l2) →
  to_map l1 = to_map l2 → vec_empty l1 = vec_empty l2.
Proof.
  intros Hnd1 Hnd2 Heq.
  destruct l1 as [|x1 l1], l2 as [|x2 l2]; try done.
  - assert (price x2 ∈ price <$> ([] : list PriceLevel)) as Hin; [|by apply elem_of_nil in Hin].
    apply elem_of_prices_to_map; [constructor|]. rewrite Heq.
    apply elem_of_prices_to_map; [done|]. left.
  - assert (price x1 ∈ price <$> ([] : list PriceLevel)) as Hin; [|by apply elem_of_nil in Hin].
    apply elem_of_prices_to_map; [constructor|]. rewrite <- Heq.
    apply elem_of_prices_to_map; [done|]. left.
Qed.

Lemma prices_to_map (l1 l2 : list PriceLevel) x :
  NoDup (price <$> l1) → NoDup (price <$> l2) → to_map l1 = to_map l2 →
  x ∈ l1 → ∃ y, y ∈ l2 ∧ price y = price x.
Proof.
  intros Hnd1 Hnd2 Heq Hx.
  assert (price x ∈ price <$> l2) as Hin.
  { apply elem_of_prices_to_map; [done|]. rewrite <- Heq.
    apply elem_of_prices_to_map; [done|]. by apply list_elem_of_fmap_2. }
  apply list_elem_of_fmap in Hin as (y & Hp & Hy). by exists y.
Qed.

Lemma best_bid_to_map s1 s2 l1 l2 x1 x2 :
  sorted (bid_comp_of s1) l1 → sorted (bid_comp_of s2) l2 → to_map l1 = to_map l2 →
  best_of s1 l1 = Some x1 → best_of s2 l2 = Some x2 → price x1 = price x2.
Proof.
  intros Hs1 Hs2 Heq Hx1 Hx2.
  pose proof (sorted_NoDup_prices _ _ Hs1) as Hnd1.
  pose proof (sorted_NoDup_prices _ _ Hs2) as Hnd2.
  destruct (prices_to_map l1 l2 x1 Hnd1 Hnd2 Heq (best_of_elem _ _ _ Hx1)) as (y2 & Hy2 & Hp2).
  destruct (prices_to_map l2 l1 x2 Hnd2 Hnd1 (eq_sym Heq) (best_of_elem _ _ _ Hx2))
    as (y1 & Hy1 & Hp1).
  pose proof (best_of_bid s1 l1 x1 y1 Hs1 Hx1 Hy1).
  pose proof (best_of_bid s2 l2 x2 y2 Hs2 Hx2 Hy2). lia.
Qed.

Lemma best_ask_to_map s1 s2 l1 l2 x1 x2 :
  sorted (ask_comp_of s1) l1 → sorted (ask_comp_of s2) l2 → to_map l1 = to_map l2 →
  best_of s1 l1 = Some x1 → best_of s2 l2 = Some x2 → price x1 = price x2.
Proof.
  intros Hs1 Hs2 Heq Hx1 Hx2.
  pose proof (sorted_NoDup_prices _ _ Hs1) as Hnd1.
  pose proof (sorted_NoDup_prices _ _ Hs2) as Hnd2.
  destruct (prices_to_map l1 l2 x1 Hnd1 Hnd2 Heq (best_of_elem _ _ _ Hx1)) as (y2 & Hy2 & Hp2).
  destruct (prices_to_map l2 l1 x2 Hnd2 Hnd1 (eq_sym Heq) (best_of_elem _ _ _ Hx2))
    as (y1 & Hy1 & Hp1).
  pose proof (best_of_ask s1 l1 x1 y1 Hs1 Hx1 Hy1).
  pose proof (best_of_ask s2 l2 x2 y2 Hs2 Hx2 Hy2). lia.
Qed.

Lemma best_prices_abs s1 s2 (b1 : book_state s1) (b2 : book_state s2) :
  wf (bid_comp_of s1) (ask_comp_of s1) (view s1 b1) →
  wf (bid_comp_of s2) (ask_comp_of s2) (view s2 b2) →
  abs (view s1 b1) = abs (view s2 b2) →
  best_prices s1 b1 = best_prices s2 b2.
Proof.
  intros Hwf1 Hwf2 Habs. injection Habs as Hbids Hasks _.
  pose proof (Hwf1 Bid) as Hb1. pose proof (Hwf1 Ask) as Ha1.
  pose proof (Hwf2 Bid) as Hb2. pose proof (Hwf2 Ask) as Ha2.
  change (levels_of Bid (view s1 b1)) with (mBidLevels (view s1 b1)) in *.
  change (levels_of Ask (view s1 b1)) with (mAskLevels (view s1 b1)) in *.
  change (levels_of Bid (view s2 b2)) with (mBidLevels (view s2 b2)) in *.
  change (levels_of Ask (view s2 b2)) with (mAskLevels (view s2 b2)) in *.
  rewrite !best_prices_view. unfold canonical_of. simpl. unfold bs_GetBestPrices.
  rewrite (vec_empty_to_map _ _ (sorted_NoDup_prices _ _ Hb1)
             (sorted_NoDup_prices _ _ Hb2) Hbids).
  rewrite (vec_empty_to_map _ _ (sorted_NoDup_prices _ _ Ha1)
             (sorted_NoDup_prices _ _ Ha2) Hasks).
  destruct (mBidLevels (view s2 b2)) as [|xb lb] eqn:Hlb; [done|].
  destruct (mAskLevels (view s2 b2)) as [|xa la] eqn:Hla; [done|].
  simpl.
  assert (mBidLevels (view s1 b1) ≠ []) as Hne1.
  { intros Hnil. rewrite Hnil in Hbids.
    pose proof (vec_empty_to_map [] (xb :: lb) ltac:(constructor)
                  (sorted_NoDup_prices _ _ Hb2) Hbids). done. }
  assert (mAskLevels (view s1 b1) ≠ []) as Hne2.
  { intros Hnil. rewrite Hnil in Hasks.
    pose proof (vec_empty_to_map [] (xa :: la) ltac:(constructor)
                  (sorted_NoDup_prices _ _ Ha2) Hasks). done. }
  destruct (best_of_is_Some s1 _ Hne1) as [bb1 Hbb1].
  destruct (best_of_is_Some s1 _ Hne2) as [ba1 Hba1].
  destruct (best_of_is_Some s2 (xb :: lb)) as [bb2 Hbb2]; [done|].
  destruct (best_of_is_Some s2 (xa :: la)) as [ba2 Hba2]; [done|].
  rewrite Hbb1, Hba1, Hbb2, Hba2. simpl.
  by rewrite (best_bid_to_map s1 s2 _ _ _ _ Hb1 Hb2 Hbids Hbb1 Hbb2),
             (best_ask_to_map s1 s2 _ _ _ _ Ha1 Ha2 Hasks Hba1 Hba2).
Qed.

(** X4: the four vector-backed books report the same best prices after every
    operation sequence (and are undefined on the same sequences). *)
Theorem vector_books_agree s1 s2 ops :
  s1 ≠ StdMap → s2 ≠ StdMap → prices_after s1 ops = prices_after s2 ops.
Proof.
  intros Hs1 Hs2.
  pose proof (abs_after_vector s1 ops Hs1) as H1.
  pose proof (abs_after_vector s2 ops Hs2) as H2.
  unfold prices_after, abs_after in *.
  destruct (after s1 ops) as [b1|w1] eqn:Hb1, (after s2 ops) as [b2|w2] eqn:Hb2;
    simpl in *; try congruence.
  f_equal. apply best_prices_abs; [by eapply after_wf..|congruence].
Qed.

(** X5: [OrderBookMap] reports the same best prices as the others after every
    operation sequence on which its behaviour is defined. *)
Theorem map_book_agrees_when_defined s ops m :
  after StdMap ops = Ok m → prices_after s ops = Ok (best_prices StdMap m).
Proof.
  intros Hm. destruct (decide (s = StdMap)) as [->|Hs].
  { unfold prices_after. by rewrite Hm. }
  pose proof (abs_after_vector s ops Hs) as H1.
  rewrite (abs_after_map ops m Hm) in H1.
  unfold prices_after, abs_after in *.
  destruct (after s ops) as [b|w] eqn:Hb; simpl in *; [|done].
  f_equal. apply best_prices_abs; [by eapply after_wf..|]. simpl. congruence.
Qed.

(** Two levels of a sorted vector with the same price are the same level. *)
Lemma sorted_price_inj comp `{!Comparator comp} l x y :
  sorted comp l → x ∈ l → y ∈ l → price x = price y → x = y.
Proof.
  intros Hs Hx Hy Heq. pose proof (sorted_NoDup_prices comp l Hs) as Hnd.
  apply list_elem_of_lookup in Hx as (i & Hi). apply list_elem_of_lookup in Hy as (j & Hj).
  assert (i = j) as ->; [|congruence].
  eapply NoDup_lookup; [exact Hnd|..].
  - by rewrite list_lookup_fmap, Hi.
  - by rewrite list_lookup_fmap, Hj, Heq.
Qed.

(** A sorted array is partitioned by every probe value. *)
Lemma StronglySorted_lookup_lt {A} (R : A → A → Prop) (l : list A) i j x y :
  StronglySorted R l → (i < j)%nat → l !! i = Some x → l !! j = Some y → R x y.
Proof.
  intros Hs. revert i j. induction Hs as [|a l Hs IH Ha]; intros i j Hij Hi Hj; [done|].
  destruct j as [|j]; [lia|]. simpl in Hj.
  destruct i as [|i]; simpl in Hi.
  - simplify_eq. rewrite Forall_forall in Ha. apply Ha. by eapply list_elem_of_lookup_2.
  - apply (IH i j); [lia|done|done].
Qed.

Lemma sorted_is_partitioned {A} (comp : A → A → bool) (l : list A) (value : A) :
  (∀ x y z, comp x y = true → comp y z = true → comp x z = true) →
  StronglySorted (λ x y, comp x y = true) l →
  partitioned (λ y, comp y value) l.
Proof.
  intros Htrans Hs i j x y Hij Hi Hj Hy.
  destruct (decide (i = j)) as [->|Hne]; [by simplify_eq|].
  eapply Htrans; [|exact Hy].
  apply (StronglySorted_lookup_lt (λ x y, comp x y = true) l i j); [done|lia|done|done].
Qed.

(** ** [ModifyOrder] on an order whose level is present *)

Lemma modify_outcome_view s orderId d agg newVolume b b' :
  vec_modify_outcome orderId d agg newVolume (view s b) (view s b') →
  modify_outcome s orderId d agg newVolume b b'.
Proof.
  unfold vec_modify_outcome, modify_outcome. intros [Hother Hcase]. split.
  - intros sd Hsd. rewrite !levels_view. by apply Hother.
  - rewrite !registry_view. case_decide; destruct Hcase as [Hreg Hlv];
      (split; [done|]); intros z; rewrite !levels_view; apply Hlv.
Qed.

Section ModifyFound.
Context (bid_comp ask_comp : Z → Z → bool).
Context `{!Comparator bid_comp, !Comparator ask_comp}.

Lemma modifyOrder_found orderId newVolume b d lv :
  wf bid_comp ask_comp b →
  mOrders b !! orderId = Some d →
  lv ∈ levels_of (side d) b → price lv = order_price d →
  INT64_MIN ≤ newVolume - originalVolume d ≤ INT64_MAX →
  INT64_MIN ≤ volume lv + (newVolume - originalVolume d) ≤ INT64_MAX →
  ∃ b', bs_ModifyOrder partition_point bid_comp ask_comp orderId newVolume b = Ok b' ∧
        vec_modify_outcome orderId d (volume lv + (newVolume - originalVolume d)) newVolume b b'.
Proof.
  intros Hwf Hd Hlv Hp Hdiff Hagg.
  apply list_elem_of_lookup in Hlv as (i & Hi).
  pose proof (position_found (side_comp bid_comp ask_comp (side d)) _ i lv (Hwf (side d)) Hi)
    as Hpos.
  unfold bs_ModifyOrder. rewrite Hd, (checked_in_range _ Hdiff). simpl.
  change (partition_point (by_price (side_comp bid_comp ask_comp (side d)))
            (levels_of (side d) b) (mkLevel (order_price d) 0))
    with (position (side_comp bid_comp ask_comp (side d)) (order_price d)
            (levels_of (side d) b)).
  rewrite <- Hp, Hpos, Hi, Z.eqb_refl, (checked_in_range _ Hagg). simpl.
  unfold vec_modify_outcome.
  destruct (Z.leb_spec (volume lv + (newVolume - originalVolume d)) 0) as [Hle|Hgt];
    eexists; (split; [done|]); rewrite mOrders_store.
  - rewrite decide_True by done. split_and!; [|done|].
    + intros sd Hsd. rewrite levels_of_store. by rewrite decide_False.
    + intros z. rewrite levels_of_store, decide_True by done.
      rewrite <- Hp. by apply (elem_of_erase bid_comp ask_comp (side d)).
  - rewrite decide_False by lia. split_and!; [|by rewrite Hp|].
    + intros sd Hsd. rewrite levels_of_store. by rewrite decide_False.
    + intros z. rewrite levels_of_store, decide_True by done.
      rewrite <- Hp. by apply (elem_of_update bid_comp ask_comp (side d)).
Qed.

Lemma modifyOrder_absent orderId newVolume b d :
  wf bid_comp ask_comp b →
  mOrders b !! orderId = Some d →
  (∀ lv, lv ∈ levels_of (side d) b → price lv ≠ order_price d) →
  INT64_MIN ≤ newVolume - originalVolume d ≤ INT64_MAX →
  bs_ModifyOrder partition_point bid_comp ask_comp orderId newVolume b = Ok b.
Proof.
  intros Hwf Hd Habs Hdiff.
  unfold bs_ModifyOrder. rewrite Hd, (checked_in_range _ Hdiff). simpl.
  destruct (levels_of (side d) b !! _) as [lv|] eqn:Hi; [|done].
  apply list_elem_of_lookup_2, Habs in Hi. apply Z.eqb_neq in Hi. by rewrite Hi.
Qed.
End ModifyFound.

Lemma deref_Undefined it nodes why :
  OrderBookMap.deref it nodes = Undefined why → why = InvalidIterator.
Proof.
  unfold OrderBookMap.deref. destruct it as [a|]; [|by intros [= <-]].
  destruct (nodes !! _); [done|by intros [= <-]].
Qed.

(** In a reachable [OrderBookMap], a call that does not use an erased iterator
    and does not overflow returns a book. *)
Lemma map_ModifyOrder_defined orderId newVolume m dm lv :
  map_inv m →
  OrderBookMap.mOrders m !! orderId = Some dm →
  lv ∈ levels StdMap (OrderBookMap.side dm) m → price lv = OrderBookMap.price dm →
  OrderBookMap.ModifyOrder orderId newVolume m ≠ Undefined InvalidIterator →
  INT64_MIN ≤ newVolume - OrderBookMap.originalVolume dm ≤ INT64_MAX →
  INT64_MIN ≤ volume lv + (newVolume - OrderBookMap.originalVolume dm) ≤ INT64_MAX →
  ∃ m', OrderBookMap.ModifyOrder orderId newVolume m = Ok m'.
Proof.
  intros [(Hnd & Hlt & Hiter) Hwf] Hd Hlv Hp. rewrite map_ModifyOrder_eq, Hd. simpl.
  intros Hnot Hdiff Hagg. rewrite (checked_in_range _ Hdiff) in *. simpl in *.
  destruct (OrderBookMap.deref _ _) as [[i n]|why] eqn:Hderef; simpl in *.
  - apply deref_Ok in Hderef as [Hi Hit].
    assert (n ∈ nodes_of (OrderBookMap.side dm) m) as Hn by (by eapply list_elem_of_lookup_2).
    destruct (Hiter _ _ _ Hd Hit) as [_ Hfirst]. specialize (Hfirst n Hn eq_refl).
    assert (OrderBookMap.level_of_node n = lv) as Hsame.
    { apply (sorted_price_inj (map_comp (OrderBookMap.side dm))
               (levels_of (OrderBookMap.side dm) (forget m))).
      - apply Hwf.
      - rewrite levels_of_forget. by apply list_elem_of_fmap_2.
      - by rewrite <- (levels_view StdMap).
      - simpl. congruence. }
    assert (OrderBookMap.second n = volume lv) as -> by (by rewrite <- Hsame).
    rewrite (checked_in_range _ Hagg). simpl.
    destruct (_ <=? 0); by eexists.
  - apply deref_Undefined in Hderef as ->. done.
Qed.

(** ** What [GetBestPrices] returns *)

Lemma best_prices_empty_side s (b : book_state s) :
  levels s Bid b = [] ∨ levels s Ask b = [] → best_prices s b = (0, 0).
Proof.
  rewrite best_prices_view, !levels_view. simpl. unfold bs_GetBestPrices.
  intros [->| ->]; simpl; [done|]. by rewrite orb_true_r.
Qed.

Lemma best_prices_both_sides s (b : book_state s) :
  levels s Bid b ≠ [] → levels s Ask b ≠ [] →
  ∃ bb ba, best_of s (levels s Bid b) = Some bb ∧ best_of s (levels s Ask b) = Some ba ∧
           best_prices s b = (price bb, price ba).
Proof.
  rewrite best_prices_view, !levels_view.
  change (levels_of Bid (view s b)) with (mBidLevels (view s b)).
  change (levels_of Ask (view s b)) with (mAskLevels (view s b)).
  intros Hb Ha.
  destruct (best_of_is_Some s _ Hb) as [bb Hbb].
  destruct (best_of_is_Some s _ Ha) as [ba Hba].
  exists bb, ba. split; [done|]. split; [done|].
  unfold canonical_of. simpl. unfold bs_GetBestPrices. rewrite Hbb, Hba.
  destruct (mBidLevels (view s b)); [done|]. by destruct (mAskLevels (view s b)).
Qed.

(** ** [ModifyOrder] in every strategy *)

(** On a reachable book of any strategy, [ModifyOrder] on a registered order
    whose level is present returns (within the 64-bit range and unless
    [OrderBookMap] goes through an erased iterator) the book that
    [modify_outcome] describes. *)
Lemma strategy_modify_found s ops (b : book_state s) orderId d lv newVolume :
  after s ops = Ok b →
  registry s b !! orderId = Some d →
  lv ∈ levels s (side d) b → price lv = order_price d →
  @ModifyOrder _ (strategy_book s) orderId newVolume b ≠ Undefined InvalidIterator →
  INT64_MIN ≤ newVolume - originalVolume d ≤ INT64_MAX →
  INT64_MIN ≤ volume lv + (newVolume - originalVolume d) ≤ INT64_MAX →
  ∃ b', @ModifyOrder _ (strategy_book s) orderId newVolume b = Ok b' ∧
        modify_outcome s orderId d (volume lv + (newVolume - originalVolume d)) newVolume b b'.
Proof.
  intros Hrun Hd Hlv Hp Hnot Hdiff Hagg.
  pose proof (after_wf s ops b Hrun) as Hwf.
  assert (∃ vb', bs_ModifyOrder partition_point (bid_comp_of s) (ask_comp_of s)
                   orderId newVolume (view s b) = Ok vb' ∧
                 vec_modify_outcome orderId d (volume lv + (newVolume - originalVolume d))
                   newVolume (view s b) vb') as (vb' & Hcanon & Hout).
  { apply (modifyOrder_found (bid_comp_of s) (ask_comp_of s)); try done.
    - by rewrite <- registry_view.
    - by rewrite <- levels_view. }
  destruct s.
  - unfold after in Hrun. simpl in Hrun.
    destruct (map_run_sim _ _ _ map_inv_empty Hrun) as [_ Hinv].
    simpl in Hd. rewrite lookup_fmap in Hd.
    destruct (OrderBookMap.mOrders b !! orderId) as [dm|] eqn:Hdm; [|done].
    injection Hd as <-.
    destruct (map_ModifyOrder_defined orderId newVolume b dm lv Hinv Hdm Hlv Hp Hnot Hdiff Hagg)
      as [m' Hm'].
    exists m'. split; [done|]. apply modify_outcome_view.
    destruct Hinv as [Hmwf Hvwf].
    destruct (map_ModifyOrder_sim _ _ _ _ Hmwf Hvwf Hm') as [Hsim _].
    simpl in Hcanon, Hsim |- *. rewrite Hcanon in Hsim. by injection Hsim as <-.
  - exists vb'. split; [|by apply modify_outcome_view].
    etrans; [|exact Hcanon].
    apply (apply_op_any_search greater less front lower_bound lower_bound_SearchSpec
             (Modify orderId newVolume) b Hwf).
  - exists vb'. split; [|by apply modify_outcome_view].
    etrans; [|exact Hcanon].
    apply (apply_op_any_search less greater back lower_bound lower_bound_SearchSpec
             (Modify orderId newVolume) b Hwf).
  - exists vb'. split; [|by apply modify_outcome_view].
    etrans; [|exact Hcanon].
    apply (apply_op_any_search less greater back branchless_lower_bound branchless_SearchSpec
             (Modify orderId newVolume) b Hwf).
  - exists vb'. split; [|by apply modify_outcome_view].
    etrans; [|exact Hcanon].
    apply (linear_apply_op (Modify orderId newVolume) b Hwf).
Qed.

(** * The properties stated by the specification, C1 to C10 *)

(** ** C1: the five books report the same best prices *)

(** C1 (code defect): on [c1_ops] the four vector-backed books look for the
    level of order 1, do not find it, drop the order and report (0, 0), while
    [OrderBookMap] goes through the iterator that order 1 cached, whose node
    was erased by the preceding [DeleteOrder]: its behaviour is undefined, so
    the five books do not agree on every operation sequence. *)
Theorem C1_map_uses_erased_iterator :
  prices_after StdMap c1_ops = Undefined InvalidIterator ∧
  prices_after Vector c1_ops = Ok (0, 0) ∧
  prices_after VectorEfficient c1_ops = Ok (0, 0) ∧
  prices_after VectorBranchless c1_ops = Ok (0, 0) ∧
  prices_after VectorLinear c1_ops = Ok (0, 0).
Proof. split_and!; by vm_compute. Qed.

(** ** C2: best prices of an empty and of a one-sided book *)

(** C2 as stated fails: after [addOrder(1, Bid, 100, 50)] alone the ask side
    is empty and [OrderBookMap] reports (0, 0), not (100, 0). *)
Lemma C2_counterexample :
  prices_after StdMap [Add 1 Bid 100 50] ≠ Ok (100, 0).
Proof. by vm_compute. Qed.

(** C2 (amended): in every strategy the empty book reports (0, 0), and after
    the single operation [addOrder(1, Bid, 100, 50)] it still reports (0, 0),
    because the ask side is empty (as does a book whose only order is an
    ask).  In every book state the pair is (0, 0) as soon as either side
    holds no level, whatever the other side holds; only when both sides hold
    a level is each component the price its own side reads as best. *)
Theorem C2_best_prices_one_sided (s : Strategy) :
  (prices_after s [] = Ok (0, 0) ∧
   prices_after s [Add 1 Bid 100 50] = Ok (0, 0) ∧
   prices_after s [Add 1 Ask 100 50] = Ok (0, 0)) ∧
  (∀ b : book_state s,
     levels s Bid b = [] ∨ levels s Ask b = [] → best_prices s b = (0, 0)) ∧
  (∀ b : book_state s,
     levels s Bid b ≠ [] → levels s Ask b ≠ [] →
     ∃ bb ba, best_of s (levels s Bid b) = Some bb ∧
              best_of s (levels s Ask b) = Some ba ∧
              best_prices s b = (price bb, price ba)).
Proof.
  split; [destruct s; split_and!; by vm_compute|]. split.
  - apply best_prices_empty_side.
  - apply best_prices_both_sides.
Qed.

Lemma C2_witness :
  best_prices VectorEfficient (mkVecBook [] [mkLevel 100 50] ∅) = (0, 0) ∧
  ∃ bb ba,
    best_of Vector (levels Vector Bid (mkVecBook [mkLevel 100 50] [mkLevel 101 20] ∅)) = Some bb ∧
    best_of Vector (levels Vector Ask (mkVecBook [mkLevel 100 50] [mkLevel 101 20] ∅)) = Some ba ∧
    best_prices Vector (mkVecBook [mkLevel 100 50] [mkLevel 101 20] ∅) = (price bb, price ba).
Proof.
  split.
  - apply (proj1 (proj2 (C2_best_prices_one_sided VectorEfficient))). left. reflexivity.
  - apply (proj2 (proj2 (C2_best_prices_one_sided Vector))); discriminate.
Defined.

(** ** C3: the sentinel pair *)

(** C3: whenever one of the two sides has no level, [GetBestPrices] returns
    (0, 0), whatever the other side holds; the call always returns a pair. *)
Theorem C3_sentinel_when_a_side_is_empty (s : Strategy) (b : book_state s) :
  levels s Bid b = [] ∨ levels s Ask b = [] → best_prices s b = (0, 0).
Proof.
  rewrite best_prices_view, !levels_view. simpl. unfold bs_GetBestPrices.
  intros [->| ->]; simpl; [done|]. by rewrite orb_true_r.
Qed.

Lemma C3_witness :
  best_prices Vector (mkVecBook [mkLevel 100 50] [] ∅) = (0, 0).
Proof. apply (C3_sentinel_when_a_side_is_empty Vector). right. reflexivity. Defined.

(** ** C4: levels aggregate the live orders *)

(** C4 as stated fails: after [modifyOrder(1, 0)] order 1 is registered with
    volume 0; deleting order 2 then empties and erases their common level, and
    order 1 is left without a level. *)
Lemma C4_counterexample :
  ¬ (∀ s ops b, after s ops = Ok b → levels_match_orders s b).
Proof.
  intros H.
  destruct (H Vector [Add 1 Bid 100 50; Add 2 Bid 100 30; Modify 1 0; Delete 2] _ eq_refl)
    as [_ Hlevel].
  destruct (Hlevel 1%N (mkDetails Bid 100 0)) as (i & lv & Hlv & _); [by vm_compute|].
  vm_compute in Hlv. by destruct i.
Qed.

(** C4 (amended): after every operation of a sequence whose [AddOrder] and
    [ModifyOrder] calls all carry a strictly positive volume, in every
    strategy, each level's volume equals the sum of [originalVolume] over the
    registered orders at its price and side, and every registered order's
    price has exactly one level on its side. *)
Theorem C4_levels_match_orders_after_positive_volumes (s : Strategy) (ops : list Op)
    (b : book_state s) :
  Forall volumes_positive ops → after s ops = Ok b → levels_match_orders s b.
Proof.
  intros Hops Hrun.
  pose proof (after_wf s ops b Hrun) as Hwf.
  assert (consistent (view s b)) as (Hagg & Hlvl & _).
  { apply (after_invariant consistent volumes_positive s ops b); [| |done..].
    - intros op b0 b1. apply apply_op_consistent; apply _.
    - apply consistent_empty. }
  split.
  - intros sd lv. rewrite levels_view, registry_view. apply Hagg.
  - intros id d. rewrite levels_view, registry_view. intros Hd.
    pose proof (Hlvl id d Hd) as Hin.
    apply list_elem_of_fmap in Hin as (lv & Hp & Hlv).
    apply list_elem_of_lookup in Hlv as (i & Hi).
    exists i, lv. split_and!; [done..|]. intros j lv' Hj Hp'.
    pose proof (sorted_NoDup_prices (side_comp (bid_comp_of s) (ask_comp_of s) (side d))
                  _ (Hwf (side d))) as Hnd.
    apply (NoDup_lookup _ j i (price lv) Hnd).
    + rewrite list_lookup_fmap, Hj. simpl. congruence.
    + by rewrite list_lookup_fmap, Hi.
Qed.

Lemma C4_witness :
  ∃ b, after VectorLinear [Add 3 Bid 100 20; Add 4 Bid 100 30; Delete 3] = Ok b ∧
       levels_match_orders VectorLinear b.
Proof.
  eexists. split; [reflexivity|].
  apply (C4_levels_match_orders_after_positive_volumes VectorLinear
           [Add 3 Bid 100 20; Add 4 Bid 100 30; Delete 3]).
  - repeat constructor; simpl; lia.
  - reflexivity.
Defined.

(** ** C5: the best prices are the extreme prices *)

(** C5: after any operation sequence, in every strategy, when both sides hold
    at least one level [GetBestPrices] returns the highest bid price and the
    lowest ask price, whichever end of the container the strategy reads. *)
Theorem C5_best_prices_are_extremes (s : Strategy) (ops : list Op) (b : book_state s) :
  after s ops = Ok b → levels s Bid b ≠ [] → levels s Ask b ≠ [] →
  ∃ bestBid bestAsk,
    best_prices s b = (bestBid, bestAsk) ∧
    highest (levels s Bid b) bestBid ∧ lowest (levels s Ask b) bestAsk.
Proof.
  intros Hrun. pose proof (after_wf s ops b Hrun) as Hwf.
  rewrite best_prices_view, !levels_view.
  pose proof (Hwf Bid) as Hbid. pose proof (Hwf Ask) as Hask.
  change (levels_of Bid (view s b)) with (mBidLevels (view s b)) in *.
  change (levels_of Ask (view s b)) with (mAskLevels (view s b)) in *.
  intros Hb Ha.
  destruct (best_of_is_Some s _ Hb) as [bb Hbb].
  destruct (best_of_is_Some s _ Ha) as [ba Hba].
  exists (price bb), (price ba). split.
  - unfold canonical_of. simpl. unfold bs_GetBestPrices. rewrite Hbb, Hba.
    destruct (mBidLevels (view s b)); [done|]. by destruct (mAskLevels (view s b)).
  - split; (split; [by eapply list_elem_of_fmap_2, best_of_elem|]);
      intros q Hq; apply list_elem_of_fmap in Hq as (x & -> & Hx).
    + by eapply best_of_bid.
    + by eapply best_of_ask.
Qed.

Lemma C5_witness :
  ∃ b, after VectorEfficient
         [Add 1 Bid 100 10; Add 2 Bid 105 10; Add 3 Bid 95 10; Add 4 Ask 110 5; Add 5 Ask 108 5]
       = Ok b ∧
       ∃ bestBid bestAsk,
         best_prices VectorEfficient b = (bestBid, bestAsk) ∧
         highest (levels VectorEfficient Bid b) bestBid ∧
         lowest (levels VectorEfficient Ask b) bestAsk.
Proof.
  eexists. split; [reflexivity|].
  apply (C5_best_prices_are_extremes VectorEfficient
           [Add 1 Bid 100 10; Add 2 Bid 105 10; Add 3 Bid 95 10; Add 4 Ask 110 5; Add 5 Ask 108 5]).
  - reflexivity.
  - discriminate.
  - discriminate.
Defined.

(** ** C6: what [ModifyOrder] does to a live order *)

(** C6 as stated fails: after [c1_ops] without its last step, order 1 is
    registered (volume 0) but its level has been erased; the vector-backed
    books then do not find the level and [modifyOrder(1, 20)] changes nothing:
    the order is neither removed nor given the new volume. *)
Lemma C6_counterexample :
  ¬ (∀ s ops b orderId d newVolume,
       after s ops = Ok b → registry s b !! orderId = Some d →
       ∃ b', @ModifyOrder _ (strategy_book s) orderId newVolume b = Ok b' ∧
             (registry s b' !! orderId = None ∨
              originalVolume <$> registry s b' !! orderId = Some newVolume)).
Proof.
  intros H.
  destruct (H Vector [Add 1 Bid 100 50; Add 2 Bid 100 30; Modify 1 0; Delete 2] _
              1%N (mkDetails Bid 100 0) 20 eq_refl)
    as (b' & Hb' & Hcase); [by vm_compute|].
  vm_compute in Hb'. injection Hb' as <-.
  destruct Hcase as [Hcase|Hcase]; vm_compute in Hcase; discriminate.
Qed.

(** C6 (amended): for every registered order whose price level is present on
    its side, a [ModifyOrder] call that stays within the 64-bit range (and, in
    [OrderBookMap], does not go through an erased iterator) returns, and adds
    [delta = newVolume − originalVolume] to that level: if the result is ≤ 0
    the level and the order are both removed, otherwise the level holds the
    result and the order holds [newVolume]; a registered order whose level
    is not present is left as it is by the vector-backed books.  In particular
    [addOrder(2, Ask, 150, 30)] followed by [modifyOrder(2, 0)] removes order 2
    and the level at 150, and the best ask then reads 0. *)
Theorem C6_modify_order_on_a_present_level (s : Strategy) :
  (∀ ops b orderId d lv newVolume,
     after s ops = Ok b →
     registry s b !! orderId = Some d →
     lv ∈ levels s (side d) b → price lv = order_price d →
     @ModifyOrder _ (strategy_book s) orderId newVolume b ≠ Undefined InvalidIterator →
     INT64_MIN ≤ newVolume - originalVolume d ≤ INT64_MAX →
     INT64_MIN ≤ volume lv + (newVolume - originalVolume d) ≤ INT64_MAX →
     ∃ b', @ModifyOrder _ (strategy_book s) orderId newVolume b = Ok b' ∧
           modify_outcome s orderId d (volume lv + (newVolume - originalVolume d))
             newVolume b b') ∧
  (∀ ops b orderId d newVolume,
     s ≠ StdMap →
     after s ops = Ok b →
     registry s b !! orderId = Some d →
     (∀ lv, lv ∈ levels s (side d) b → price lv ≠ order_price d) →
     INT64_MIN ≤ newVolume - originalVolume d ≤ INT64_MAX →
     @ModifyOrder _ (strategy_book s) orderId newVolume b = Ok b) ∧
  (∃ b, after s [Add 2 Ask 150 30; Modify 2 0] = Ok b ∧
        registry s b !! 2%N = None ∧ levels s Ask b = [] ∧ (best_prices s b).2 = 0).
Proof.
  split; [|split; [|destruct s; eexists; (split; [reflexivity|]); by vm_compute]].
  2: {
    intros ops b orderId d newVolume Hs Hrun Hd Habs Hdiff.
    pose proof (after_wf s ops b Hrun) as Hwf.
    assert (bs_ModifyOrder partition_point (bid_comp_of s) (ask_comp_of s)
              orderId newVolume (view s b) = Ok (view s b)) as Hcanon.
    { apply (modifyOrder_absent (bid_comp_of s) (ask_comp_of s) _ _ _ d); try done.
      - by rewrite <- registry_view.
      - intros lv. rewrite <- levels_view. apply Habs. }
    destruct s; [done|..]; (etrans; [|exact Hcanon]).
    - apply (apply_op_any_search greater less front lower_bound lower_bound_SearchSpec
               (Modify orderId newVolume) b Hwf).
    - apply (apply_op_any_search less greater back lower_bound lower_bound_SearchSpec
               (Modify orderId newVolume) b Hwf).
    - apply (apply_op_any_search less greater back branchless_lower_bound
               branchless_SearchSpec (Modify orderId newVolume) b Hwf).
    - apply (linear_apply_op (Modify orderId newVolume) b Hwf). }
  intros ops b orderId d lv newVolume Hrun Hd Hlv Hp Hnot Hdiff Hagg.
  pose proof (after_wf s ops b Hrun) as Hwf.
  assert (∃ vb', bs_ModifyOrder partition_point (bid_comp_of s) (ask_comp_of s)
                   orderId newVolume (view s b) = Ok vb' ∧
                 vec_modify_outcome orderId d (volume lv + (newVolume - originalVolume d))
                   newVolume (view s b) vb') as (vb' & Hcanon & Hout).
  { apply (modifyOrder_found (bid_comp_of s) (ask_comp_of s)); try done.
    - by rewrite <- registry_view.
    - by rewrite <- levels_view. }
  destruct s.
  - (* OrderBookMap *)
    unfold after in Hrun. simpl in Hrun.
    destruct (map_run_sim _ _ _ map_inv_empty Hrun) as [_ Hinv].
    simpl in Hd. rewrite lookup_fmap in Hd.
    destruct (OrderBookMap.mOrders b !! orderId) as [dm|] eqn:Hdm; [|done].
    injection Hd as <-.
    destruct (map_ModifyOrder_defined orderId newVolume b dm lv Hinv Hdm Hlv Hp Hnot Hdiff Hagg)
      as [m' Hm'].
    exists m'. split; [done|]. apply modify_outcome_view.
    destruct Hinv as [Hmwf Hvwf].
    destruct (map_ModifyOrder_sim _ _ _ _ Hmwf Hvwf Hm') as [Hsim _].
    simpl in Hcanon, Hsim |- *. rewrite Hcanon in Hsim. by injection Hsim as <-.
  - exists vb'. split; [|by apply modify_outcome_view].
    etrans; [|exact Hcanon].
    apply (apply_op_any_search greater less front lower_bound lower_bound_SearchSpec
             (Modify orderId newVolume) b Hwf).
  - exists vb'. split; [|by apply modify_outcome_view].
    etrans; [|exact Hcanon].
    apply (apply_op_any_search less greater back lower_bound lower_bound_SearchSpec
             (Modify orderId newVolume) b Hwf).
  - exists vb'. split; [|by apply modify_outcome_view].
    etrans; [|exact Hcanon].
    apply (apply_op_any_search less greater back branchless_lower_bound branchless_SearchSpec
             (Modify orderId newVolume) b Hwf).
  - exists vb'. split; [|by apply modify_outcome_view].
    etrans; [|exact Hcanon].
    apply (linear_apply_op (Modify orderId newVolume) b Hwf).
Qed.

Lemma C6_witness :
  ∃ b b', after VectorLinear c6_ops = Ok b ∧
          @ModifyOrder _ (strategy_book VectorLinear) 1%N 10 b = Ok b' ∧
          modify_outcome VectorLinear 1%N (mkDetails Bid 100 50) 40 10 b b'.
Proof.
  eexists.
  destruct (proj1 (C6_modify_order_on_a_present_level VectorLinear) c6_ops _ 1%N
              (mkDetails Bid 100 50) (mkLevel 100 80) 10 eq_refl) as (b' & Hb' & Hout).
  - by vm_compute.
  - vm_compute. left.
  - reflexivity.
  - by vm_compute.
  - by vm_compute.
  - by vm_compute.
  - exists b'. split; [reflexivity|]. split; [exact Hb'|exact Hout].
Defined.
(** ** C7: no level at zero or negative volume *)

(** C7 as stated fails: [AddOrder] never removes a level, so
    [addOrder(1, Bid, 100, 0)] leaves a level of volume 0 at price 100. *)
Lemma C7_counterexample :
  ¬ (∀ s ops b, after s ops = Ok b → no_empty_level s b).
Proof.
  intros H.
  specialize (H Vector [Add 1 Bid 100 0] _ eq_refl Bid (mkLevel 100 0)).
  simpl in H. assert (0 < 0); [|lia]. apply H. vm_compute. left.
Qed.

(** C7 (amended): after every operation of a sequence whose [AddOrder] calls
    all carry a strictly positive volume, no level with volume ≤ 0 is present
    on either side of any book: [ModifyOrder] and [DeleteOrder] erase a level
    in the operation that drives its volume to ≤ 0. *)
Theorem C7_no_empty_level_after_positive_adds (s : Strategy) (ops : list Op)
    (b : book_state s) :
  Forall add_positive ops → after s ops = Ok b → no_empty_level s b.
Proof.
  intros Hops Hrun sd lv. rewrite levels_view. revert sd lv.
  apply (after_invariant levels_positive add_positive s ops b); [| |done..].
  - intros op b0 b1. apply apply_op_levels_positive; apply _.
  - apply levels_positive_empty.
Qed.

Lemma C7_witness :
  after VectorBranchless [Add 1 Bid 100 50; Modify 1 0] = Ok empty_book ∧
  no_empty_level VectorBranchless empty_book.
Proof.
  split; [reflexivity|].
  apply (C7_no_empty_level_after_positive_adds VectorBranchless
           [Add 1 Bid 100 50; Modify 1 0]).
  - repeat constructor.
  - reflexivity.
Defined.

(** ** C8: live orders have positive volume *)

(** C8 as stated fails: [ModifyOrder] looks at the volume of the level, not
    of the order.  With orders 1 and 2 on one level, [modifyOrder(1, 0)]
    leaves the level at 30 and order 1 registered with volume 0. *)
Lemma C8_counterexample :
  ¬ (∀ s ops b, after s ops = Ok b → live_orders_positive s b).
Proof.
  intros H.
  specialize (H Vector [Add 1 Bid 100 50; Add 2 Bid 100 30; Modify 1 0] _ eq_refl
                1%N (mkDetails Bid 100 0)).
  assert (0 < 0); [|lia]. apply H. by vm_compute.
Qed.

(** C8 (amended): after every operation of a sequence whose [AddOrder] and
    [ModifyOrder] calls all carry a strictly positive volume, every registered
    order has [originalVolume > 0].  What removes an order in [ModifyOrder] is
    the volume of its level, not its own: for every registered order whose
    level is present, [ModifyOrder] (within the 64-bit range and, in
    [OrderBookMap], through an iterator that has not been erased) removes
    the order when the level's volume plus [newVolume − originalVolume] is
    ≤ 0, and otherwise keeps it registered with [newVolume], also when
    [newVolume ≤ 0].  In particular [addOrder(1, Bid, 100, 50)] followed by
    [modifyOrder(1, -5)] leaves no registered order. *)
Theorem C8_live_orders_positive_after_positive_volumes (s : Strategy) :
  (∀ ops b, Forall volumes_positive ops → after s ops = Ok b → live_orders_positive s b) ∧
  (∀ ops b orderId d lv newVolume,
     after s ops = Ok b →
     registry s b !! orderId = Some d →
     lv ∈ levels s (side d) b → price lv = order_price d →
     @ModifyOrder _ (strategy_book s) orderId newVolume b ≠ Undefined InvalidIterator →
     INT64_MIN ≤ newVolume - originalVolume d ≤ INT64_MAX →
     INT64_MIN ≤ volume lv + (newVolume - originalVolume d) ≤ INT64_MAX →
     ∃ b', @ModifyOrder _ (strategy_book s) orderId newVolume b = Ok b' ∧
           (volume lv + (newVolume - originalVolume d) ≤ 0 →
            registry s b' !! orderId = None) ∧
           (0 < volume lv + (newVolume - originalVolume d) →
            registry s b' !! orderId = Some (mkDetails (side d) (order_price d) newVolume))) ∧
  (∃ b, after s [Add 1 Bid 100 50; Modify 1 (-5)] = Ok b ∧ registry s b = ∅).
Proof.
  split_and!.
  - intros ops b Hops Hrun id d. rewrite registry_view. revert id d.
    apply (after_invariant (λ b, orders_positive (mOrders b)) volumes_positive s ops b);
      [| |done..].
    + intros op b0 b1. apply apply_op_orders_positive; apply _.
    + intros id d Hd. simpl in Hd. by rewrite lookup_empty in Hd.
  - intros ops b orderId d lv newVolume Hrun Hd Hlv Hp Hnot Hdiff Hagg.
    destruct (strategy_modify_found s ops b orderId d lv newVolume Hrun Hd Hlv Hp Hnot Hdiff Hagg)
      as (b' & Hb' & _ & Hout).
    exists b'. split; [done|]. split; intros Hcase.
    + rewrite decide_True in Hout by done. rewrite (proj1 Hout). apply lookup_delete_eq.
    + rewrite decide_False in Hout by lia. rewrite (proj1 Hout). apply lookup_insert_eq.
  - destruct s; eexists; (split; [reflexivity|]); by vm_compute.
Qed.

Lemma C8_witness :
  (∃ b, after StdMap [Add 1 Bid 100 50; Modify 1 20] = Ok b ∧
        live_orders_positive StdMap b) ∧
  ∃ b', @ModifyOrder _ (strategy_book VectorLinear) 1%N (-40) c6_vector_book = Ok b' ∧
        (80 + (-40 - 50) ≤ 0 → registry VectorLinear b' !! 1%N = None) ∧
        (0 < 80 + (-40 - 50) →
         registry VectorLinear b' !! 1%N = Some (mkDetails Bid 100 (-40))).
Proof.
  split.
  - eexists. split; [reflexivity|].
    apply (proj1 (C8_live_orders_positive_after_positive_volumes StdMap)
             [Add 1 Bid 100 50; Modify 1 20]).
    + repeat constructor; simpl; lia.
    + reflexivity.
  - apply (proj1 (proj2 (C8_live_orders_positive_after_positive_volumes VectorLinear))
             c6_ops c6_vector_book 1%N (mkDetails Bid 100 50) (mkLevel 100 80) (-40)).
    + reflexivity.
    + by vm_compute.
    + vm_compute. left.
    + reflexivity.
    + by vm_compute.
    + by vm_compute.
    + by vm_compute.
Defined.

(** ** C9: the branchless search *)

(** C9: on every array strictly sorted under a (transitive) comparator and for
    every probe value, [branchless_lower_bound] returns the position that
    [std::lower_bound] returns; and on every operation sequence
    [OrderBookVectorBranchless] goes through the same states, and reports the
    same best prices, as [OrderBookVectorEfficient]. *)
Theorem C9_branchless_search_agrees_with_lower_bound :
  (∀ (A : Type) (comp : A → A → bool) (l : list A) (value : A),
     (∀ x y z, comp x y = true → comp y z = true → comp x z = true) →
     StronglySorted (λ x y, comp x y = true) l →
     branchless_lower_bound comp l value = lower_bound comp l value) ∧
  (∀ ops : list Op,
     after VectorBranchless ops = after VectorEfficient ops ∧
     prices_after VectorBranchless ops = prices_after VectorEfficient ops).
Proof.
  split.
  - intros A comp l value Htrans Hs.
    pose proof (sorted_is_partitioned comp l value Htrans Hs) as Hpart.
    by rewrite branchless_lower_bound_spec, lower_bound_spec.
  - intros ops.
    assert (after VectorBranchless ops = after VectorEfficient ops) as Heq.
    { unfold after. simpl.
      rewrite (run_any_search less greater back branchless_lower_bound branchless_SearchSpec)
        by apply wf_empty.
      by rewrite (run_any_search less greater back lower_bound lower_bound_SearchSpec)
        by apply wf_empty. }
    split; [done|]. unfold prices_after. by rewrite Heq.
Qed.

Lemma C9_witness :
  branchless_lower_bound less [10; 20; 30; 40; 50] 35 = lower_bound less [10; 20; 30; 40; 50] 35.
Proof.
  apply (proj1 C9_branchless_search_agrees_with_lower_bound Z less [10; 20; 30; 40; 50] 35).
  - unfold less. intros x y z; lia.
  - repeat constructor.
Defined.

(** ** C10: no-op calls *)

(** C10: [AddOrder] with a registered id, and [ModifyOrder] and [DeleteOrder]
    with an unregistered id, return the book they were given, in every
    strategy and from every state. *)
Theorem C10_noop_calls_leave_the_book_unchanged (s : Strategy) (b : book_state s) (orderId : N) :
  (is_Some (registry s b !! orderId) →
   ∀ sd p vol, @AddOrder _ (strategy_book s) orderId sd p vol b = Ok b) ∧
  (registry s b !! orderId = None →
   (∀ newVolume, @ModifyOrder _ (strategy_book s) orderId newVolume b = Ok b) ∧
   @DeleteOrder _ (strategy_book s) orderId b = Ok b).
Proof.
  destruct s; simpl.
  - rewrite lookup_fmap. unfold OrderBookMap.AddOrder, OrderBookMap.ModifyOrder,
      OrderBookMap.DeleteOrder.
    destruct (OrderBookMap.mOrders b !! orderId); simpl; split; try done;
      by intros [? [=]].
  - unfold bs_AddOrder, bs_ModifyOrder, bs_DeleteOrder.
    destruct (mOrders b !! orderId); split; try done; by intros [? [=]].
  - unfold bs_AddOrder, bs_ModifyOrder, bs_DeleteOrder.
    destruct (mOrders b !! orderId); split; try done; by intros [? [=]].
  - unfold bs_AddOrder, bs_ModifyOrder, bs_DeleteOrder.
    destruct (mOrders b !! orderId); split; try done; by intros [? [=]].
  - unfold OrderBookVectorLinear.AddOrder, OrderBookVectorLinear.ModifyOrder,
      OrderBookVectorLinear.DeleteOrder.
    destruct (mOrders b !! orderId); split; try done; by intros [? [=]].
Qed.

Lemma C10_witness :
  @AddOrder _ (strategy_book VectorLinear) 7%N Ask 90 10 c10_book = Ok c10_book ∧
  @ModifyOrder _ (strategy_book VectorLinear) 8%N 5 c10_book = Ok c10_book ∧
  @DeleteOrder _ (strategy_book VectorLinear) 8%N c10_book = Ok c10_book.
Proof.
  destruct (C10_noop_calls_leave_the_book_unchanged VectorLinear c10_book 7%N) as [Hadd _].
  destruct (C10_noop_calls_leave_the_book_unchanged VectorLinear c10_book 8%N) as [_ Hrest].
  split; [apply Hadd; by eexists|].
  destruct Hrest as [Hmod Hdel]; [reflexivity|]. split; [apply Hmod|apply Hdel].
Defined.

(** * Further properties of the program *)

(** ** The branchless search *)

Lemma branchless_loop_le {A} (comp : A → A → bool) l v fuel first len :
  (first ≤ branchless_loop fuel comp l v first len ≤ first + len)%nat.
Proof.
  revert first len. induction fuel as [|fuel IH]; intros first len; [simpl; lia|].
  cbn [branchless_loop]. destruct (Nat.eqb_spec len 0) as [->|Hlen]; [lia|].
  pose proof (Nat.Div0.div_le_upper_bound len 2 len ltac:(lia)) as Hhalf.
  specialize (IH (first + Nat.b2n (comp_at comp l (first + len / 2) v) * (len - len / 2))%nat
                 (len / 2)%nat).
  destruct (comp_at comp l (first + len / 2) v); cbn [Nat.b2n] in *; lia.
Qed.

(** X1: on a vector partitioned by [comp(·, value)] (in particular on a sorted
    one) [branchless_lower_bound] returns the lower bound of [value]: every
    element before the returned position compares before [value], and no
    element from that position on does. *)
Theorem X1_branchless_lower_bound_is_the_partition_point {A} (comp : A → A → bool)
    (l : list A) (value : A) :
  partitioned (λ y, comp y value) l →
  (branchless_lower_bound comp l value ≤ length l)%nat ∧
  (∀ i x, (i < branchless_lower_bound comp l value)%nat → l !! i = Some x →
          comp x value = true) ∧
  (∀ i x, (branchless_lower_bound comp l value ≤ i)%nat → l !! i = Some x →
          comp x value = false).
Proof.
  intros Hpart. rewrite branchless_lower_bound_spec by done. split_and!.
  - apply find_if_le.
  - intros i x. apply (partitioned_before (λ y, comp y value)).
  - intros i x. by apply (partitioned_after (λ y, comp y value)).
Qed.

Lemma X1_witness :
  (branchless_lower_bound less sample_prices 35%Z ≤ length sample_prices)%nat ∧
  (∀ i x, (i < branchless_lower_bound less sample_prices 35%Z)%nat →
          sample_prices !! i = Some x → less x 35%Z = true) ∧
  (∀ i x, (branchless_lower_bound less sample_prices 35%Z ≤ i)%nat →
          sample_prices !! i = Some x → less x 35%Z = false).
Proof.
  apply (X1_branchless_lower_bound_is_the_partition_point less sample_prices 35).
  apply sorted_is_partitioned.
  - unfold less. intros x y z; lia.
  - repeat constructor.
Defined.

(** X2: whatever the vector holds, sorted or not, [branchless_lower_bound]
    returns a position of the vector or its end, never a position beyond. *)
Theorem X2_branchless_lower_bound_stays_in_range {A} (comp : A → A → bool)
    (l : list A) (value : A) :
  (branchless_lower_bound comp l value ≤ length l)%nat.
Proof.
  unfold branchless_lower_bound.
  pose proof (branchless_loop_le comp l value (length l) 0%nat (length l)). lia.
Qed.

(** ** Order of the levels *)

(** X3: after every operation sequence the levels of each side are stored in
    strict price order, so no price occurs twice on a side: downward for the
    bids and upward for the asks of [OrderBookMap] and [OrderBookVector], the
    other way round in the three books that read their best price at the
    back. *)
Theorem X3_levels_strictly_ordered (s : Strategy) (ops : list Op) (b : book_state s)
    (sd : Side) (i j : nat) (x y : PriceLevel) :
  after s ops = Ok b →
  (i < j)%nat → levels s sd b !! i = Some x → levels s sd b !! j = Some y →
  if runs_downward s sd then price y < price x else price x < price y.
Proof.
  intros Hrun Hij Hi Hj. pose proof (after_wf s ops b Hrun sd) as Hsorted.
  rewrite levels_view in Hi, Hj.
  assert (side_comp (bid_comp_of s) (ask_comp_of s) sd (price x) (price y) = true) as Hc.
  { apply (sorted_prices_lookup _ (price <$> levels_of sd (view s b)) i j); [done..| |].
    - by rewrite list_lookup_fmap, Hi.
    - by rewrite list_lookup_fmap, Hj. }
  destruct s, sd; simpl in Hc |- *; unfold less, greater in Hc; lia.
Qed.

Lemma X3_witness :
  ∃ b, after VectorEfficient [Add 1 Bid 100 10; Add 2 Bid 105 10; Add 3 Bid 95 10] = Ok b ∧
       ∃ x y, levels VectorEfficient Bid b !! 0%nat = Some x ∧
              levels VectorEfficient Bid b !! 2%nat = Some y ∧ price x < price y.
Proof.
  eexists. split; [reflexivity|]. eexists _, _. split; [reflexivity|]. split; [reflexivity|].
  eapply (X3_levels_strictly_ordered VectorEfficient
           [Add 1 Bid 100 10; Add 2 Bid 105 10; Add 3 Bid 95 10] _ Bid 0 2).
  - reflexivity.
  - lia.
  - reflexivity.
  - reflexivity.
Defined.

(** ** Instances of the two agreement theorems *)

Lemma vector_books_agree_witness :
  prices_after Vector c1_ops = prices_after VectorBranchless c1_ops.
Proof. apply (vector_books_agree Vector VectorBranchless c1_ops); discriminate. Defined.

Lemma map_book_agrees_when_defined_witness :
  prices_after VectorLinear c6_ops = Ok (best_prices StdMap c6_map_book).
Proof. apply (map_book_agrees_when_defined VectorLinear c6_ops). by vm_compute. Defined.

(** ** [OrderBookMap] on operations with positive volumes *)

Lemma checked_Undefined z why : checked z = Undefined why → why = SignedOverflow.
Proof. unfold checked. destruct (in_int64 z); congruence. Qed.

Lemma find_if_is_Some {A} (q : A → bool) (l : list A) z :
  z ∈ l → q z = true → is_Some (l !! find_if q l).
Proof.
  intros Hz Hq. destruct (l !! find_if q l) eqn:Hl; [by eexists|].
  pose proof (find_if_None_all q l Hl z Hz). congruence.
Qed.

Lemma deref_valid (nodes : list OrderBookMap.Node) n :
  n ∈ nodes →
  ∃ i n', OrderBookMap.deref (Some (OrderBookMap.addr n)) nodes = Ok (i, n').
Proof.
  intros Hn. unfold OrderBookMap.deref.
  destruct (find_if_is_Some (λ n0, (OrderBookMap.addr n0 =? OrderBookMap.addr n)%nat) nodes n Hn)
    as [n' Hn']; [by apply Nat.eqb_refl|].
  rewrite Hn'. by eexists _, _.
Qed.

Section MapOverflow.
Local Abbreviation canonical := (bs_book partition_point greater less front).
Local Abbreviation wf := (wf greater less).

(** Where [OrderBookMap] overflows, [OrderBookVector] overflows too. *)
Lemma map_AddOrder_overflow orderId s p vol m :
  OrderBookMap.AddOrder orderId s p vol m = Undefined SignedOverflow →
  bs_AddOrder partition_point greater less orderId s p vol (forget m) =
    Undefined SignedOverflow.
Proof.
  rewrite map_AddOrder_eq. unfold bs_AddOrder, bs_AddOrderImpl.
  change (mOrders (forget m)) with (OrderBookMap.details_of <$> OrderBookMap.mOrders m).
  rewrite lookup_fmap.
  destruct (OrderBookMap.mOrders m !! orderId) as [d|] eqn:Hd; simpl; [done|].
  change (partition_point (by_price (side_comp greater less s)) (levels_of s (forget m))
            (mkLevel p 0))
    with (position (map_comp s) p (levels_of s (forget m))).
  rewrite position_forget, levels_of_forget, list_lookup_fmap.
  unfold OrderBookMap.add_level, OrderBookMap.try_emplace.
  set (i := find_if _ (nodes_of s m)).
  assert (i ≤ length (nodes_of s m))%nat as Hle by apply find_if_le.
  destruct (nodes_of s m !! i) as [n|] eqn:Hi; simpl.
  2: { by rewrite lookup_vector_insert by done. }
  destruct (Z.eqb_spec (OrderBookMap.first n) p) as [Hp|Hp]; simpl.
  2: { by rewrite lookup_vector_insert by done. }
  rewrite Hi. destruct (checked (OrderBookMap.second n + vol)); simpl; [done|by intros [= ->]].
Qed.

Lemma map_ModifyOrder_overflow orderId newVolume m :
  map_wf m → wf (forget m) →
  OrderBookMap.ModifyOrder orderId newVolume m = Undefined SignedOverflow →
  bs_ModifyOrder partition_point greater less orderId newVolume (forget m) =
    Undefined SignedOverflow.
Proof.
  intros Hm Hwf. rewrite map_ModifyOrder_eq. unfold bs_ModifyOrder.
  change (mOrders (forget m)) with (OrderBookMap.details_of <$> OrderBookMap.mOrders m).
  rewrite lookup_fmap.
  destruct (OrderBookMap.mOrders m !! orderId) as [d|] eqn:Hd; simpl; [|done].
  destruct (checked (newVolume - OrderBookMap.originalVolume d)) as [diff|w]; simpl;
    [|by intros [= ->]].
  destruct (OrderBookMap.deref _ _) as [[i n]|w] eqn:Hderef; simpl.
  2: { intros [= ->]. by apply deref_Undefined in Hderef. }
  apply deref_Ok in Hderef as [Hi Hit].
  assert (n ∈ nodes_of (OrderBookMap.side d) m) as Hn by (by eapply list_elem_of_lookup_2).
  destruct Hm as (Hnd & Hlt & Hiter).
  destruct (Hiter _ _ _ Hd Hit) as [_ Hfirst]. specialize (Hfirst n Hn eq_refl).
  change (partition_point (by_price (side_comp greater less (OrderBookMap.side d)))
            (levels_of (OrderBookMap.side d) (forget m)) (mkLevel (OrderBookMap.price d) 0))
    with (position (map_comp (OrderBookMap.side d)) (OrderBookMap.price d)
            (levels_of (OrderBookMap.side d) (forget m))).
  rewrite <- Hfirst, (position_of_node _ _ _ _ Hwf Hi).
  rewrite levels_of_forget, list_lookup_fmap, Hi. simpl. rewrite Z.eqb_refl.
  destruct (checked (OrderBookMap.second n + diff)) as [v|w]; simpl; [|by intros [= ->]].
  by destruct (v <=? 0).
Qed.

Lemma map_DeleteOrder_overflow orderId m :
  map_wf m → wf (forget m) →
  OrderBookMap.DeleteOrder orderId m = Undefined SignedOverflow →
  bs_DeleteOrder partition_point greater less orderId (forget m) = Undefined SignedOverflow.
Proof.
  intros Hm Hwf. rewrite map_DeleteOrder_eq. unfold bs_DeleteOrder.
  change (mOrders (forget m)) with (OrderBookMap.details_of <$> OrderBookMap.mOrders m).
  rewrite lookup_fmap.
  destruct (OrderBookMap.mOrders m !! orderId) as [d|] eqn:Hd; simpl; [|done].
  destruct (OrderBookMap.deref _ _) as [[i n]|w] eqn:Hderef; simpl.
  2: { intros [= ->]. by apply deref_Undefined in Hderef. }
  apply deref_Ok in Hderef as [Hi Hit].
  assert (n ∈ nodes_of (OrderBookMap.side d) m) as Hn by (by eapply list_elem_of_lookup_2).
  destruct Hm as (Hnd & Hlt & Hiter).
  destruct (Hiter _ _ _ Hd Hit) as [_ Hfirst]. specialize (Hfirst n Hn eq_refl).
  change (partition_point (by_price (side_comp greater less (OrderBookMap.side d)))
            (levels_of (OrderBookMap.side d) (forget m)) (mkLevel (OrderBookMap.price d) 0))
    with (position (map_comp (OrderBookMap.side d)) (OrderBookMap.price d)
            (levels_of (OrderBookMap.side d) (forget m))).
  rewrite <- Hfirst, (position_of_node _ _ _ _ Hwf Hi).
  rewrite levels_of_forget, list_lookup_fmap, Hi. simpl. rewrite Z.eqb_refl.
  destruct (checked (OrderBookMap.second n - OrderBookMap.originalVolume d)); simpl;
    [done|by intros [= ->]].
Qed.

Lemma map_apply_op_overflow op m :
  map_inv m → apply_op OrderBookMap.book op m = Undefined SignedOverflow →
  apply_op canonical op (forget m) = Undefined SignedOverflow.
Proof.
  intros [Hm Hwf]. destruct op; simpl;
    eauto using map_AddOrder_overflow, map_ModifyOrder_overflow, map_DeleteOrder_overflow.
Qed.

(** *** Cached iterators stay valid *)

Lemma iterators_valid_store s nodes orders fresh m :
  (∀ orderId d, orders !! orderId = Some d →
     ∃ n, n ∈ (if decide (OrderBookMap.side d = s) then nodes
               else nodes_of (OrderBookMap.side d) m) ∧
          iterator_of (OrderBookMap.side d) d = Some (OrderBookMap.addr n)) →
  iterators_valid (map_store s nodes orders fresh m).
Proof.
  intros H orderId d. rewrite mOrders_map_store, nodes_of_map_store. apply H.
Qed.

Lemma nodes_update_keeps (nodes : list OrderBookMap.Node) i n v z :
  nodes !! i = Some n → z ∈ nodes →
  ∃ z', z' ∈ <[i := OrderBookMap.mkNode (OrderBookMap.first n) v (OrderBookMap.addr n)]> nodes ∧
        OrderBookMap.addr z' = OrderBookMap.addr z.
Proof.
  intros Hi Hz. apply list_elem_of_lookup in Hz as (j & Hj).
  destruct (decide (j = i)) as [->|Hne].
  - assert (z = n) as -> by congruence.
    exists (OrderBookMap.mkNode (OrderBookMap.first n) v (OrderBookMap.addr n)).
    split; [|done]. eapply list_elem_of_lookup_2. apply list_lookup_insert_eq. by eapply lookup_lt_Some.
  - exists z. split; [|done]. eapply list_elem_of_lookup_2.
    by rewrite list_lookup_insert_ne.
Qed.

Lemma iterator_of_set_volume s newVolume d :
  iterator_of s (OrderBookMap.set_volume newVolume d) = iterator_of s d.
Proof. by destruct s. Qed.

(** The volume of the node of a registered order, by the registry. *)
Lemma node_volume m orderId d n :
  map_wf m → consistent (forget m) →
  OrderBookMap.mOrders m !! orderId = Some d →
  n ∈ nodes_of (OrderBookMap.side d) m →
  iterator_of (OrderBookMap.side d) d = Some (OrderBookMap.addr n) →
  OrderBookMap.first n = OrderBookMap.price d ∧
  OrderBookMap.second n =
    level_sum (delete orderId (mOrders (forget m))) (OrderBookMap.side d) (OrderBookMap.price d)
    + OrderBookMap.originalVolume d ∧
  0 < OrderBookMap.originalVolume d.
Proof.
  intros (Hnd & Hlt & Hiter) (Hagg & Hlvl & Hpos) Hd Hn Hit.
  destruct (Hiter _ _ _ Hd Hit) as [_ Hfirst]. specialize (Hfirst n Hn eq_refl).
  assert (mOrders (forget m) !! orderId = Some (OrderBookMap.details_of d)) as Hd'.
  { simpl. by rewrite lookup_fmap, Hd. }
  split; [done|]. split; [|exact (Hpos _ _ Hd')].
  pose proof (Hagg (OrderBookMap.side d) (OrderBookMap.level_of_node n)) as Hvol.
  rewrite levels_of_forget in Hvol. specialize (Hvol (list_elem_of_fmap_2 _ _ _ Hn)).
  simpl in Hvol. rewrite Hvol, Hfirst.
  rewrite (level_sum_delete _ orderId _ _ _ Hd').
  by rewrite (contribution_at (OrderBookMap.details_of d)).
Qed.

Lemma map_AddOrder_valid orderId s p vol m :
  iterators_valid m →
  OrderBookMap.AddOrder orderId s p vol m ≠ Undefined InvalidIterator ∧
  ∀ m', OrderBookMap.AddOrder orderId s p vol m = Ok m' → iterators_valid m'.
Proof.
  intros Hval. rewrite map_AddOrder_eq.
  destruct (OrderBookMap.mOrders m !! orderId) as [d|] eqn:Hd; [by split; [|intros m' [= <-]]|].
  unfold OrderBookMap.add_level, OrderBookMap.try_emplace, emplace. rewrite Hd.
  set (i := find_if _ (nodes_of s m)).
  assert (i ≤ length (nodes_of s m))%nat as Hle by apply find_if_le.
  destruct (new_details_facts s p vol (OrderBookMap.next_addr m)) as (Hs & _ & Hit).
  assert (∀ orderId' d', OrderBookMap.mOrders m !! orderId' = Some d' →
            ∀ nodes, (∀ z, z ∈ nodes_of s m → ∃ z', z' ∈ nodes ∧
                              OrderBookMap.addr z' = OrderBookMap.addr z) →
            ∃ n, n ∈ (if decide (OrderBookMap.side d' = s) then nodes
                      else nodes_of (OrderBookMap.side d') m) ∧
                 iterator_of (OrderBookMap.side d') d' = Some (OrderBookMap.addr n)) as Hold.
  { intros id' d' Hd' nodes Hnodes. destruct (Hval _ _ Hd') as (n & Hn & Hitn).
    destruct (decide (OrderBookMap.side d' = s)) as [Hsd|Hsd]; [|by exists n].
    rewrite Hsd in Hn. destruct (Hnodes n Hn) as (z' & Hz' & Haddr).
    exists z'. split; [done|]. by rewrite Haddr. }
  assert (
    (match vector_insert i (OrderBookMap.mkNode p vol (OrderBookMap.next_addr m))
             (nodes_of s m) !! i with
     | Some n =>
         Ok (vector_insert i (OrderBookMap.mkNode p vol (OrderBookMap.next_addr m))
               (nodes_of s m), OrderBookMap.addr n, S (OrderBookMap.next_addr m))
     | None => Undefined InvalidIterator
     end ≫= λ '(nodes, it, fresh),
       Ok (map_store s nodes
             (<[orderId := new_details s p vol it]> (OrderBookMap.mOrders m)) fresh m))
    ≠ Undefined InvalidIterator ∧
    ∀ m',
    (match vector_insert i (OrderBookMap.mkNode p vol (OrderBookMap.next_addr m))
             (nodes_of s m) !! i with
     | Some n =>
         Ok (vector_insert i (OrderBookMap.mkNode p vol (OrderBookMap.next_addr m))
               (nodes_of s m), OrderBookMap.addr n, S (OrderBookMap.next_addr m))
     | None => Undefined InvalidIterator
     end ≫= λ '(nodes, it, fresh),
       Ok (map_store s nodes
             (<[orderId := new_details s p vol it]> (OrderBookMap.mOrders m)) fresh m))
    = Ok m' → iterators_valid m') as Hins.
  { rewrite lookup_vector_insert by done. simpl. split; [done|]. intros m' [= <-].
    apply iterators_valid_store. intros id' d' Hd'.
    apply lookup_insert_Some in Hd' as [[_ <-]|[_ Hd']].
    - rewrite Hs, Hit, decide_True by done.
      exists (OrderBookMap.mkNode p vol (OrderBookMap.next_addr m)). split; [|done].
      apply elem_of_vector_insert. by left.
    - apply (Hold _ _ Hd'). intros z Hz. exists z. split; [|done].
      apply elem_of_vector_insert. by right. }
  destruct (nodes_of s m !! i) as [n|] eqn:Hi; simpl; [|exact Hins].
  destruct (Z.eqb_spec (OrderBookMap.first n) p) as [Hp|Hp]; simpl; [|exact Hins].
  rewrite Hi.
  destruct (checked (OrderBookMap.second n + vol)) as [v|w] eqn:Hv; simpl.
  2: { apply checked_Undefined in Hv as ->. by split. }
  split; [done|]. intros m' [= <-].
  destruct (new_details_facts s p vol (OrderBookMap.addr n)) as (Hs' & _ & Hit').
  apply iterators_valid_store. intros id' d' Hd'.
  apply lookup_insert_Some in Hd' as [[_ <-]|[_ Hd']].
  - rewrite Hs', Hit', decide_True by done.
    exists (OrderBookMap.mkNode (OrderBookMap.first n) v (OrderBookMap.addr n)).
    split; [|done]. eapply list_elem_of_lookup_2.
    apply list_lookup_insert_eq. by eapply lookup_lt_Some.
  - apply (Hold _ _ Hd'). intros z Hz. by eapply nodes_update_keeps.
Qed.

Lemma map_ModifyOrder_valid orderId newVolume m :
  0 < newVolume → map_wf m → consistent (forget m) → iterators_valid m →
  OrderBookMap.ModifyOrder orderId newVolume m ≠ Undefined InvalidIterator ∧
  ∀ m', OrderBookMap.ModifyOrder orderId newVolume m = Ok m' → iterators_valid m'.
Proof.
  intros Hnv Hm Hcons Hval. rewrite map_ModifyOrder_eq.
  destruct (OrderBookMap.mOrders m !! orderId) as [d|] eqn:Hd; [|by split; [|intros m' [= <-]]].
  cbv zeta.
  destruct (checked (newVolume - OrderBookMap.originalVolume d)) as [diff|w] eqn:Hdiff; simpl.
  2: { apply checked_Undefined in Hdiff as ->. by split. }
  apply checked_Ok in Hdiff as [-> _].
  destruct (Hval _ _ Hd) as (n0 & Hn0 & Hit0). rewrite Hit0.
  destruct (deref_valid _ n0 Hn0) as (i & n & Hderef). rewrite Hderef. simpl.
  apply deref_Ok in Hderef as [Hi Hit].
  assert (n ∈ nodes_of (OrderBookMap.side d) m) as Hn by (by eapply list_elem_of_lookup_2).
  assert (iterator_of (OrderBookMap.side d) d = Some (OrderBookMap.addr n)) as Hitn by congruence.
  destruct (node_volume m orderId d n Hm Hcons Hd Hn Hitn) as (Hfirst & Hsecond & Hpos).
  destruct (checked (OrderBookMap.second n + (newVolume - OrderBookMap.originalVolume d)))
    as [v|w] eqn:Hv; simpl.
  2: { apply checked_Undefined in Hv as ->. by split. }
  apply checked_Ok in Hv as [-> _].
  assert (0 ≤ level_sum (delete orderId (mOrders (forget m))) (OrderBookMap.side d)
                (OrderBookMap.price d)) as Hothers.
  { apply level_sum_nonneg, orders_positive_delete, Hcons. }
  destruct (Z.leb_spec (OrderBookMap.second n + (newVolume - OrderBookMap.originalVolume d)) 0);
    [lia|].
  split; [done|]. intros m' [= <-].
  apply iterators_valid_store. intros id' d' Hd'.
  apply lookup_insert_Some in Hd' as [[_ <-]|[Hne Hd']].
  - simpl. rewrite decide_True by done. rewrite iterator_of_set_volume, Hitn.
    exists (OrderBookMap.mkNode (OrderBookMap.first n)
              (OrderBookMap.second n + (newVolume - OrderBookMap.originalVolume d))
              (OrderBookMap.addr n)).
    split; [|done]. eapply list_elem_of_lookup_2.
    apply list_lookup_insert_eq. by eapply lookup_lt_Some.
  - destruct (Hval _ _ Hd') as (n1 & Hn1 & Hit1).
    destruct (decide (OrderBookMap.side d' = OrderBookMap.side d)) as [Hsd|Hsd]; [|by exists n1].
    rewrite Hsd in Hn1. destruct (nodes_update_keeps _ i n
      (OrderBookMap.second n + (newVolume - OrderBookMap.originalVolume d)) n1 Hi Hn1)
      as (z' & Hz' & Haddr).
    exists z'. split; [done|]. by rewrite Haddr.
Qed.

Lemma map_DeleteOrder_valid orderId m :
  map_wf m → consistent (forget m) → iterators_valid m →
  OrderBookMap.DeleteOrder orderId m ≠ Undefined InvalidIterator ∧
  ∀ m', OrderBookMap.DeleteOrder orderId m = Ok m' → iterators_valid m'.
Proof.
  intros Hm Hcons Hval. rewrite map_DeleteOrder_eq.
  destruct (OrderBookMap.mOrders m !! orderId) as [d|] eqn:Hd; [|by split; [|intros m' [= <-]]].
  cbv zeta.
  destruct (Hval _ _ Hd) as (n0 & Hn0 & Hit0). rewrite Hit0.
  destruct (deref_valid _ n0 Hn0) as (i & n & Hderef). rewrite Hderef. simpl.
  apply deref_Ok in Hderef as [Hi Hit].
  assert (n ∈ nodes_of (OrderBookMap.side d) m) as Hn by (by eapply list_elem_of_lookup_2).
  assert (iterator_of (OrderBookMap.side d) d = Some (OrderBookMap.addr n)) as Hitn by congruence.
  destruct (node_volume m orderId d n Hm Hcons Hd Hn Hitn) as (Hfirst & Hsecond & Hpos).
  destruct (checked (OrderBookMap.second n - OrderBookMap.originalVolume d))
    as [v|w] eqn:Hv; simpl.
  2: { apply checked_Undefined in Hv as ->. by split. }
  apply checked_Ok in Hv as [-> _].
  split; [done|]. intros m' [= <-].
  apply iterators_valid_store. intros id' d' Hd'.
  apply lookup_delete_Some in Hd' as [Hne Hd'].
  destruct (Hval _ _ Hd') as (n1 & Hn1 & Hit1).
  destruct (decide (OrderBookMap.side d' = OrderBookMap.side d)) as [Hsd|Hsd]; [|by exists n1].
  rewrite Hsd in Hn1.
  destruct (Z.leb_spec (OrderBookMap.second n - OrderBookMap.originalVolume d) 0) as [Hle|Hgt].
  - exists n1. split; [|done].
    apply (elem_of_erase_keyed OrderBookMap.addr _ i n); [done|apply Hm|].
    split; [done|]. intros Haddr.
    (* the order [d'] would sit on the erased level, whose other orders sum to ≤ 0 *)
    assert (n1 = n) as -> by (eapply NoDup_addr_inj; [apply Hm|done..]).
    destruct Hm as (Hnd & Hlt & Hiter).
    destruct (Hiter _ _ _ Hd' Hit1) as [_ Hfirst']. rewrite Hsd in Hfirst'.
    specialize (Hfirst' n Hn eq_refl).
    assert (delete orderId (mOrders (forget m)) !! id' = Some (OrderBookMap.details_of d'))
      as Hd''.
    { rewrite lookup_delete_ne by done. simpl. by rewrite lookup_fmap, Hd'. }
    pose proof (level_sum_ge _ _ _ (orders_positive_delete _ orderId (proj2 (proj2 Hcons))) Hd'')
      as Hge.
    simpl in Hge, Hsecond. rewrite Hsd, <- Hfirst', Hfirst in Hge.
    assert (0 < OrderBookMap.originalVolume d') as Hpos'.
    { apply (proj2 (proj2 Hcons) id' (OrderBookMap.details_of d')).
      simpl. by rewrite lookup_fmap, Hd'. }
    lia.
  - destruct (nodes_update_keeps _ i n
      (OrderBookMap.second n - OrderBookMap.originalVolume d) n1 Hi Hn1) as (z' & Hz' & Haddr).
    exists z'. split; [done|]. by rewrite Haddr.
Qed.

Lemma map_apply_op_valid op m :
  volumes_positive op → map_inv m → consistent (forget m) → iterators_valid m →
  apply_op OrderBookMap.book op m ≠ Undefined InvalidIterator ∧
  ∀ m', apply_op OrderBookMap.book op m = Ok m' → iterators_valid m'.
Proof.
  intros Hop [Hm Hwf] Hcons Hval. destruct op; simpl in *.
  - by apply map_AddOrder_valid.
  - by apply map_ModifyOrder_valid.
  - by apply map_DeleteOrder_valid.
Qed.

Lemma iterators_valid_empty : iterators_valid OrderBookMap.empty.
Proof. intros orderId d Hd. simpl in Hd. by rewrite lookup_empty in Hd. Qed.

(** On operations with positive volumes [OrderBookMap] never uses an erased
    iterator, and goes wherever [OrderBookVector] goes. *)
Lemma map_run_positive ops m :
  Forall volumes_positive ops →
  map_inv m → consistent (forget m) → iterators_valid m →
  run OrderBookMap.book ops m ≠ Undefined InvalidIterator ∧
  result_map forget (run OrderBookMap.book ops m) = run canonical ops (forget m).
Proof.
  intros Hops. revert m. induction Hops as [|op ops Hop Hops IH]; intros m Hinv Hcons Hval.
  { by split. }
  rewrite !run_cons.
  destruct (map_apply_op_valid op m Hop Hinv Hcons Hval) as [Hnot Hstep].
  destruct (apply_op OrderBookMap.book op m) as [m1|[]] eqn:Hm1; simpl.
  - destruct (map_apply_op_sim _ _ _ Hinv Hm1) as [Hsim Hinv1]. rewrite Hsim. simpl.
    apply IH; [done| |by apply Hstep].
    exact (apply_op_consistent greater less front op _ _ Hop (proj2 Hinv) Hcons Hsim).
  - split; [done|]. by rewrite (map_apply_op_overflow _ _ Hinv Hm1).
  - done.
Qed.
End MapOverflow.

(** X6: on every operation sequence whose [AddOrder] and [ModifyOrder] calls
    carry strictly positive volumes, [OrderBookMap] never goes through the
    iterator of an erased node (a level is erased only when no registered
    order caches its iterator any more): the run returns a book, or stops at
    the signed overflow of a volume. *)
Theorem X6_map_never_uses_an_erased_iterator_on_positive_volumes (ops : list Op) :
  Forall volumes_positive ops →
  (∃ m, after StdMap ops = Ok m) ∨ after StdMap ops = Undefined SignedOverflow.
Proof.
  intros Hops.
  destruct (map_run_positive ops OrderBookMap.empty Hops) as [Hnot _].
  - apply map_inv_empty.
  - rewrite forget_empty. apply consistent_empty.
  - apply iterators_valid_empty.
  - unfold after. simpl.
    destruct (run OrderBookMap.book ops OrderBookMap.empty) as [m|[]]; [by left; exists m|by right|done].
Qed.

Lemma X6_witness :
  (∃ m, after StdMap [Add 1 Bid 100 50; Add 2 Bid 100 30; Modify 1 5; Delete 2; Delete 1] = Ok m) ∨
  after StdMap [Add 1 Bid 100 50; Add 2 Bid 100 30; Modify 1 5; Delete 2; Delete 1]
    = Undefined SignedOverflow.
Proof.
  apply (X6_map_never_uses_an_erased_iterator_on_positive_volumes
           [Add 1 Bid 100 50; Add 2 Bid 100 30; Modify 1 5; Delete 2; Delete 1]).
  repeat constructor; simpl; lia.
Defined.

(** ** Agreement of the five books *)

Lemma prices_after_abs s1 s2 ops :
  abs_after s1 ops = abs_after s2 ops → prices_after s1 ops = prices_after s2 ops.
Proof.
  unfold prices_after, abs_after.
  destruct (after s1 ops) as [b1|w1] eqn:Hb1, (after s2 ops) as [b2|w2] eqn:Hb2;
    simpl; try congruence.
  intros Habs. f_equal. apply best_prices_abs; [by eapply after_wf..|congruence].
Qed.

Lemma abs_after_positive s ops :
  Forall volumes_positive ops → abs_after s ops = abs_run ops abs_empty.
Proof.
  intros Hops. destruct (decide (s = StdMap)) as [->|Hs]; [|by apply abs_after_vector].
  unfold abs_after, after. simpl.
  destruct (map_run_positive ops OrderBookMap.empty Hops) as [_ Hsim].
  - apply map_inv_empty.
  - rewrite forget_empty. apply consistent_empty.
  - apply iterators_valid_empty.
  - rewrite forget_empty in Hsim.
    rewrite <- abs_empty_book, <- (refine_run greater less front ops empty_book), <- Hsim.
    + by destruct (run OrderBookMap.book ops OrderBookMap.empty).
    + apply wf_empty.
Qed.

(** X7: on every operation sequence whose [AddOrder] and [ModifyOrder] calls
    carry strictly positive volumes, all five books report the same best
    prices, and the behaviour of one is undefined exactly when the behaviour
    of the others is (a signed overflow of a level's volume). *)
Theorem X7_five_books_agree_on_positive_volumes (s1 s2 : Strategy) (ops : list Op) :
  Forall volumes_positive ops → prices_after s1 ops = prices_after s2 ops.
Proof.
  intros Hops. apply prices_after_abs. by rewrite !abs_after_positive.
Qed.

Lemma X7_witness :
  prices_after StdMap [Add 1 Bid 100 50; Add 2 Ask 101 30; Modify 1 5; Delete 2]
  = prices_after VectorLinear [Add 1 Bid 100 50; Add 2 Ask 101 30; Modify 1 5; Delete 2].
Proof.
  apply (X7_five_books_agree_on_positive_volumes StdMap VectorLinear
           [Add 1 Bid 100 50; Add 2 Ask 101 30; Modify 1 5; Delete 2]).
  repeat constructor; simpl; lia.
Defined.

(** ** A call on a strategy is a call on its sorted-vector book *)

Lemma reachable_inv_wf s b : reachable_inv s b → wf (bid_comp_of s) (ask_comp_of s) (view s b).
Proof. destruct s; simpl; try done. by intros [_ ?]. Qed.

Lemma reachable_inv_new s : reachable_inv s (new_book s).
Proof. destruct s; simpl; try apply wf_empty. apply map_inv_empty. Qed.

Lemma result_map_id {A} (r : result A) : result_map (λ a, a) r = r.
Proof. by destruct r. Qed.

Lemma map_apply_op_view op m :
  map_inv m →
  apply_op OrderBookMap.book op m ≠ Undefined InvalidIterator →
  result_map forget (apply_op OrderBookMap.book op m) =
    apply_op (bs_book partition_point greater less front) op (forget m).
Proof.
  intros Hinv Hnot.
  destruct (apply_op OrderBookMap.book op m) as [m'|[]] eqn:Hop; cbn [result_map].
  - by destruct (map_apply_op_sim _ _ _ Hinv Hop) as [-> _].
  - by rewrite (map_apply_op_overflow _ _ Hinv Hop).
  - done.
Qed.

(** Unless [OrderBookMap] uses an erased iterator, the call does to the view
    of the book what the call on the sorted-vector book does. *)
Lemma strategy_apply_op s op b :
  reachable_inv s b →
  apply_op (strategy_book s) op b ≠ Undefined InvalidIterator →
  result_map (view s) (apply_op (strategy_book s) op b) =
    apply_op (canonical_of s) op (view s b).
Proof.
  intros Hinv Hnot. destruct s; [by apply map_apply_op_view|..]; simpl in *.
  - rewrite result_map_id.
    apply (apply_op_any_search greater less front lower_bound lower_bound_SearchSpec op b Hinv).
  - rewrite result_map_id.
    apply (apply_op_any_search less greater back lower_bound lower_bound_SearchSpec op b Hinv).
  - rewrite result_map_id.
    apply (apply_op_any_search less greater back branchless_lower_bound branchless_SearchSpec
             op b Hinv).
  - rewrite result_map_id. apply (linear_apply_op op b Hinv).
Qed.

Lemma strategy_apply_op_Ok s op b vb' :
  reachable_inv s b →
  apply_op (strategy_book s) op b ≠ Undefined InvalidIterator →
  apply_op (canonical_of s) op (view s b) = Ok vb' →
  ∃ b', apply_op (strategy_book s) op b = Ok b' ∧ view s b' = vb'.
Proof.
  intros Hinv Hnot Hcanon. pose proof (strategy_apply_op s op b Hinv Hnot) as Heq.
  rewrite Hcanon in Heq. destruct (apply_op (strategy_book s) op b) as [b'|]; [|done].
  exists b'. split; [done|]. simpl in Heq. congruence.
Qed.

Lemma reachable_inv_step s op b b' :
  reachable_inv s b → apply_op (strategy_book s) op b = Ok b' → reachable_inv s b'.
Proof.
  intros Hinv Hop. destruct s.
  - by destruct (map_apply_op_sim _ _ _ Hinv Hop).
  - apply (apply_op_wf greater less front op b b' Hinv). etrans; [|exact Hop]. symmetry.
    apply (apply_op_any_search greater less front lower_bound lower_bound_SearchSpec op b Hinv).
  - apply (apply_op_wf less greater back op b b' Hinv). etrans; [|exact Hop]. symmetry.
    apply (apply_op_any_search less greater back lower_bound lower_bound_SearchSpec op b Hinv).
  - apply (apply_op_wf less greater back op b b' Hinv). etrans; [|exact Hop]. symmetry.
    apply (apply_op_any_search less greater back branchless_lower_bound branchless_SearchSpec
             op b Hinv).
  - apply (apply_op_wf less greater back op b b' Hinv). etrans; [|exact Hop]. symmetry.
    apply (linear_apply_op op b Hinv).
Qed.

Lemma reachable_inv_run s ops b b' :
  reachable_inv s b → run (strategy_book s) ops b = Ok b' → reachable_inv s b'.
Proof.
  revert b. induction ops as [|op ops IH]; intros b Hinv; [by intros [= <-]|].
  rewrite run_cons. intros Hrun. apply bind_Ok in Hrun as (b1 & Hb1 & Hrun).
  eapply IH; [|done]. by eapply reachable_inv_step.
Qed.

Lemma reachable_inv_after s ops b : after s ops = Ok b → reachable_inv s b.
Proof. apply reachable_inv_run, reachable_inv_new. Qed.

Lemma volumes_positive_add op : volumes_positive op → add_positive op.
Proof. by destruct op. Qed.

Lemma positive_inv_new s : positive_inv s (new_book s).
Proof.
  split; [apply reachable_inv_new|].
  destruct s; simpl; rewrite ?forget_empty;
    (split; [apply consistent_empty|split; [apply levels_positive_empty|]]);
    first [done|apply iterators_valid_empty].
Qed.

(** The vector-backed books have no iterator to lose. *)
Ltac split_cases :=
  repeat (match goal with
          | |- context [match ?x with _ => _ end] => destruct x
          end; simpl); done.

Lemma bs_apply_op_not_invalid search bid_comp ask_comp best op b :
  apply_op (bs_book search bid_comp ask_comp best) op b ≠ Undefined InvalidIterator.
Proof.
  destruct op; simpl; unfold bs_AddOrder, bs_AddOrderImpl, bs_ModifyOrder, bs_DeleteOrder,
    checked; split_cases.
Qed.

Lemma linear_apply_op_not_invalid op b :
  apply_op OrderBookVectorLinear.book op b ≠ Undefined InvalidIterator.
Proof.
  destruct op; simpl; unfold OrderBookVectorLinear.AddOrder, OrderBookVectorLinear.AddOrderImpl,
    OrderBookVectorLinear.ModifyOrder, OrderBookVectorLinear.DeleteOrder, checked; split_cases.
Qed.

Lemma vector_apply_op_not_invalid s op b :
  s ≠ StdMap → apply_op (strategy_book s) op b ≠ Undefined InvalidIterator.
Proof.
  intros Hs. destruct s; [done|..];
    first [apply bs_apply_op_not_invalid|apply linear_apply_op_not_invalid].
Qed.

(** On a book reached by positive volumes, a call with a positive volume
    does not use an erased iterator and keeps the invariant. *)
Lemma positive_inv_step s op b :
  volumes_positive op → positive_inv s b →
  apply_op (strategy_book s) op b ≠ Undefined InvalidIterator ∧
  ∀ b', apply_op (strategy_book s) op b = Ok b' → positive_inv s b'.
Proof.
  intros Hop (Hinv & Hcons & Hpos & Hval).
  assert (apply_op (strategy_book s) op b ≠ Undefined InvalidIterator) as Hnot.
  { destruct (decide (s = StdMap)) as [->|Hs]; [|by apply vector_apply_op_not_invalid].
    by apply map_apply_op_valid. }
  split; [done|]. intros b' Hb'.
  pose proof (strategy_apply_op s op b Hinv Hnot) as Heq. rewrite Hb' in Heq. simpl in Heq.
  symmetry in Heq. pose proof (reachable_inv_wf s b Hinv) as Hwf.
  split; [by eapply reachable_inv_step|]. split_and!.
  - exact (apply_op_consistent _ _ _ op _ _ Hop Hwf Hcons Heq).
  - exact (apply_op_levels_positive _ _ _ op _ _ (volumes_positive_add op Hop) Hwf Hpos Heq).
  - destruct s; try done. simpl in *.
    by apply (proj2 (map_apply_op_valid op b Hop Hinv Hcons Hval)).
Qed.

Lemma positive_inv_run s ops b b' :
  Forall volumes_positive ops → positive_inv s b →
  run (strategy_book s) ops b = Ok b' → positive_inv s b'.
Proof.
  intros Hops. revert b. induction Hops as [|op ops Hop Hops IH]; intros b Hinv.
  { by intros [= <-]. }
  rewrite run_cons. intros Hrun. apply bind_Ok in Hrun as (b1 & Hb1 & Hrun).
  eapply IH; [|done]. by eapply (positive_inv_step s op b).
Qed.

Lemma positive_inv_after s ops b :
  Forall volumes_positive ops → after s ops = Ok b → positive_inv s b.
Proof. intros Hops. by apply positive_inv_run, positive_inv_new. Qed.

(** ** What [AddOrder] and [DeleteOrder] do to the book *)

Lemma add_outcome_view s orderId sd p vol agg b b' :
  vec_add_outcome orderId sd p vol agg (view s b) (view s b') →
  add_outcome s orderId sd p vol agg b b'.
Proof.
  unfold vec_add_outcome, add_outcome. intros (Hreg & Hother & Hlv).
  rewrite !registry_view. split; [done|]. split.
  - intros sd' Hsd. rewrite !levels_view. by apply Hother.
  - intros z. rewrite !levels_view. apply Hlv.
Qed.

Lemma delete_outcome_view s orderId d agg b b' :
  vec_delete_outcome orderId d agg (view s b) (view s b') →
  delete_outcome s orderId d agg b b'.
Proof.
  unfold vec_delete_outcome, delete_outcome. intros (Hreg & Hother & Hlv).
  rewrite !registry_view. split; [done|]. split.
  - intros sd' Hsd. rewrite !levels_view. by apply Hother.
  - case_decide; intros z; rewrite !levels_view; apply Hlv.
Qed.

Lemma store_levels_of s b : store s (levels_of s b) (mOrders b) b = b.
Proof. by destruct s, b. Qed.

Lemma store_store s l o l' o' b : store s l o (store s l' o' b) = store s l o b.
Proof. by destruct s. Qed.

Lemma vector_erase_insert {A} (l : list A) i x :
  (i ≤ length l)%nat → vector_erase i (vector_insert i x l) = l.
Proof.
  intros Hi. unfold vector_erase, vector_insert.
  rewrite <- (length_take_le l i Hi) at 1. by rewrite delete_middle, take_drop.
Qed.

Section AddDelete.
Context (bid_comp ask_comp : Z → Z → bool).
Context `{!Comparator bid_comp, !Comparator ask_comp}.

Local Abbreviation comp_of := (side_comp bid_comp ask_comp).
Local Abbreviation wf := (wf bid_comp ask_comp).
Local Abbreviation addOrder := (bs_AddOrder partition_point bid_comp ask_comp).
Local Abbreviation deleteOrder := (bs_DeleteOrder partition_point bid_comp ask_comp).

Lemma addOrder_found orderId sd vol b lv :
  wf b → mOrders b !! orderId = None →
  lv ∈ levels_of sd b →
  INT64_MIN ≤ volume lv + vol ≤ INT64_MAX →
  ∃ i, levels_of sd b !! i = Some lv ∧
       addOrder orderId sd (price lv) vol b =
         Ok (store sd (<[i := mkLevel (price lv) (volume lv + vol)]> (levels_of sd b))
               (<[orderId := mkDetails sd (price lv) vol]> (mOrders b)) b).
Proof.
  intros Hwf Hd Hlv Hagg. apply list_elem_of_lookup in Hlv as (i & Hi).
  exists i. split; [done|].
  pose proof (position_found (comp_of sd) _ i lv (Hwf sd) Hi) as Hpos.
  unfold bs_AddOrder, bs_AddOrderImpl, emplace. rewrite Hd.
  change (partition_point (by_price (comp_of sd)) (levels_of sd b) (mkLevel (price lv) 0))
    with (position (comp_of sd) (price lv) (levels_of sd b)).
  by rewrite Hpos, Hi, Z.eqb_refl, (checked_in_range _ Hagg).
Qed.

Lemma addOrder_absent orderId sd p vol b :
  mOrders b !! orderId = None →
  (∀ lv, lv ∈ levels_of sd b → price lv ≠ p) →
  addOrder orderId sd p vol b =
    Ok (store sd (vector_insert (position (comp_of sd) p (levels_of sd b)) (mkLevel p vol)
                    (levels_of sd b))
          (<[orderId := mkDetails sd p vol]> (mOrders b)) b).
Proof.
  intros Hd Habs. unfold bs_AddOrder, bs_AddOrderImpl, emplace. rewrite Hd.
  change (partition_point (by_price (comp_of sd)) (levels_of sd b) (mkLevel p 0))
    with (position (comp_of sd) p (levels_of sd b)).
  destruct (levels_of sd b !! _) as [lv|] eqn:Hi; [|done].
  apply list_elem_of_lookup_2, Habs in Hi. apply Z.eqb_neq in Hi. by rewrite Hi.
Qed.

Lemma addOrder_found_outcome orderId sd vol b lv :
  wf b → mOrders b !! orderId = None →
  lv ∈ levels_of sd b →
  INT64_MIN ≤ volume lv + vol ≤ INT64_MAX →
  ∃ b', addOrder orderId sd (price lv) vol b = Ok b' ∧
        vec_add_outcome orderId sd (price lv) vol (volume lv + vol) b b'.
Proof.
  intros Hwf Hd Hlv Hagg.
  destruct (addOrder_found orderId sd vol b lv Hwf Hd Hlv Hagg) as (i & Hi & Hadd).
  eexists. split; [exact Hadd|]. unfold vec_add_outcome. rewrite mOrders_store.
  split; [done|]. split.
  - intros sd' Hsd. rewrite levels_of_store. by rewrite decide_False.
  - intros z. rewrite levels_of_store, decide_True by done.
    by apply (elem_of_update bid_comp ask_comp sd).
Qed.

Lemma addOrder_absent_outcome orderId sd p vol b :
  mOrders b !! orderId = None →
  (∀ lv, lv ∈ levels_of sd b → price lv ≠ p) →
  ∃ b', addOrder orderId sd p vol b = Ok b' ∧ vec_add_outcome orderId sd p vol vol b b'.
Proof.
  intros Hd Habs. eexists. split; [by apply addOrder_absent|].
  unfold vec_add_outcome. rewrite mOrders_store. split; [done|]. split.
  - intros sd' Hsd. rewrite levels_of_store. by rewrite decide_False.
  - intros z. rewrite levels_of_store, decide_True by done.
    rewrite elem_of_vector_insert. split; (intros [->|Hz]; [by left|right]).
    + split; [done|]. by apply Habs.
    + by destruct Hz.
Qed.

Lemma deleteOrder_found orderId b d lv :
  wf b → mOrders b !! orderId = Some d →
  lv ∈ levels_of (side d) b → price lv = order_price d →
  INT64_MIN ≤ volume lv - originalVolume d ≤ INT64_MAX →
  ∃ i, levels_of (side d) b !! i = Some lv ∧
       deleteOrder orderId b =
         Ok (store (side d)
               (if volume lv - originalVolume d <=? 0
                then vector_erase i (levels_of (side d) b)
                else <[i := mkLevel (price lv) (volume lv - originalVolume d)]>
                       (levels_of (side d) b))
               (delete orderId (mOrders b)) b).
Proof.
  intros Hwf Hd Hlv Hp Hagg. apply list_elem_of_lookup in Hlv as (i & Hi).
  exists i. split; [done|].
  pose proof (position_found (comp_of (side d)) _ i lv (Hwf (side d)) Hi) as Hpos.
  unfold bs_DeleteOrder. rewrite Hd.
  change (partition_point (by_price (comp_of (side d))) (levels_of (side d) b)
            (mkLevel (order_price d) 0))
    with (position (comp_of (side d)) (order_price d) (levels_of (side d) b)).
  rewrite <- Hp, Hpos, Hi, Z.eqb_refl, (checked_in_range _ Hagg). simpl.
  by destruct (_ <=? 0).
Qed.

Lemma deleteOrder_found_outcome orderId b d lv :
  wf b → mOrders b !! orderId = Some d →
  lv ∈ levels_of (side d) b → price lv = order_price d →
  INT64_MIN ≤ volume lv - originalVolume d ≤ INT64_MAX →
  ∃ b', deleteOrder orderId b = Ok b' ∧
        vec_delete_outcome orderId d (volume lv - originalVolume d) b b'.
Proof.
  intros Hwf Hd Hlv Hp Hagg.
  destruct (deleteOrder_found orderId b d lv Hwf Hd Hlv Hp Hagg) as (i & Hi & Hdel).
  eexists. split; [exact Hdel|]. unfold vec_delete_outcome. rewrite mOrders_store.
  split; [done|]. split.
  { intros sd' Hsd. rewrite levels_of_store. by rewrite decide_False. }
  destruct (Z.leb_spec (volume lv - originalVolume d) 0) as [Hle|Hgt].
  - rewrite decide_True by done. intros z. rewrite levels_of_store, decide_True by done.
    rewrite <- Hp. by apply (elem_of_erase bid_comp ask_comp (side d)).
  - rewrite decide_False by lia. intros z. rewrite levels_of_store, decide_True by done.
    rewrite <- Hp. by apply (elem_of_update bid_comp ask_comp (side d)).
Qed.

Lemma deleteOrder_absent orderId b d :
  mOrders b !! orderId = Some d →
  (∀ lv, lv ∈ levels_of (side d) b → price lv ≠ order_price d) →
  deleteOrder orderId b =
    Ok (store (side d) (levels_of (side d) b) (delete orderId (mOrders b)) b).
Proof.
  intros Hd Habs. unfold bs_DeleteOrder. rewrite Hd.
  destruct (levels_of (side d) b !! _) as [lv|] eqn:Hi; [|done].
  apply list_elem_of_lookup_2, Habs in Hi. apply Z.eqb_neq in Hi. by rewrite Hi.
Qed.

(** [AddOrder] of an unregistered id followed by [DeleteOrder] of that id. *)
Lemma add_then_delete orderId sd p vol b :
  wf b → levels_positive b → mOrders b !! orderId = None → 0 < vol →
  (∀ lv, lv ∈ levels_of sd b → price lv = p → volume lv + vol ≤ INT64_MAX) →
  ∃ b', addOrder orderId sd p vol b = Ok b' ∧ deleteOrder orderId b' = Ok b.
Proof.
  intros Hwf Hpos Hd Hvol Hagg.
  assert (delete orderId (<[orderId := mkDetails sd p vol]> (mOrders b)) = mOrders b) as Hreg.
  { by apply delete_insert_id. }
  assert (INT64_MIN < 0 ∧ 0 < INT64_MAX) as Hrange by (by vm_compute).
  destruct (decide (p ∈ price <$> levels_of sd b)) as [Hin|Hout].
  - (* the order joins a level *)
    apply list_elem_of_fmap in Hin as (lv & -> & Hlv).
    pose proof (Hpos sd lv Hlv) as Hv. pose proof (Hagg lv Hlv eq_refl) as Hmax.
    destruct (addOrder_found orderId sd vol b lv Hwf Hd Hlv ltac:(lia)) as (i & Hi & Hadd).
    eexists. split; [exact Hadd|].
    set (l1 := <[i := mkLevel (price lv) (volume lv + vol)]> (levels_of sd b)).
    set (b1 := store sd l1 _ b).
    assert (sorted (comp_of sd) l1) as Hs1 by (by apply (sorted_update (comp_of sd))).
    assert (wf b1) as Hwf1 by (by apply (wf_store bid_comp ask_comp)).
    assert (l1 !! i = Some (mkLevel (price lv) (volume lv + vol))) as Hi1.
    { apply list_lookup_insert_eq. by eapply lookup_lt_Some. }
    destruct (deleteOrder_found orderId b1 (mkDetails sd (price lv) vol)
                (mkLevel (price lv) (volume lv + vol)) Hwf1) as (j & Hj & Hdel).
    { unfold b1. by rewrite mOrders_store, lookup_insert_eq. }
    { simpl. unfold b1. rewrite levels_of_store, decide_True by done.
      by eapply list_elem_of_lookup_2. }
    { done. }
    { simpl. lia. }
    rewrite Hdel. simpl. f_equal.
    simpl in Hj. unfold b1 in Hj |- *. rewrite levels_of_store, decide_True in Hj |- * by done.
    assert (j = i) as ->.
    { apply (NoDup_lookup (price <$> l1) j i (price lv)).
      - by apply (sorted_NoDup_prices (comp_of sd)).
      - by rewrite list_lookup_fmap, Hj.
      - by rewrite list_lookup_fmap, Hi1. }
    rewrite mOrders_store, Hreg, store_store.
    destruct (Z.leb_spec (volume lv + vol - vol) 0) as [?|_]; [lia|].
    unfold l1. rewrite list_insert_insert_eq.
    replace (volume lv + vol - vol) with (volume lv) by lia.
    rewrite (list_insert_id _ i) by (by destruct lv). apply store_levels_of.
  - (* the order creates its level *)
    assert (∀ lv, lv ∈ levels_of sd b → price lv ≠ p) as Habs.
    { intros lv Hlv Hp. apply Hout. rewrite <- Hp. by apply list_elem_of_fmap_2. }
    rewrite (addOrder_absent orderId sd p vol b Hd Habs).
    eexists. split; [done|].
    set (pos := position (comp_of sd) p (levels_of sd b)).
    set (l1 := vector_insert pos (mkLevel p vol) (levels_of sd b)).
    set (b1 := store sd l1 _ b).
    assert (pos ≤ length (levels_of sd b))%nat as Hle by apply find_if_le.
    assert (sorted (comp_of sd) l1) as Hs1.
    { by apply (sorted_vector_insert (comp_of sd)). }
    assert (wf b1) as Hwf1 by (by apply (wf_store bid_comp ask_comp)).
    destruct (deleteOrder_found orderId b1 (mkDetails sd p vol) (mkLevel p vol) Hwf1)
      as (j & Hj & Hdel).
    { unfold b1. by rewrite mOrders_store, lookup_insert_eq. }
    { simpl. unfold b1. rewrite levels_of_store, decide_True by done.
      apply elem_of_vector_insert. by left. }
    { done. }
    { simpl. lia. }
    rewrite Hdel. simpl. f_equal.
    simpl in Hj. unfold b1 in Hj |- *. rewrite levels_of_store, decide_True in Hj |- * by done.
    assert (j = pos) as ->.
    { apply (NoDup_lookup (price <$> l1) j pos p).
      - by apply (sorted_NoDup_prices (comp_of sd)).
      - by rewrite list_lookup_fmap, Hj.
      - unfold l1. by rewrite list_lookup_fmap, lookup_vector_insert. }
    rewrite mOrders_store, Hreg, store_store.
    replace (vol - vol) with 0 by lia. simpl.
    unfold l1. rewrite vector_erase_insert by done. apply store_levels_of.
Qed.
End AddDelete.

Lemma map_AddOrder_not_invalid orderId s p vol m :
  OrderBookMap.AddOrder orderId s p vol m ≠ Undefined InvalidIterator.
Proof.
  rewrite map_AddOrder_eq.
  destruct (OrderBookMap.mOrders m !! orderId) as [d|] eqn:Hd; [done|].
  unfold OrderBookMap.add_level, OrderBookMap.try_emplace.
  set (i := find_if _ (nodes_of s m)).
  assert (i ≤ length (nodes_of s m))%nat as Hle by apply find_if_le.
  destruct (nodes_of s m !! i) as [n|] eqn:Hi; simpl.
  2: { by rewrite lookup_vector_insert by done. }
  destruct (Z.eqb_spec (OrderBookMap.first n) p) as [Hp|Hp]; simpl.
  2: { by rewrite lookup_vector_insert by done. }
  rewrite Hi. destruct (checked (OrderBookMap.second n + vol)) as [v|w] eqn:Hv; simpl; [done|].
  by apply checked_Undefined in Hv as ->.
Qed.

Lemma add_not_invalid s orderId sd p vol b :
  apply_op (strategy_book s) (Add orderId sd p vol) b ≠ Undefined InvalidIterator.
Proof.
  destruct (decide (s = StdMap)) as [->|Hs]; [|by apply vector_apply_op_not_invalid].
  apply map_AddOrder_not_invalid.
Qed.

Lemma level_sum_exists orders s p :
  level_sum orders s p ≠ 0 →
  ∃ orderId d, orders !! orderId = Some d ∧ side d = s ∧ order_price d = p.
Proof.
  unfold level_sum.
  apply (map_fold_weak_ind
           (λ r (m : gmap N OrderDetails),
              r ≠ 0 → ∃ orderId d, m !! orderId = Some d ∧ side d = s ∧ order_price d = p)).
  - done.
  - intros i x m r Hi IH Hr. unfold contribution in Hr.
    destruct (decide (side x = s ∧ order_price x = p)) as [[Hs Hp]|_].
    + exists i, x. by rewrite lookup_insert_eq.
    + destruct IH as (orderId & d & Hd & Hsp); [lia|].
      exists orderId, d. split; [|done]. rewrite lookup_insert_ne; [done|congruence].
Qed.

(** X8: [AddOrder] with an unregistered id, in every strategy and on every
    reachable book, registers the order with the side, price and volume it
    was given and adds the volume to the level at that price, creating the
    level when the side has none there; every other level and the other side
    are left as they were.  The call is defined unless the sum of the two
    volumes leaves the 64-bit range. *)
Theorem X8_add_order_registers_and_aggregates (s : Strategy) :
  (∀ ops b orderId sd vol lv,
     after s ops = Ok b →
     registry s b !! orderId = None →
     lv ∈ levels s sd b →
     INT64_MIN ≤ volume lv + vol ≤ INT64_MAX →
     ∃ b', @AddOrder _ (strategy_book s) orderId sd (price lv) vol b = Ok b' ∧
           add_outcome s orderId sd (price lv) vol (volume lv + vol) b b') ∧
  (∀ ops b orderId sd p vol,
     after s ops = Ok b →
     registry s b !! orderId = None →
     (∀ lv, lv ∈ levels s sd b → price lv ≠ p) →
     ∃ b', @AddOrder _ (strategy_book s) orderId sd p vol b = Ok b' ∧
           add_outcome s orderId sd p vol vol b b').
Proof.
  split.
  - intros ops b orderId sd vol lv Hrun Hd Hlv Hagg.
    pose proof (reachable_inv_after s ops b Hrun) as Hinv.
    pose proof (reachable_inv_wf s b Hinv) as Hwf.
    rewrite registry_view in Hd. rewrite levels_view in Hlv.
    destruct (addOrder_found_outcome (bid_comp_of s) (ask_comp_of s) orderId sd vol
                (view s b) lv Hwf Hd Hlv Hagg) as (vb' & Hadd & Hout).
    destruct (strategy_apply_op_Ok s (Add orderId sd (price lv) vol) b vb' Hinv
                (add_not_invalid s orderId sd (price lv) vol b) Hadd) as (b' & Hb' & Hview).
    exists b'. split; [exact Hb'|]. apply add_outcome_view. by rewrite Hview.
  - intros ops b orderId sd p vol Hrun Hd Habs.
    pose proof (reachable_inv_after s ops b Hrun) as Hinv.
    rewrite registry_view in Hd.
    destruct (addOrder_absent_outcome (bid_comp_of s) (ask_comp_of s) orderId sd p vol
                (view s b) Hd) as (vb' & Hadd & Hout).
    { intros lv. rewrite <- levels_view. apply Habs. }
    destruct (strategy_apply_op_Ok s (Add orderId sd p vol) b vb' Hinv
                (add_not_invalid s orderId sd p vol b) Hadd) as (b' & Hb' & Hview).
    exists b'. split; [exact Hb'|]. apply add_outcome_view. by rewrite Hview.
Qed.

Lemma X8_witness :
  ∃ b b', after StdMap c6_ops = Ok b ∧
          @AddOrder _ (strategy_book StdMap) 3%N Bid 100 20 b = Ok b' ∧
          add_outcome StdMap 3%N Bid 100 20 100 b b'.
Proof.
  eexists.
  destruct (proj1 (X8_add_order_registers_and_aggregates StdMap) c6_ops _ 3%N Bid 20
              (mkLevel 100 80) eq_refl) as (b' & Hb' & Hout).
  - by vm_compute.
  - vm_compute. left.
  - by vm_compute.
  - exists b'. split; [reflexivity|]. split; [exact Hb'|exact Hout].
Defined.

(** X9: [DeleteOrder] of a registered order whose price level is present, in
    every strategy and on every reachable book (within the 64-bit range and,
    in [OrderBookMap], through an iterator that has not been erased),
    unregisters the order and subtracts its volume from its level: the level
    is removed if the result is ≤ 0 and holds the result otherwise; every
    other level and the other side are left as they were.  When the level is
    no longer present the vector-backed books unregister the order and leave
    all levels as they were. *)
Theorem X9_delete_order_unregisters_and_subtracts (s : Strategy) :
  (∀ ops b orderId d lv,
     after s ops = Ok b →
     registry s b !! orderId = Some d →
     lv ∈ levels s (side d) b → price lv = order_price d →
     @DeleteOrder _ (strategy_book s) orderId b ≠ Undefined InvalidIterator →
     INT64_MIN ≤ volume lv - originalVolume d ≤ INT64_MAX →
     ∃ b', @DeleteOrder _ (strategy_book s) orderId b = Ok b' ∧
           delete_outcome s orderId d (volume lv - originalVolume d) b b') ∧
  (∀ ops b orderId d,
     s ≠ StdMap →
     after s ops = Ok b →
     registry s b !! orderId = Some d →
     (∀ lv, lv ∈ levels s (side d) b → price lv ≠ order_price d) →
     ∃ b', @DeleteOrder _ (strategy_book s) orderId b = Ok b' ∧
           registry s b' = delete orderId (registry s b) ∧
           ∀ sd, levels s sd b' = levels s sd b).
Proof.
  split.
  - intros ops b orderId d lv Hrun Hd Hlv Hp Hnot Hagg.
    pose proof (reachable_inv_after s ops b Hrun) as Hinv.
    pose proof (reachable_inv_wf s b Hinv) as Hwf.
    rewrite registry_view in Hd. rewrite levels_view in Hlv.
    destruct (deleteOrder_found_outcome (bid_comp_of s) (ask_comp_of s) orderId
                (view s b) d lv Hwf Hd Hlv Hp Hagg) as (vb' & Hdel & Hout).
    destruct (strategy_apply_op_Ok s (Delete orderId) b vb' Hinv Hnot Hdel)
      as (b' & Hb' & Hview).
    exists b'. split; [exact Hb'|]. apply delete_outcome_view. by rewrite Hview.
  - intros ops b orderId d Hs Hrun Hd Habs.
    pose proof (reachable_inv_after s ops b Hrun) as Hinv.
    rewrite registry_view in Hd.
    pose proof (deleteOrder_absent (bid_comp_of s) (ask_comp_of s) orderId (view s b) d Hd)
      as Hdel.
    destruct (strategy_apply_op_Ok s (Delete orderId) b _ Hinv
                (vector_apply_op_not_invalid s (Delete orderId) b Hs) (Hdel
                   ltac:(intros lv; rewrite <- levels_view; apply Habs)))
      as (b' & Hb' & Hview).
    exists b'. split; [exact Hb'|]. rewrite !registry_view, Hview, mOrders_store.
    split; [done|]. intros sd. rewrite !levels_view, Hview, levels_of_store.
    by case_decide; subst.
Qed.

Lemma X9_witness :
  ∃ b b', after VectorEfficient c6_ops = Ok b ∧
          @DeleteOrder _ (strategy_book VectorEfficient) 1%N b = Ok b' ∧
          delete_outcome VectorEfficient 1%N (mkDetails Bid 100 50) 30 b b'.
Proof.
  eexists.
  destruct (proj1 (X9_delete_order_unregisters_and_subtracts VectorEfficient) c6_ops _ 1%N
              (mkDetails Bid 100 50) (mkLevel 100 80) eq_refl) as (b' & Hb' & Hout).
  - by vm_compute.
  - vm_compute. left.
  - reflexivity.
  - by vm_compute.
  - by vm_compute.
  - exists b'. split; [reflexivity|]. split; [exact Hb'|exact Hout].
Defined.

(** X10: on a book reached by operations with positive volumes, adding an
    order under an unregistered id (with a positive volume that its level
    can take) and deleting it again restores the registry and the levels of
    both sides, in every strategy: a level that the order created is
    removed, a level that it joined gets its former volume back. *)
Theorem X10_add_then_delete_restores_the_book (s : Strategy) (ops : list Op)
    (b : book_state s) (orderId : N) (sd : Side) (p vol : Z) :
  Forall volumes_positive ops → after s ops = Ok b →
  registry s b !! orderId = None → 0 < vol →
  (∀ lv, lv ∈ levels s sd b → price lv = p → volume lv + vol ≤ INT64_MAX) →
  ∃ b' b'', @AddOrder _ (strategy_book s) orderId sd p vol b = Ok b' ∧
            @DeleteOrder _ (strategy_book s) orderId b' = Ok b'' ∧
            registry s b'' = registry s b ∧
            ∀ sd', levels s sd' b'' = levels s sd' b.
Proof.
  intros Hops Hrun Hd Hvol Hagg.
  pose proof (positive_inv_after s ops b Hops Hrun) as Hpinv.
  pose proof Hpinv as (Hinv & Hcons & Hpos & _).
  pose proof (reachable_inv_wf s b Hinv) as Hwf.
  rewrite registry_view in Hd.
  destruct (add_then_delete (bid_comp_of s) (ask_comp_of s) orderId sd p vol (view s b)
              Hwf Hpos Hd Hvol) as (vb' & Hadd & Hdel).
  { intros lv. rewrite <- levels_view. apply Hagg. }
  destruct (positive_inv_step s (Add orderId sd p vol) b Hvol Hpinv) as [Hnot1 Hstep1].
  destruct (strategy_apply_op_Ok s (Add orderId sd p vol) b vb' Hinv Hnot1 Hadd)
    as (b' & Hb' & Hview').
  pose proof (Hstep1 b' Hb') as Hpinv'.
  destruct (positive_inv_step s (Delete orderId) b' I Hpinv') as [Hnot2 _].
  rewrite <- Hview' in Hdel.
  destruct (strategy_apply_op_Ok s (Delete orderId) b' (view s b) (proj1 Hpinv') Hnot2 Hdel)
    as (b'' & Hb'' & Hview'').
  exists b', b''. split; [exact Hb'|]. split; [exact Hb''|].
  rewrite !registry_view, Hview''. split; [done|].
  intros sd'. by rewrite !levels_view, Hview''.
Qed.

Lemma X10_witness :
  ∃ b' b'',
    @AddOrder _ (strategy_book StdMap) 3%N Bid 100 20 c6_map_book = Ok b' ∧
    @DeleteOrder _ (strategy_book StdMap) 3%N b' = Ok b'' ∧
    registry StdMap b'' = registry StdMap c6_map_book ∧
    ∀ sd', levels StdMap sd' b'' = levels StdMap sd' c6_map_book.
Proof.
  apply (X10_add_then_delete_restores_the_book StdMap c6_ops c6_map_book 3%N Bid 100 20).
  - repeat constructor; simpl; lia.
  - reflexivity.
  - by vm_compute.
  - lia.
  - intros lv Hlv _. vm_compute in Hlv. apply list_elem_of_singleton in Hlv as ->. by vm_compute.
Defined.

(** X11: after operations with positive volumes a side holds a level at a
    price exactly when a registered order sits at that price on that side:
    no order is left without its level and no level outlives its orders. *)
Theorem X11_levels_are_the_prices_of_live_orders (s : Strategy) (ops : list Op)
    (b : book_state s) (sd : Side) (p : Z) :
  Forall volumes_positive ops → after s ops = Ok b →
  p ∈ price <$> levels s sd b ↔
  ∃ orderId d, registry s b !! orderId = Some d ∧ side d = sd ∧ order_price d = p.
Proof.
  intros Hops Hrun.
  destruct (positive_inv_after s ops b Hops Hrun) as (_ & (Hagg & Hlvl & _) & Hpos & _).
  rewrite levels_view, registry_view. split.
  - intros (lv & -> & Hlv)%list_elem_of_fmap.
    apply level_sum_exists. rewrite <- (Hagg sd lv Hlv).
    pose proof (Hpos sd lv Hlv). lia.
  - intros (orderId & d & Hd & <- & <-). by eapply Hlvl.
Qed.

Lemma X11_witness :
  ∃ b, after VectorBranchless [Add 1 Bid 100 50; Add 2 Ask 101 30; Delete 1] = Ok b ∧
       (101 ∈ price <$> levels VectorBranchless Ask b ↔
        ∃ orderId d, registry VectorBranchless b !! orderId = Some d ∧
                     side d = Ask ∧ order_price d = 101).
Proof.
  eexists. split; [reflexivity|].
  apply (X11_levels_are_the_prices_of_live_orders VectorBranchless
           [Add 1 Bid 100 50; Add 2 Ask 101 30; Delete 1]).
  - repeat constructor; simpl; lia.
  - reflexivity.
Defined.

(** X16: on a book reached by operations with positive volumes, a
    [ModifyOrder] with a positive volume never cancels: the order's level is
    present, the call (within the 64-bit range) returns, the level keeps a
    positive volume and the order stays registered with the new volume, in
    every strategy. *)
Theorem X16_modify_with_a_positive_volume_never_cancels (s : Strategy) (ops : list Op)
    (b : book_state s) (orderId : N) (d : OrderDetails) (newVolume : Z) :
  Forall volumes_positive ops → after s ops = Ok b →
  registry s b !! orderId = Some d → 0 < newVolume →
  INT64_MIN ≤ newVolume - originalVolume d →
  (∀ lv, lv ∈ levels s (side d) b → price lv = order_price d →
         volume lv + (newVolume - originalVolume d) ≤ INT64_MAX) →
  ∃ lv b', lv ∈ levels s (side d) b ∧ price lv = order_price d ∧
    @ModifyOrder _ (strategy_book s) orderId newVolume b = Ok b' ∧
    0 < volume lv + (newVolume - originalVolume d) ∧
    registry s b' !! orderId = Some (mkDetails (side d) (order_price d) newVolume) ∧
    modify_outcome s orderId d (volume lv + (newVolume - originalVolume d)) newVolume b b'.
Proof.
  intros Hops Hrun Hd Hnv Hmin Hmax.
  pose proof (positive_inv_after s ops b Hops Hrun) as Hpinv.
  pose proof Hpinv as (Hinv & (Hagg & Hlvl & Hopos) & Hpos & _).
  pose proof (reachable_inv_wf s b Hinv) as Hwf.
  rewrite registry_view in Hd.
  pose proof (Hlvl _ _ Hd) as Hin. apply list_elem_of_fmap in Hin as (lv & Hp & Hlv).
  pose proof (level_sum_ge _ _ _ Hopos Hd) as Hge.
  rewrite Hp, <- (Hagg _ lv Hlv) in Hge.
  pose proof (Hpos _ lv Hlv) as Hlo.
  assert (volume lv + (newVolume - originalVolume d) ≤ INT64_MAX) as Hhi.
  { apply Hmax; [by rewrite levels_view|done]. }
  assert (INT64_MIN < 0) as Hneg by (by vm_compute).
  destruct (modifyOrder_found (bid_comp_of s) (ask_comp_of s) orderId newVolume (view s b) d lv
              Hwf Hd Hlv) as (vb' & Hmod & Hout); [done|lia|lia|].
  destruct (positive_inv_step s (Modify orderId newVolume) b Hnv Hpinv) as [Hnot _].
  destruct (strategy_apply_op_Ok s (Modify orderId newVolume) b vb' Hinv Hnot Hmod)
    as (b' & Hb' & Hview).
  exists lv, b'. rewrite levels_view. split_and!; [done|done|exact Hb'|lia| |].
  - destruct Hout as [_ Hout]. rewrite decide_False in Hout by lia.
    rewrite registry_view, Hview, (proj1 Hout). apply lookup_insert_eq.
  - apply modify_outcome_view. by rewrite Hview.
Qed.

Lemma X16_witness :
  ∃ lv b', lv ∈ levels StdMap Bid c6_map_book ∧ price lv = 100 ∧
    @ModifyOrder _ (strategy_book StdMap) 1%N 5 c6_map_book = Ok b' ∧
    0 < volume lv + (5 - 50) ∧
    registry StdMap b' !! 1%N = Some (mkDetails Bid 100 5) ∧
    modify_outcome StdMap 1%N (mkDetails Bid 100 50) (volume lv + (5 - 50)) 5 c6_map_book b'.
Proof.
  apply (X16_modify_with_a_positive_volume_never_cancels StdMap c6_ops c6_map_book 1%N
           (mkDetails Bid 100 50) 5).
  - repeat constructor; simpl; lia.
  - reflexivity.
  - by vm_compute.
  - lia.
  - by vm_compute.
  - intros lv Hlv _. vm_compute in Hlv. apply list_elem_of_singleton in Hlv as ->. by vm_compute.
Defined.

(** ** The books hold the same levels *)

Lemma abs_run_after s ops b :
  after s ops = Ok b → abs_run ops abs_empty = Ok (abs (view s b)).
Proof.
  intros Hrun. destruct (decide (s = StdMap)) as [->|Hs].
  - by apply abs_after_map.
  - rewrite <- (abs_after_vector s ops Hs). unfold abs_after. by rewrite Hrun.
Qed.

Lemma elem_of_levels_abs s sd b lv :
  wf (bid_comp_of s) (ask_comp_of s) (view s b) →
  lv ∈ levels s sd b ↔ abs_levels sd (abs (view s b)) !! price lv = Some (volume lv).
Proof.
  intros Hwf. rewrite levels_view, abs_levels_abs, to_map_lookup_Some.
  - by destruct lv.
  - apply (sorted_NoDup_prices (side_comp (bid_comp_of s) (ask_comp_of s) sd)), Hwf.
Qed.

(** X17: the books hold the same content.  Whatever a book holds after an
    operation sequence, each vector-backed book holds after the same
    sequence, and so does [OrderBookMap] when the [AddOrder] and
    [ModifyOrder] calls of the sequence carry strictly positive volumes: the
    same registry and, on each side, the same levels with the same
    aggregated volumes (each book in its own order). *)
Theorem X17_books_hold_the_same_levels (s1 s2 : Strategy) (ops : list Op)
    (b1 : book_state s1) :
  after s1 ops = Ok b1 → s2 ≠ StdMap ∨ Forall volumes_positive ops →
  ∃ b2, after s2 ops = Ok b2 ∧
        registry s2 b2 = registry s1 b1 ∧
        ∀ sd lv, lv ∈ levels s2 sd b2 ↔ lv ∈ levels s1 sd b1.
Proof.
  intros Hrun1 Hs2.
  pose proof (abs_run_after s1 ops b1 Hrun1) as Habs1.
  assert (abs_after s2 ops = abs_run ops abs_empty) as Habs2.
  { destruct Hs2 as [Hs2|Hops]; [by apply abs_after_vector|by apply abs_after_positive]. }
  rewrite Habs1 in Habs2. unfold abs_after in Habs2.
  destruct (after s2 ops) as [b2|] eqn:Hrun2; [|done].
  simpl in Habs2. assert (abs (view s2 b2) = abs (view s1 b1)) as Habs by congruence.
  exists b2. split; [done|]. split.
  - rewrite !registry_view.
    change (abs_orders (abs (view s2 b2)) = abs_orders (abs (view s1 b1))). by rewrite Habs.
  - intros sd lv.
    rewrite (elem_of_levels_abs s2) by (by eapply after_wf).
    rewrite (elem_of_levels_abs s1) by (by eapply after_wf).
    by rewrite Habs.
Qed.

Lemma X17_witness :
  ∃ b2, after VectorLinear c6_ops = Ok b2 ∧
        registry VectorLinear b2 = registry StdMap c6_map_book ∧
        ∀ sd lv, lv ∈ levels VectorLinear sd b2 ↔ lv ∈ levels StdMap sd c6_map_book.
Proof.
  apply (X17_books_hold_the_same_levels StdMap VectorLinear c6_ops c6_map_book).
  - reflexivity.
  - left. discriminate.
Defined.

(** X18: [OrderBookVectorLinear], which looks for a level by linear
    scan, goes through exactly the states of [OrderBookVectorEfficient] and of
    [OrderBookVectorBranchless] on every operation sequence: the same
    vectors in the same order and the same registry, and it is undefined on
    the same sequences. *)
Theorem X18_linear_book_goes_through_the_same_states (ops : list Op) :
  after VectorLinear ops = after VectorEfficient ops ∧
  after VectorLinear ops = after VectorBranchless ops.
Proof.
  unfold after. simpl.
  rewrite linear_run by apply wf_empty.
  rewrite (run_any_search less greater back lower_bound lower_bound_SearchSpec)
    by apply wf_empty.
  by rewrite (run_any_search less greater back branchless_lower_bound branchless_SearchSpec)
    by apply wf_empty.
Qed.

(** ** The load generator and [main] *)

Lemma level_sum_le_size orders s p :
  (∀ orderId d, orders !! orderId = Some d → originalVolume d ≤ 100) →
  level_sum orders s p ≤ 100 * Z.of_nat (size orders).
Proof.
  unfold level_sum.
  apply (map_fold_weak_ind
           (λ r (m : gmap N OrderDetails),
              (∀ orderId d, m !! orderId = Some d → originalVolume d ≤ 100) →
              r ≤ 100 * Z.of_nat (size m))).
  - intros _. rewrite map_size_empty. lia.
  - intros i x m r Hi IH Hall. rewrite map_size_insert_None by done.
    assert (r ≤ 100 * Z.of_nat (size m)) as Hr.
    { apply IH. intros id d Hd. apply (Hall id). rewrite lookup_insert_ne; [done|congruence]. }
    pose proof (Hall i x (lookup_insert_eq _ _ _)) as Hx.
    unfold contribution. case_decide; lia.
Qed.

Section GeneratedCanonical.
Context (bid_comp ask_comp : Z → Z → bool) (best : list PriceLevel → option PriceLevel).
Context `{!Comparator bid_comp, !Comparator ask_comp}.

Local Abbreviation wf := (wf bid_comp ask_comp).
Local Abbreviation canonical := (bs_book partition_point bid_comp ask_comp best).

(** An operation that the generator issues goes through as long as the book
    holds at most [k] orders and [100 * (k + 1)] fits a signed 64-bit
    integer. *)
Lemma generated_defined op b k :
  wf b → consistent b → levels_positive b →
  orders_in_range (mOrders b) → (size (mOrders b) ≤ k)%nat →
  100 * (Z.of_nat k + 1) ≤ INT64_MAX →
  generated op (mOrders b) →
  ∃ b', apply_op canonical op b = Ok b' ∧ mOrders b' = registry_after op (mOrders b).
Proof.
  intros Hwf (Hagg & Hlvl & Hopos) Hpos Hrange Hsize Hmax Hgen.
  assert (INT64_MIN < -100) as Hmin by (by vm_compute).
  assert (∀ sd lv, lv ∈ levels_of sd b → 0 < volume lv ≤ 100 * Z.of_nat k) as Hbound.
  { intros sd lv Hlv. split; [by eapply Hpos|]. rewrite (Hagg sd lv Hlv).
    etrans; [apply level_sum_le_size|lia]. intros id d Hd. by apply (Hrange id d Hd). }
  destruct op as [orderId sd p vol|orderId newVolume|orderId]; simpl in Hgen |- *.
  - destruct Hgen as (Hd & Hp & Hvol).
    destruct (decide (p ∈ price <$> levels_of sd b)) as [Hin|Hout].
    + apply list_elem_of_fmap in Hin as (lv & -> & Hlv).
      destruct (Hbound sd lv Hlv) as [Hlo Hhi].
      destruct (addOrder_found_outcome bid_comp ask_comp orderId sd vol b lv Hwf Hd Hlv)
        as (b' & Hb' & Hreg & _); [lia|]. by exists b'.
    + destruct (addOrder_absent_outcome bid_comp ask_comp orderId sd p vol b Hd)
        as (b' & Hb' & Hreg & _).
      { intros lv Hlv Hp'. apply Hout. rewrite <- Hp'. by apply list_elem_of_fmap_2. }
      by exists b'.
  - destruct Hgen as ([d Hd] & Hnv). rewrite Hd.
    destruct (Hrange _ _ Hd) as [_ Hvol].
    pose proof (Hlvl _ _ Hd) as Hin. apply list_elem_of_fmap in Hin as (lv & Hp & Hlv).
    destruct (Hbound _ lv Hlv) as [Hlo Hhi].
    pose proof (level_sum_ge _ _ _ Hopos Hd) as Hge.
    rewrite Hp, <- (Hagg _ lv Hlv) in Hge.
    destruct (modifyOrder_found bid_comp ask_comp orderId newVolume b d lv Hwf Hd Hlv)
      as (b' & Hb' & _ & Hout); [done|lia|lia|].
    rewrite decide_False in Hout by lia. destruct Hout as [Hreg _]. by exists b'.
  - destruct Hgen as [d Hd].
    destruct (Hrange _ _ Hd) as [_ Hvol].
    pose proof (Hlvl _ _ Hd) as Hin. apply list_elem_of_fmap in Hin as (lv & Hp & Hlv).
    destruct (Hbound _ lv Hlv) as [Hlo Hhi].
    pose proof (level_sum_ge _ _ _ Hopos Hd) as Hge.
    rewrite Hp, <- (Hagg _ lv Hlv) in Hge.
    destruct (deleteOrder_found_outcome bid_comp ask_comp orderId b d lv Hwf Hd Hlv)
      as (b' & Hb' & Hreg & _); [done|lia|]. by exists b'.
Qed.
End GeneratedCanonical.

Lemma generated_positive op orders : generated op orders → volumes_positive op.
Proof. destruct op; simpl; try done; intros (_ & ?); lia. Qed.

Lemma registry_after_in_range op orders :
  generated op orders → orders_in_range orders → orders_in_range (registry_after op orders).
Proof.
  intros Hgen Hrange id d. destruct op as [orderId sd p vol|orderId newVolume|orderId];
    simpl in *.
  - destruct Hgen as (_ & Hp & Hvol).
    intros [[_ <-]|[_ Hd]]%lookup_insert_Some; [done|by eapply Hrange].
  - destruct Hgen as ([d0 Hd0] & Hnv). rewrite Hd0.
    intros [[_ <-]|[_ Hd]]%lookup_insert_Some; [|by eapply Hrange].
    simpl. split; [|done]. by apply (Hrange _ _ Hd0).
  - intros [_ Hd]%lookup_delete_Some. by eapply Hrange.
Qed.

Lemma registry_after_size op orders :
  generated op orders → (size (registry_after op orders) ≤ S (size orders))%nat.
Proof.
  intros Hgen. destruct op as [orderId sd p vol|orderId newVolume|orderId]; simpl in *.
  - destruct Hgen as (Hd & _). by rewrite map_size_insert_None.
  - destruct Hgen as ([d0 Hd0] & _). rewrite Hd0. rewrite map_size_insert_Some by done. lia.
  - rewrite map_size_delete_Some by done. lia.
Qed.

(** A generated operation goes through in every strategy. *)
Lemma generated_step s op b k :
  positive_inv s b →
  orders_in_range (registry s b) → (size (registry s b) ≤ k)%nat →
  100 * (Z.of_nat k + 1) ≤ INT64_MAX →
  generated op (registry s b) →
  ∃ b', apply_op (strategy_book s) op b = Ok b' ∧
        registry s b' = registry_after op (registry s b) ∧
        positive_inv s b'.
Proof.
  intros Hpinv Hrange Hsize Hmax Hgen.
  pose proof Hpinv as (Hinv & Hcons & Hpos & _).
  pose proof (reachable_inv_wf s b Hinv) as Hwf.
  rewrite registry_view in Hrange, Hsize, Hgen.
  destruct (generated_defined (bid_comp_of s) (ask_comp_of s) (best_of s) op (view s b) k
              Hwf Hcons Hpos Hrange Hsize Hmax Hgen) as (vb' & Hvb' & Hreg).
  destruct (positive_inv_step s op b (generated_positive _ _ Hgen) Hpinv) as [Hnot Hstep].
  destruct (strategy_apply_op_Ok s op b vb' Hinv Hnot Hvb') as (b' & Hb' & Hview).
  exists b'. split; [done|]. split; [|by apply Hstep].
  by rewrite !registry_view, Hview.
Qed.

Lemma uint64_incr_small n : (n + 1 < 2 ^ 64)%N → uint64_incr n = (n + 1)%N.
Proof. intros Hn. unfold uint64_incr. by apply N.mod_small. Qed.

Lemma elem_of_erase_NoDup {A} (l : list A) i x y :
  NoDup l → l !! i = Some x → y ∈ vector_erase i l ↔ y ∈ l ∧ y ≠ x.
Proof.
  intros Hnd Hi.
  rewrite (elem_of_erase_keyed (λ a : A, a) l i x y Hi); [done|].
  by rewrite list_fmap_id.
Qed.

(** One iteration keeps the invariant of the loop. *)
Lemma simulate_iteration_inv s n0 k d st :
  draw_in_range d → 100 * (Z.of_nat k + 1) ≤ INT64_MAX →
  sim_inv s n0 k st →
  ∃ st', simulate_iteration (strategy_book s) d st = Ok st' ∧ sim_inv s n0 (S k) st'.
Proof.
  intros (Hop & Hside & Hprice & Hvol & Hidx) Hmax
    (Hpinv & Hrange & Hsize & Hnd & Hdom & Hlt & Hnext & Hlat).
  assert (INT64_MAX < 2 ^ 63) as Hint by (by vm_compute).
  assert (2 ^ 63 < Z.of_N (2 ^ 64)) as Hpow by (by vm_compute).
  unfold simulate_iteration.
  set (sd := if Z.rem (side_draw d) 2 =? 0 then Bid else Ask).
  destruct ((op_draw d =? 0) || vec_empty (activeOrders st)) eqn:Hadd.
  - (* AddOrder with the next id *)
    assert (registry s (orderBook st) !! next_id st = None) as Hfresh.
    { destruct (registry s (orderBook st) !! next_id st) eqn:Hreg; [|done].
      assert (next_id st ∈ activeOrders st) as Hin by (apply Hdom; by eexists).
      apply Hlt in Hin. lia. }
    destruct (generated_step s (Add (next_id st) sd (price_draw d) (volume_draw d))
                (orderBook st) k Hpinv Hrange Hsize Hmax) as (b' & Hb' & Hreg & Hpinv');
      [done|].
    simpl in Hb'. rewrite Hb'. simpl. eexists. split; [done|].
    rewrite uint64_incr_small by lia.
    split_and!; simpl; [done| | | | | |lia|lia|unfold record; rewrite length_app; simpl; lia].
    + rewrite Hreg. by apply (registry_after_in_range (Add _ _ _ _)).
    + rewrite Hreg. etrans; [by apply (registry_after_size (Add _ _ _ _))|lia].
    + apply NoDup_app. split_and!; [done| |apply NoDup_singleton].
      intros id Hid ->%list_elem_of_singleton. apply Hlt in Hid. lia.
    + intros id. rewrite Hreg. simpl. rewrite elem_of_app, list_elem_of_singleton,
        lookup_insert_is_Some, Hdom.
      destruct (decide (next_id st = id)) as [->|Hne]; [by split; auto|].
      split; [intros [?|?]; [by right|congruence]|intros [?|[_ ?]]; [congruence|by left]].
    + intros id [Hid| ->%list_elem_of_singleton]%elem_of_app; [apply Hlt in Hid|]; lia.
  - (* ModifyOrder or DeleteOrder of an active order *)
    apply orb_false_iff in Hadd as [Hop0 Hne].
    assert (0 < length (activeOrders st))%nat as Hlen.
    { destruct (activeOrders st); [done|simpl; lia]. }
    destruct (lookup_lt_is_Some_2 _ _ (Hidx _ Hlen)) as [id Hid].
    assert (is_Some (registry s (orderBook st) !! id)) as Hlive.
    { apply Hdom. by eapply list_elem_of_lookup_2. }
    destruct (op_draw d =? 1) eqn:Hop1; cbv zeta; rewrite Hid.
    + destruct (generated_step s (Modify id (volume_draw d)) (orderBook st) k
                  Hpinv Hrange Hsize Hmax) as (b' & Hb' & Hreg & Hpinv'); [done|].
      simpl in Hb'. rewrite Hb'. simpl. eexists. split; [done|].
      split_and!; simpl;
        [done| | |done| |done|lia|lia|unfold record; rewrite length_app; simpl; lia].
      * rewrite Hreg. by apply (registry_after_in_range (Modify _ _)).
      * rewrite Hreg. simpl. destruct Hlive as [d0 Hd0]. rewrite Hd0.
        rewrite map_size_insert_Some by done. lia.
      * intros id'. rewrite Hreg, Hdom. simpl. destruct Hlive as [d0 Hd0]. rewrite Hd0.
        rewrite lookup_insert_is_Some.
        destruct (decide (id = id')) as [->|Hne']; [by split; auto|].
        split; [by right|by intros [?|[_ ?]]].
    + destruct (generated_step s (Delete id) (orderBook st) k
                  Hpinv Hrange Hsize Hmax) as (b' & Hb' & Hreg & Hpinv'); [done|].
      simpl in Hb'. rewrite Hb'. simpl. eexists. split; [done|].
      split_and!; simpl;
        [done| | | | | |lia|lia|unfold record; rewrite length_app; simpl; lia].
      * rewrite Hreg. by apply (registry_after_in_range (Delete _)).
      * rewrite Hreg. simpl. rewrite map_size_delete_Some by done. lia.
      * eapply sublist_NoDup; [exact Hnd|apply sublist_delete].
      * intros id'. rewrite Hreg. simpl.
        rewrite (elem_of_erase_NoDup _ _ id) by done.
        rewrite lookup_delete_is_Some, Hdom.
        split; [intros [? ?]; by split|intros [? ?]; by split].
      * intros id' [Hin _]%(elem_of_erase_NoDup _ _ id); [by apply Hlt|done..].
Qed.

Lemma simulate_loop_inv s gen n n0 k i st :
  (∀ j, draw_in_range (gen j)) → 100 * Z.of_nat (k + n) ≤ INT64_MAX →
  sim_inv s n0 k st →
  ∃ st', simulate_loop (strategy_book s) gen n i st = Ok st' ∧ sim_inv s n0 (k + n) st'.
Proof.
  intros Hgen. revert k i st. induction n as [|n IH]; intros k i st Hmax Hinv.
  { exists st. split; [done|]. by rewrite Nat.add_0_r. }
  cbn [simulate_loop].
  destruct (simulate_iteration_inv s n0 k (gen i) st (Hgen i)) as (st1 & Hst1 & Hinv1);
    [lia|done|].
  rewrite Hst1. simpl.
  destruct (IH (S k) (S i) st1) as (st' & Hst' & Hinv'); [lia|done|].
  exists st'. split; [done|]. by replace (k + S n)%nat with (S k + n)%nat by lia.
Qed.

Lemma registry_new s : registry s (new_book s) = ∅.
Proof. destruct s; simpl; by rewrite ?fmap_empty. Qed.

Lemma sim_inv_start s latency0 :
  sim_inv s (length latency0) 0 (mkSim (new_book s) latency0 [] 1%N).
Proof.
  unfold sim_inv. simpl. rewrite registry_new.
  split_and!; try lia.
  - apply positive_inv_new.
  - intros id d. by rewrite lookup_empty.
  - by rewrite map_size_empty.
  - constructor.
  - intros id. rewrite lookup_empty. split; [by intros ?%elem_of_nil|by intros [? ?]].
  - by intros id ?%elem_of_nil.
Qed.

Lemma simulateMarket_inv s gen latency0 updates :
  (∀ j, draw_in_range (gen j)) → 100 * Z.of_N updates ≤ INT64_MAX →
  ∃ st, simulateMarket (strategy_book s) gen (new_book s) latency0 updates = Ok st ∧
        sim_inv s (length latency0) (N.to_nat updates) st.
Proof.
  intros Hgen Hmax. unfold simulateMarket.
  apply (simulate_loop_inv s gen (N.to_nat updates) (length latency0) 0 0); [done|lia|apply sim_inv_start].
Qed.

Lemma gen_adds_in_range j : draw_in_range (gen_adds j).
Proof. unfold draw_in_range, gen_adds. simpl. split_and!; lia. Qed.

Lemma levels_match_orders_view s b :
  wf (bid_comp_of s) (ask_comp_of s) (view s b) → consistent (view s b) →
  levels_match_orders s b.
Proof.
  intros Hwf (Hagg & Hlvl & _). split.
  - intros sd lv. rewrite levels_view, registry_view. apply Hagg.
  - intros id d. rewrite levels_view, registry_view. intros Hd.
    pose proof (Hlvl id d Hd) as Hin.
    apply list_elem_of_fmap in Hin as (lv & Hp & Hlv).
    apply list_elem_of_lookup in Hlv as (i & Hi).
    exists i, lv. split_and!; [done..|]. intros j lv' Hj Hp'.
    pose proof (sorted_NoDup_prices (side_comp (bid_comp_of s) (ask_comp_of s) (side d))
                  _ (Hwf (side d))) as Hnd.
    apply (NoDup_lookup _ j i (price lv) Hnd).
    + rewrite list_lookup_fmap, Hj. simpl. congruence.
    + by rewrite list_lookup_fmap, Hi.
Qed.

Lemma gen_mixed_in_range j : draw_in_range (gen_mixed j).
Proof.
  unfold draw_in_range, gen_mixed. simpl.
  pose proof (Nat.mod_upper_bound j 3). pose proof (Nat.mod_upper_bound j 2).
  pose proof (Nat.mod_upper_bound j 5). pose proof (Nat.mod_upper_bound j 7).
  split_and!; try lia. intros n Hn. apply Nat.mod_upper_bound. lia.
Qed.

(** X12: [simulateMarket], on a new book of any strategy and for any numbers
    that the distributions can deliver, runs all its iterations without
    undefined behaviour (no signed overflow, no erased iterator in
    [OrderBookMap], no index beyond [activeOrders]) as long as
    [100 * updates] fits a signed 64-bit integer, and records exactly one
    duration per iteration. *)
Theorem X12_simulateMarket_is_defined (s : Strategy) (gen : nat → Draw)
    (latency0 : list Z) (updates : N) :
  (∀ j, draw_in_range (gen j)) → 100 * Z.of_N updates ≤ INT64_MAX →
  ∃ st, simulateMarket (strategy_book s) gen (new_book s) latency0 updates = Ok st ∧
        length (latency st) = (length latency0 + N.to_nat updates)%nat.
Proof.
  intros Hgen Hmax.
  destruct (simulateMarket_inv s gen latency0 updates Hgen Hmax) as (st & Hst & Hinv).
  exists st. split; [done|]. apply Hinv.
Qed.

Lemma X12_witness :
  ∃ st, simulateMarket (strategy_book StdMap) gen_mixed (new_book StdMap) [] 6 = Ok st ∧
        length (latency st) = (length (@nil Z) + N.to_nat 6)%nat.
Proof.
  apply (X12_simulateMarket_is_defined StdMap gen_mixed [] 6).
  - apply gen_mixed_in_range.
  - by vm_compute.
Defined.

(** X13: the generator's list of active orders is exact.  After
    [simulateMarket] the vector [activeOrders] holds no id twice, holds
    exactly the ids that are registered in the book, and every id in it is
    below [next_id]: each [AddOrder] was called with an unregistered id, each
    [ModifyOrder] and [DeleteOrder] with a registered one, and no
    [ModifyOrder] removed an order. *)
Theorem X13_active_orders_are_the_registered_orders (s : Strategy) (gen : nat → Draw)
    (latency0 : list Z) (updates : N) (st : Sim (book_state s)) :
  (∀ j, draw_in_range (gen j)) → 100 * Z.of_N updates ≤ INT64_MAX →
  simulateMarket (strategy_book s) gen (new_book s) latency0 updates = Ok st →
  NoDup (activeOrders st) ∧
  (∀ orderId, orderId ∈ activeOrders st ↔ is_Some (registry s (orderBook st) !! orderId)) ∧
  (∀ orderId, orderId ∈ activeOrders st → (orderId < next_id st)%N).
Proof.
  intros Hgen Hmax Hrun.
  destruct (simulateMarket_inv s gen latency0 updates Hgen Hmax) as (st' & Hst & Hinv).
  rewrite Hrun in Hst. injection Hst as <-.
  destruct Hinv as (_ & _ & _ & Hnd & Hdom & Hlt & _). done.
Qed.

Lemma X13_witness :
  ∃ st, simulateMarket (strategy_book Vector) gen_mixed (new_book Vector) [] 6 = Ok st ∧
    NoDup (activeOrders st) ∧
    (∀ orderId, orderId ∈ activeOrders st ↔
                is_Some (registry Vector (orderBook st) !! orderId)) ∧
    (∀ orderId, orderId ∈ activeOrders st → (orderId < next_id st)%N).
Proof.
  eexists. split; [vm_compute; reflexivity|].
  apply (X13_active_orders_are_the_registered_orders Vector gen_mixed [] 6).
  - apply gen_mixed_in_range.
  - by vm_compute.
  - reflexivity.
Defined.

(** X14: the book that [simulateMarket] leaves is consistent: each level
    holds the sum of the volumes of the registered orders at its price and
    side, each registered order has exactly one level, no level has a volume
    ≤ 0, and every registered order has a price within [10, 200] and a volume
    within [10, 100]. *)
Theorem X14_simulated_book_is_consistent (s : Strategy) (gen : nat → Draw)
    (latency0 : list Z) (updates : N) (st : Sim (book_state s)) :
  (∀ j, draw_in_range (gen j)) → 100 * Z.of_N updates ≤ INT64_MAX →
  simulateMarket (strategy_book s) gen (new_book s) latency0 updates = Ok st →
  levels_match_orders s (orderBook st) ∧
  no_empty_level s (orderBook st) ∧
  orders_in_range (registry s (orderBook st)).
Proof.
  intros Hgen Hmax Hrun.
  destruct (simulateMarket_inv s gen latency0 updates Hgen Hmax) as (st' & Hst & Hinv).
  rewrite Hrun in Hst. injection Hst as <-.
  destruct Hinv as ((Hinv & Hcons & Hpos & _) & Hrange & _).
  split_and!; [|intros sd lv; rewrite levels_view; apply Hpos|done].
  apply levels_match_orders_view; [by apply reachable_inv_wf|done].
Qed.

Lemma X14_witness :
  ∃ st, simulateMarket (strategy_book VectorLinear) gen_mixed (new_book VectorLinear) [] 6
        = Ok st ∧
    levels_match_orders VectorLinear (orderBook st) ∧
    no_empty_level VectorLinear (orderBook st) ∧
    orders_in_range (registry VectorLinear (orderBook st)).
Proof.
  eexists. split; [vm_compute; reflexivity|].
  apply (X14_simulated_book_is_consistent VectorLinear gen_mixed [] 6).
  - apply gen_mixed_in_range.
  - by vm_compute.
  - reflexivity.
Defined.

(** X15: [main] runs its six measurements of [NUM_OPERATIONS] updates to the
    end without undefined behaviour, whatever numbers the six generators
    deliver within their distributions, and each measurement holds
    [NUM_OPERATIONS] durations when it is printed and saved. *)
Theorem X15_main_is_defined (gen1 gen2 gen3 gen4 gen5 gen6 : nat → Draw) :
  (∀ j, draw_in_range (gen1 j)) → (∀ j, draw_in_range (gen2 j)) →
  (∀ j, draw_in_range (gen3 j)) → (∀ j, draw_in_range (gen4 j)) →
  (∀ j, draw_in_range (gen5 j)) → (∀ j, draw_in_range (gen6 j)) →
  ∃ out, main gen1 gen2 gen3 gen4 gen5 gen6 = Ok out ∧
         length out = 6%nat ∧
         Forall (λ durations_ns, length durations_ns = N.to_nat NUM_OPERATIONS) out.
Proof.
  intros H1 H2 H3 H4 H5 H6.
  assert (100 * Z.of_N NUM_OPERATIONS ≤ INT64_MAX) as Hmax by (by vm_compute).
  destruct (simulateMarket_inv StdMap gen1 [] NUM_OPERATIONS H1 Hmax) as (r1 & Hr1 & Hi1).
  destruct (simulateMarket_inv StdMap gen2 [] NUM_OPERATIONS H2 Hmax) as (r2 & Hr2 & Hi2).
  destruct (simulateMarket_inv Vector gen3 [] NUM_OPERATIONS H3 Hmax) as (r3 & Hr3 & Hi3).
  destruct (simulateMarket_inv VectorEfficient gen4 [] NUM_OPERATIONS H4 Hmax)
    as (r4 & Hr4 & Hi4).
  destruct (simulateMarket_inv VectorBranchless gen5 [] NUM_OPERATIONS H5 Hmax)
    as (r5 & Hr5 & Hi5).
  destruct (simulateMarket_inv VectorLinear gen6 [] NUM_OPERATIONS H6 Hmax)
    as (r6 & Hr6 & Hi6).
  exists [latency r1; latency r2; latency r3; latency r4; latency r5; latency r6].
  split_and!; [|done|].
  - assert (simulateMarket OrderBookMap.book gen1 OrderBookMap.empty [] NUM_OPERATIONS
            = Ok r1) as E1 by exact Hr1.
    assert (simulateMarketRandomizedHeap OrderBookMap.book gen2 OrderBookMap.empty []
              NUM_OPERATIONS = Ok r2) as E2 by exact Hr2.
    assert (simulateMarket OrderBookVector.book gen3 empty_book [] NUM_OPERATIONS = Ok r3)
      as E3 by exact Hr3.
    assert (simulateMarket OrderBookVectorEfficient.book gen4 empty_book [] NUM_OPERATIONS
            = Ok r4) as E4 by exact Hr4.
    assert (simulateMarket OrderBookVectorBranchless.book gen5 empty_book [] NUM_OPERATIONS
            = Ok r5) as E5 by exact Hr5.
    assert (simulateMarket OrderBookVectorLinear.book gen6 empty_book [] NUM_OPERATIONS
            = Ok r6) as E6 by exact Hr6.
    unfold main. by rewrite E1, E2, E3, E4, E5, E6.
  - repeat (apply Forall_cons; split; [by match goal with
                                         | H : sim_inv _ _ _ ?r |- length (latency ?r) = _ =>
                                             apply H
                                         end|]).
    apply Forall_nil_2.
Qed.

Lemma X15_witness :
  ∃ out, main gen_mixed gen_adds gen_mixed gen_adds gen_mixed gen_adds = Ok out ∧
         length out = 6%nat ∧
         Forall (λ durations_ns, length durations_ns = N.to_nat NUM_OPERATIONS) out.
Proof.
  apply (X15_main_is_defined gen_mixed gen_adds gen_mixed gen_adds gen_mixed gen_adds).
  - apply gen_mixed_in_range.
  - apply gen_adds_in_range.
  - apply gen_mixed_in_range.
  - apply gen_adds_in_range.
  - apply gen_mixed_in_range.
  - apply gen_adds_in_range.
Defined.
